(** * babel-plugin-import-glob: a shallow embedding of the member-name engine

    Two versions of the plugin live in the repository:
    - [src/index.js]      : capture-based pattern compiler ([V1] below);
    - [src/src/index.js]  : common prefix / extension stripping with an
                            optional indexed selection ([V2] below).
    Both share [memberify].  The collaborators the plugin calls (the
    [glob] primitive, [identifierfy], [common-extname], [common-path-prefix])
    are section variables; where a concrete input needs them they are
    instantiated with the models given further down. *)

From Stdlib Require Import String Ascii List Bool Arith ZArith Lia.
From Stdlib Require DecimalString.
Import ListNotations.
Open Scope list_scope.
Open Scope string_scope.

(* ------------------------------------------------------------------ *)
(** ** String toolkit (the JS [String.prototype] methods the code uses) *)

(** [s.split(c)] for a one-character separator: always at least one piece. *)
Fixpoint split (c : ascii) (s : string) : list string :=
  match s with
  | EmptyString => [EmptyString]
  | String a s' =>
      let r := split c s' in
      if Ascii.eqb a c then EmptyString :: r
      else match r with
           | x :: xs => String a x :: xs
           | [] => [String a EmptyString]
           end
  end.

(** [xs.join(sep)] *)
Fixpoint join (sep : string) (xs : list string) : string :=
  match xs with
  | [] => EmptyString
  | [x] => x
  | x :: xs' => x ++ sep ++ join sep xs'
  end.

(** [s.startsWith(p)] *)
Fixpoint startsWith (s p : string) : bool :=
  match p, s with
  | EmptyString, _ => true
  | String a p', String b s' => Ascii.eqb a b && startsWith s' p'
  | String _ _, EmptyString => false
  end.

Definition fileSeparator : ascii := "/"%char.

(* ------------------------------------------------------------------ *)
(** ** [memberify] (src/index.js 120-136, src/src/index.js 72-88) *)

(** The options object passed to [identifierfy]. *)
Record id_options := mk_id_options {
  prefixReservedWords : bool;
  prefixInvalidIdentifiers : bool
}.

Section Memberify.
(** [identifierfy(name, options)]: [None] stands for [null]. *)
Variable identifierfy : string -> id_options -> option string.

(** The [for] loop: [index] is the loop counter, [ids] the array pushed to. *)
Fixpoint memberify_loop (prw : bool) (index : nat) (pieces : list string)
         (ids : list string) : option string :=
  match pieces with
  | [] => Some (join "$" ids)
  | name :: rest =>
      match identifierfy name (mk_id_options prw (Nat.eqb index 0)) with
      | None => None
      | Some id => memberify_loop prw (S index) rest (app ids [id])
      end
  end.

Definition memberify (subpath : string) : option string :=
  let pieces := split fileSeparator subpath in
  let prefixReservedWords := Nat.eqb (List.length pieces) 1 in
  memberify_loop prefixReservedWords 0 pieces [].

(** The derivation as §4.3 of the spec words it: every piece is sanitised
    with the reserved-word option set exactly when there is one piece and
    the leading-character option set exactly for the piece at index 0;
    any [null] makes the whole result [null]; the pieces are joined by [$]. *)
Fixpoint sanitize_pieces (single : bool) (i : nat) (pieces : list string)
  : option (list string) :=
  match pieces with
  | [] => Some []
  | p :: ps =>
      match identifierfy p (mk_id_options single (Nat.eqb i 0)),
            sanitize_pieces single (S i) ps with
      | Some id, Some ids => Some (id :: ids)
      | _, _ => None
      end
  end.

Definition memberify_spec (subpath : string) : option string :=
  let pieces := split fileSeparator subpath in
  option_map (join "$")
    (sanitize_pieces (Nat.eqb (List.length pieces) 1) 0 pieces).
End Memberify.

(* ------------------------------------------------------------------ *)
(** ** JS [RegExp] model

    The subset of regular-expression syntax the plugin builds and
    minimatch emits: literals and escapes, [.], classes, anchors,
    [(...)], [(?:...)], [(?=...)], [(?!...)], alternation and the greedy
    and lazy quantifiers [*], [+], [?].  Matching is the backtracking
    semantics of ECMAScript (an iteration of a quantifier that consumes
    nothing fails), with an explicit fuel. *)

Inductive regex :=
| REps
| RChar (c : ascii)
| RAny
| RClass (negated : bool) (items : list (ascii * ascii))
| RBol
| REol
| RSeq (r1 r2 : regex)
| RAlt (r1 r2 : regex)
| RStar (greedy : bool) (r : regex)
| RPlus (greedy : bool) (r : regex)
| ROpt (greedy : bool) (r : regex)
| RGroup (n : nat) (r : regex)
| RLook (positive : bool) (r : regex).

(** Parsing: each function returns the parsed regex, the rest of the
    source and the next free capture-group number.  The parser covers the
    syntax of the expressions the plugin builds from minimatch's output
    ([(?:], [(?=], [(?!], classes, escapes, greedy and lazy quantifiers); it
    does not know lookbehind or named groups. *)
Fixpoint p_class (fuel : nat) (s : string) : option (list (ascii * ascii) * string) :=
  match fuel with
  | 0 => None
  | S f =>
      match s with
      | EmptyString => None
      | String "]" s' => Some ([], s')
      | String "\" (String c s') =>
          option_map (fun '(l, r) => ((c, c) :: l, r)) (p_class f s')
      | String c (String "-" (String d s')) =>
          if Ascii.eqb d "]" then
            option_map (fun '(l, r) => ((c, c) :: ("-"%char, "-"%char) :: l, r))
                       (p_class f (String d s'))
          else option_map (fun '(l, r) => ((c, d) :: l, r)) (p_class f s')
      | String c s' => option_map (fun '(l, r) => ((c, c) :: l, r)) (p_class f s')
      end
  end.

Definition quantify (r : regex) (s : string) : regex * string :=
  match s with
  | String "*" (String "?" s') => (RStar false r, s')
  | String "*" s' => (RStar true r, s')
  | String "+" (String "?" s') => (RPlus false r, s')
  | String "+" s' => (RPlus true r, s')
  | String "?" (String "?" s') => (ROpt false r, s')
  | String "?" s' => (ROpt true r, s')
  | _ => (r, s)
  end.

Definition close_paren (res : option (regex * string * nat)) (wrap : regex -> regex)
  : option (regex * string * nat) :=
  match res with
  | Some (r, String ")" rest, g) => Some (wrap r, rest, g)
  | _ => None
  end.

Fixpoint p_disj (fuel : nat) (s : string) (g : nat) : option (regex * string * nat) :=
  match fuel with
  | 0 => None
  | S f =>
      match p_alt f s g with
      | Some (r, String "|" rest, g') =>
          match p_disj f rest g' with
          | Some (r2, rest2, g2) => Some (RAlt r r2, rest2, g2)
          | None => None
          end
      | res => res
      end
  end
with p_alt (fuel : nat) (s : string) (g : nat) : option (regex * string * nat) :=
  match fuel with
  | 0 => None
  | S f =>
      match s with
      | EmptyString | String ")" _ | String "|" _ => Some (REps, s, g)
      | _ =>
          match p_atom f s g with
          | Some (a, rest, g') =>
              let '(t, rest') := quantify a rest in
              match p_alt f rest' g' with
              | Some (r2, rest2, g2) => Some (RSeq t r2, rest2, g2)
              | None => None
              end
          | None => None
          end
      end
  end
with p_atom (fuel : nat) (s : string) (g : nat) : option (regex * string * nat) :=
  match fuel with
  | 0 => None
  | S f =>
      match s with
      | String "(" (String "?" (String ":" s')) => close_paren (p_disj f s' g) (fun r => r)
      | String "(" (String "?" (String "=" s')) => close_paren (p_disj f s' g) (RLook true)
      | String "(" (String "?" (String "!" s')) => close_paren (p_disj f s' g) (RLook false)
      | String "(" s' => close_paren (p_disj f s' (S g)) (RGroup g)
      | String "[" (String "^" s') =>
          option_map (fun '(l, r) => (RClass true l, r, g)) (p_class f s')
      | String "[" s' => option_map (fun '(l, r) => (RClass false l, r, g)) (p_class f s')
      | String "\" (String c s') => Some (RChar c, s', g)
      | String "." s' => Some (RAny, s', g)
      | String "^" s' => Some (RBol, s', g)
      | String "$" s' => Some (REol, s', g)
      | String c s' => Some (RChar c, s', g)
      | EmptyString => None
      end
  end.

(** A compiled [RegExp]: its pattern, its number of capture groups and its
    [i] flag. *)
Record jsregexp := mk_jsregexp { re_pat : regex; re_groups : nat; re_ignoreCase : bool }.

(** [new RegExp(source, flags)]; [None] is the thrown [SyntaxError]. *)
Definition new_RegExp (source flags : string) : option jsregexp :=
  match p_disj (4 * String.length source + 4) source 1 with
  | Some (r, EmptyString, g) => Some (mk_jsregexp r (g - 1) (startsWith flags "i"))
  | _ => None
  end.

Definition ascii_upper (c : ascii) : ascii :=
  let n := nat_of_ascii c in
  if Nat.leb 97 n && Nat.leb n 122 then ascii_of_nat (n - 32)%nat else c.
Definition ascii_lower (c : ascii) : ascii :=
  let n := nat_of_ascii c in
  if Nat.leb 65 n && Nat.leb n 90 then ascii_of_nat (n + 32)%nat else c.

Definition char_eq (ci : bool) (a b : ascii) : bool :=
  if ci then Ascii.eqb (ascii_upper a) (ascii_upper b) else Ascii.eqb a b.

Definition in_items (items : list (ascii * ascii)) (c : ascii) : bool :=
  existsb (fun '(lo, hi) => Nat.leb (nat_of_ascii lo) (nat_of_ascii c) && Nat.leb (nat_of_ascii c) (nat_of_ascii hi)) items.

Definition class_has (ci : bool) (items : list (ascii * ascii)) (c : ascii) : bool :=
  if ci then in_items items c || in_items items (ascii_lower c) || in_items items (ascii_upper c)
  else in_items items c.

Definition is_line_terminator (c : ascii) : bool :=
  Ascii.eqb c "010"%char || Ascii.eqb c "013"%char.

(** Capture state: group number to the (start, end) it last matched. *)
Definition captures := list (nat * (nat * nat)).

Fixpoint cap_lookup (n : nat) (c : captures) : option (nat * nat) :=
  match c with
  | [] => None
  | (m, v) :: c' => if Nat.eqb n m then Some v else cap_lookup n c'
  end.

Definition orelse {A} (x : option A) (y : unit -> option A) : option A :=
  match x with Some _ => x | None => y tt end.

Fixpoint mt (fuel : nat) (ci : bool) (inp : string) (r : regex) (i : nat)
         (c : captures) (k : nat -> captures -> option captures) : option captures :=
  match fuel with
  | 0 => None
  | S f =>
      match r with
      | REps => k i c
      | RChar a =>
          match String.get i inp with
          | Some b => if char_eq ci a b then k (S i) c else None
          | None => None
          end
      | RAny =>
          match String.get i inp with
          | Some b => if is_line_terminator b then None else k (S i) c
          | None => None
          end
      | RClass neg items =>
          match String.get i inp with
          | Some b => if xorb neg (class_has ci items b) then k (S i) c else None
          | None => None
          end
      | RBol => if Nat.eqb i 0 then k i c else None
      | REol => if Nat.eqb i (String.length inp) then k i c else None
      | RSeq r1 r2 => mt f ci inp r1 i c (fun j c' => mt f ci inp r2 j c' k)
      | RAlt r1 r2 => orelse (mt f ci inp r1 i c k) (fun _ => mt f ci inp r2 i c k)
      | RStar true r1 =>
          orelse (mt f ci inp r1 i c
                    (fun j c' => if Nat.eqb j i then None else mt f ci inp (RStar true r1) j c' k))
                 (fun _ => k i c)
      | RStar false r1 =>
          orelse (k i c)
                 (fun _ => mt f ci inp r1 i c
                    (fun j c' => if Nat.eqb j i then None else mt f ci inp (RStar false r1) j c' k))
      | RPlus g r1 => mt f ci inp (RSeq r1 (RStar g r1)) i c k
      | ROpt true r1 => orelse (mt f ci inp r1 i c k) (fun _ => k i c)
      | ROpt false r1 => orelse (k i c) (fun _ => mt f ci inp r1 i c k)
      | RGroup n r1 => mt f ci inp r1 i c (fun j c' => k j ((n, (i, j)) :: c'))
      | RLook true r1 =>
          match mt f ci inp r1 i c (fun _ c' => Some c') with
          | Some c' => k i c'
          | None => None
          end
      | RLook false r1 =>
          match mt f ci inp r1 i c (fun _ c' => Some c') with
          | Some _ => None
          | None => k i c
          end
      end
  end.

Definition match_fuel (inp : string) : nat := 200 * (String.length inp + 10).

(** [str.match(re)] for a non-global [re]: [None] is [null]; otherwise the
    array [[match[0], match[1], ...]], [None] entries being [undefined]. *)
Definition str_match (inp : string) (re : jsregexp) : option (list (option string)) :=
  let fix search (i : nat) (todo : nat) : option captures :=
    match todo with
    | 0 => None
    | S t =>
        orelse (mt (match_fuel inp) (re_ignoreCase re) inp (RGroup 0 (re_pat re)) i []
                   (fun _ c => Some c))
               (fun _ => search (S i) t)
    end in
  match search 0 (S (String.length inp)) with
  | None => None
  | Some c =>
      Some (map (fun n => option_map (fun '(a, b) => String.substring a (b - a) inp)
                                     (cap_lookup n c))
                (seq 0 (S (re_groups re))))
  end.

(** [arr[n]] on the array returned by [match]. *)
Definition group (m : list (option string)) (n : nat) : option string :=
  match nth_error m n with Some x => x | None => None end.

(* ------------------------------------------------------------------ *)
(** ** The [identifierfy] dependency

    Modelled from the spec (§4.3, Identifier Deriver): the [identifierfy]
    package is not part of this repository.  Characters that cannot occur
    in an identifier are removed and the character after a removed one is
    upper-cased; a first character that may continue but not start an
    identifier (a digit) is kept, behind an underscore when
    [prefixInvalidIdentifiers] is set; an empty result is [null]; a reserved
    word is prefixed with an underscore when [prefixReservedWords] is set. *)

Definition is_letter (c : ascii) : bool :=
  let n := nat_of_ascii c in
  (Nat.leb 65 n && Nat.leb n 90) || (Nat.leb 97 n && Nat.leb n 122).
Definition is_digit (c : ascii) : bool :=
  let n := nat_of_ascii c in Nat.leb 48 n && Nat.leb n 57.
Definition is_id_start (c : ascii) : bool :=
  is_letter c || Ascii.eqb c "$" || Ascii.eqb c "_".
Definition is_id_part (c : ascii) : bool := is_id_start c || is_digit c.

Definition reserved_words : list string :=
  ["break"; "case"; "catch"; "class"; "const"; "continue"; "debugger";
   "default"; "delete"; "do"; "else"; "enum"; "export"; "extends"; "false";
   "finally"; "for"; "function"; "if"; "implements"; "import"; "in";
   "instanceof"; "interface"; "let"; "new"; "null"; "package"; "private";
   "protected"; "public"; "return"; "static"; "super"; "switch"; "this";
   "throw"; "true"; "try"; "typeof"; "var"; "void"; "while"; "with"; "yield"].

Fixpoint idfy_tail (dropped : bool) (s : string) : string :=
  match s with
  | EmptyString => EmptyString
  | String c s' =>
      if is_id_part c then String (if dropped then ascii_upper c else c) (idfy_tail false s')
      else idfy_tail true s'
  end.

Definition identifierfy_model (s : string) (o : id_options) : option string :=
  let body :=
    match s with
    | EmptyString => EmptyString
    | String c s' =>
        if is_id_start c then String c (idfy_tail false s')
        else if is_id_part c then
          (if prefixInvalidIdentifiers o then String "_" (String c EmptyString)
           else String c EmptyString) ++ idfy_tail false s'
        else idfy_tail true s'
    end in
  match body with
  | EmptyString => None
  | _ => if prefixReservedWords o && existsb (String.eqb body) reserved_words
         then Some (String "_" body) else Some body
  end.

(* ------------------------------------------------------------------ *)
(** ** Node's [path] module (POSIX)

    A normalised absolute path is kept as its list of segments; [proc_cwd]
    is [process.cwd()], used when the arguments of [resolve] are all
    relative. *)

Definition is_absolute (p : string) : bool := startsWith p "/".

(** Normalisation over a reversed stack: [""] and ["."] are dropped, [".."]
    pops (and stays at the root). *)
Fixpoint norm_segs (acc : list string) (segs : list string) : list string :=
  match segs with
  | [] => acc
  | x :: xs =>
      if String.eqb x "" || String.eqb x "." then norm_segs acc xs
      else if String.eqb x ".." then norm_segs (tl acc) xs
      else norm_segs (x :: acc) xs
  end.

(** [resolve] of one more argument [p] on top of the normalised [base]. *)
Definition resolve_segs (base : list string) (p : string) : list string :=
  rev (norm_segs (if is_absolute p then [] else rev base) (split fileSeparator p)).

Definition segs_to_path (segs : list string) : string := "/" ++ join "/" segs.

(** [path.resolve(a, b)] *)
Definition path_resolve (proc_cwd : list string) (a b : string) : string :=
  segs_to_path (resolve_segs (resolve_segs proc_cwd a) b).

Fixpoint strip_common (a b : list string) : list string * list string :=
  match a, b with
  | x :: a', y :: b' => if String.eqb x y then strip_common a' b' else (a, b)
  | _, _ => (a, b)
  end.

(** [path.relative(from, to)] *)
Definition path_relative (proc_cwd : list string) (from to : string) : string :=
  let '(f, t) := strip_common (resolve_segs proc_cwd from) (resolve_segs proc_cwd to) in
  join "/" (app (repeat ".." (List.length f)) t).

(** [path.dirname(p)] *)
Definition path_dirname (p : string) : string :=
  let segs := rev (split fileSeparator p) in
  let segs := (fix drop_empty l := match l with
                | x :: l' => if String.eqb x "" then drop_empty l' else l
                | [] => [] end) segs in
  match segs with
  | [] | [_] => if is_absolute p then "/" else "."
  | _ :: parent =>
      match rev parent with
      | [""] => "/"
      | ps => join "/" ps
      end
  end.

(** The [relative] field of a member: [rp] in src/src/index.js, line 21. *)
Definition rp (proc_cwd : list string) (cwd file : string) : string :=
  "./" ++ path_relative proc_cwd cwd (path_resolve proc_cwd cwd file).

(* ------------------------------------------------------------------ *)
(** ** The glob collaborator's output

    [globObj.minimatch.set]: one list of parts per brace expansion, a part
    being a literal segment, a [RegExp] (kept as the [re] minimatch wraps as
    [^re$], which is also its [_src]) or [GLOBSTAR]. *)

Inductive mm_part :=
| MStr (s : string)
| MRe (src : string)
| MGlobstar.

Definition mm_source (src : string) : string := "^" ++ src ++ "$".

(** [pattern.replace(/^glob:/, '')] on a pattern that starts with [glob:]. *)
Definition replace_glob_prefix (p : string) : string :=
  String.substring 5 (String.length p - 5) p.

(** A stand-in for [glob.hasMagic] on the patterns used below: a pattern
    has magic when it holds [*], [?] or [[]. *)
Definition hasMagic_model (p : string) : bool :=
  let fix go s := match s with
                  | EmptyString => false
                  | String c s' => Ascii.eqb c "*" || Ascii.eqb c "?" || Ascii.eqb c "[" || go s'
                  end in
  go p.

(** A member as both versions build it. *)
Record member := mk_member {
  m_file : string;
  m_relative : string;
  m_name : option string
}.

(** Specifiers of an import declaration and the statements it is rewritten to. *)
Inductive specifier :=
| ImportSpecifier (imported local : string)
| ImportDefaultSpecifier (local : string)
| ImportNamespaceSpecifier (local : string).

Definition spec_local (s : specifier) : string :=
  match s with
  | ImportSpecifier _ l | ImportDefaultSpecifier l | ImportNamespaceSpecifier l => l
  end.

Inductive stmt :=
| SImportDefault (local src : string)             (* import local from 'src' *)
| SImportBare (src : string)                      (* import 'src' *)
| SNamespaceConst (local : string) (props : list (string * string))
| SFreeze (local : string).                       (* Object.freeze(local) *)

(** What the visitor does to one import declaration: nothing, a
    [buildCodeFrameError] thrown with its message, another exception
    (a [TypeError] of the runtime), or [replaceWithMultiple]. *)
Inductive outcome :=
| Unchanged
| Failed (msg : string)
| Crashed
| Replaced (stmts : list stmt).

(** [`${x}`] of a member name that may be [null]. *)
Definition js_str (o : option string) : string :=
  match o with Some s => s | None => "null" end.

Definition hasImportDefaultSpecifier (specifiers : list specifier) : bool :=
  existsb (fun s => match s with ImportDefaultSpecifier _ => true | _ => false end) specifiers.

(** The duplicate / [null] check shared by both versions
    (src/index.js 204-214, src/src/index.js 176-186); [unique] is the keys
    of the [Object.create(null)] dictionary. *)
Fixpoint check_members (unique : list string) (members : list member) : option string :=
  match members with
  | [] => None
  | m :: rest =>
      match m_name m with
      | None => Some ("Could not generate a valid identifier for '" ++ m_file m ++ "'")
      | Some n =>
          if existsb (String.eqb n) unique
          then Some ("Found colliding members '" ++ n ++ "'")
          else check_members (n :: unique) rest
      end
  end.

Definition unmatched_import_msg (importName : string) (members : list member) : string :=
  "Could not match import '" ++ importName ++ "' to a module. Available members are '"
  ++ join "', '" (map (fun m => js_str (m_name m)) members) ++ "'".

Definition find_member (importName : string) (members : list member) : option member :=
  find (fun m => match m_name m with Some n => String.eqb n importName | None => false end) members.

Definition namespace_stmts (localName : string) (members : list member) : list stmt :=
  app (map (fun m => SImportDefault ("_" ++ localName ++ "_" ++ js_str (m_name m)) (m_relative m)) members)
  [SNamespaceConst localName
        (map (fun m => (js_str (m_name m), "_" ++ localName ++ "_" ++ js_str (m_name m))) members);
      SFreeze localName].

(** [arr.findIndex(p)] / [findLastIndex(arr, p)], [None] standing for -1. *)
Fixpoint findIndex {A} (p : A -> bool) (l : list A) : option nat :=
  match l with
  | [] => None
  | x :: l' => if p x then Some 0 else option_map S (findIndex p l')
  end.

Definition findLastIndex {A} (p : A -> bool) (l : list A) : option nat :=
  option_map (fun i => List.length l - 1 - i) (findIndex p (rev l)).

(** lodash [uniq]: first occurrences, in order. *)
Definition uniq (l : list string) : list string :=
  rev (fold_left (fun acc x => if existsb (String.eqb x) acc then acc else x :: acc) l []).

(** [Array.prototype.map] returning [None] as soon as the callback throws. *)
Fixpoint map_throw {A B} (f : A -> option B) (l : list A) : option (list B) :=
  match l with
  | [] => Some []
  | x :: l' =>
      match f x with
      | Some y => option_map (cons y) (map_throw f l')
      | None => None
      end
  end.

(* ------------------------------------------------------------------ *)
(** ** The trailing-extension recogniser

    [/(?:\\\.[A-Za-z0-9]+)*$/] as an automaton: words made of groups
    [\.] followed by one or more ASCII letters or digits. *)

Definition is_alnum (c : ascii) : bool := is_letter c || is_digit c.

Inductive ext_state := E0 | E1 | E2 | E3.

Definition ext_step (q : ext_state) (c : ascii) : option ext_state :=
  match q with
  | E0 => if Ascii.eqb c "\" then Some E1 else None
  | E1 => if Ascii.eqb c "." then Some E2 else None
  | E2 => if is_alnum c then Some E3 else None
  | E3 => if is_alnum c then Some E3 else if Ascii.eqb c "\" then Some E1 else None
  end.

Fixpoint ext_run (q : ext_state) (s : string) : bool :=
  match s with
  | EmptyString => match q with E0 | E3 => true | _ => false end
  | String c s' => match ext_step q c with Some q' => ext_run q' s' | None => false end
  end.

Definition ext_ok (s : string) : bool := ext_run E0 s.

(** [expression.match(/(?:\\\.[A-Za-z0-9]+)*$/)]: the match starts at the
    leftmost position from which the rest of the string is such a word;
    the result is the part before it and the match [[0]]. *)
Fixpoint ext_split (s : string) : string * string :=
  if ext_ok s then (EmptyString, s)
  else match s with
       | EmptyString => (EmptyString, EmptyString)
       | String c s' => let '(p, e) := ext_split s' in (String c p, e)
       end.

(* ------------------------------------------------------------------ *)
(** * Version 1: src/index.js *)

Module V1.

(** [escape-string-regexp]: [str.replace(/[|\\{}()[\]^$+*?.]/g, '\\$&')]. *)
Definition is_escaped_char (c : ascii) : bool :=
  existsb (Ascii.eqb c) ["|"; "\"; "{"; "}"; "("; ")"; "["; "]"; "^"; "$"; "+"; "*"; "?"; "."]%char.

Fixpoint escapeStringRegexp (s : string) : string :=
  match s with
  | EmptyString => EmptyString
  | String c s' =>
      if is_escaped_char c then String "\" (String c (escapeStringRegexp s'))
      else String c (escapeStringRegexp s')
  end.

(** [twoStar], line 11. *)
Definition twoStar : string := "(?:(?!(?:/|^)\.).)*?".

(** [subexp.source.slice(1, -1)] *)
Definition slice_inner (s : string) : string := String.substring 1 (String.length s - 2) s.

(** An element of the flattened set: a string, or an array of alternatives. *)
Inductive flat := FStr (s : string) | FArr (xs : list string).

Definition isArray (f : flat) : bool := match f with FArr _ => true | FStr _ => false end.

(** [flattenSet], lines 24-44; [None] is a [TypeError] thrown when the
    expansions disagree on the kind of a part. *)
Definition flattenSet (set : list (list mm_part)) : option (list flat) :=
  match set with
  | [] => None
  | first :: _ =>
      map_throw
        (fun '(index, firstExpression) =>
           match firstExpression with
           | MGlobstar => Some (FArr [twoStar])
           | MStr _ =>
               option_map
                 (fun subExpressions =>
                    match uniq subExpressions with
                    | [x] => FStr x
                    | xs => FArr xs
                    end)
                 (map_throw (fun expressions =>
                               match nth_error expressions index with
                               | Some (MStr e) => Some (escapeStringRegexp e)
                               | _ => None
                               end) set)
           | MRe _ =>
               option_map (fun subExpressions => FArr (uniq subExpressions))
                 (map_throw (fun expressions =>
                               match nth_error expressions index with
                               | Some (MRe src) => Some (slice_inner (mm_source src))
                               | _ => None
                               end) set)
           end)
        (combine (seq 0 (List.length first)) first)
  end.

(** [joinExpression], lines 51-56 ([expression[0]] of an empty array is
    [undefined]). *)
Definition joinExpression (expression : list string) : string :=
  match expression with
  | [] => "undefined"
  | [x] => x
  | _ => "(?:" ++ join "|" expression ++ ")"
  end.

(** [splitExtensions], lines 63-76. *)
Fixpoint splitExtensions (expressions : list string) : list string * list string :=
  match expressions with
  | [] => ([], [])
  | expression :: rest =>
      let '(filenames, extensions) := splitExtensions rest in
      let '(filename, extension) := ext_split expression in
      match extension with
      | EmptyString => (expression :: filenames, extensions)
      | _ => (filename :: filenames, extension :: extensions)
      end
  end.

Definition join_flat (f : flat) : string :=
  match f with FStr s => s | FArr xs => joinExpression xs end.

(** The array after [joinedExpressions[captureStart] = '(' + ...] and
    [joinedExpressions[captureStop] += ')']. *)
Fixpoint add_parens_from (i captureStart captureStop : nat) (joined : list string)
  : list string :=
  match joined with
  | [] => []
  | e :: rest =>
      ((if Nat.eqb i captureStart then "(" else "") ++ e
       ++ (if Nat.eqb i captureStop then ")" else ""))
      :: add_parens_from (S i) captureStart captureStop rest
  end.

Definition add_parens (captureStart captureStop : nat) (joined : list string) : list string :=
  add_parens_from 0 captureStart captureStop joined.

(** [makeSubpathExpression], lines 78-104. *)
Definition makeSubpathExpression (set : list (list mm_part)) : option string :=
  match flattenSet set with
  | None => None
  | Some expressions =>
      match findIndex isArray expressions, findLastIndex isArray expressions with
      | Some captureStart, Some captureStop =>
          let '(expressions', extensionExpression) :=
            if Nat.eqb captureStop (List.length expressions - 1) then
              match nth_error expressions captureStop with
              | Some (FArr xs) =>
                  let '(fs, es) := splitExtensions xs in
                  (firstn captureStop expressions ++ [FArr (uniq fs)], uniq es)%list
              | _ => (expressions, [])
              end
            else (expressions, []) in
          let joinedExpressions :=
            add_parens captureStart captureStop (map join_flat expressions') in
          let finalExpression := join "/" joinedExpressions in
          let finalExpression :=
            match extensionExpression with
            | [] => finalExpression
            | _ => finalExpression ++ joinExpression extensionExpression
            end in
          Some ("^" ++ finalExpression ++ "$")
      | _, _ =>
          (* no array: the two index assignments write the property "-1" *)
          match expressions with
          | [] => None
          | _ => Some ("^" ++ join "/" (map join_flat expressions) ++ "$")
          end
      end
  end.

Section Plugin.
Variable identifierfy : string -> id_options -> option string.
Variable proc_cwd : list string.
(** [glob.hasMagic] *)
Variable hasMagic : string -> bool.
(** [new glob.GlobSync(pattern, {cwd, strict: true})]: its [found] and
    [minimatch.set]. *)
Variable globSync : string -> string -> list string * list (list mm_part).

(** [generateMembers], lines 106-118. *)
Definition generateMembers (found : list string) (set : list (list mm_part)) (cwd : string)
  : option (list member) :=
  match makeSubpathExpression set with
  | None => None
  | Some expression =>
      match new_RegExp expression "i" with
      | None => None
      | Some regexp =>
          map_throw
            (fun file =>
               match str_match file regexp with
               | None => None                              (* null[1] *)
               | Some m =>
                   match group m 1 with
                   | None => None                          (* undefined.split *)
                   | Some subpath =>
                       Some (mk_member file (rp proc_cwd cwd file)
                               (memberify identifierfy subpath))
                   end
               end) found
      end
  end.

(** The [for (const specifier of specifiers)] loop, lines 218-237. *)
Fixpoint replace_specifiers (members : list member) (specifiers : list specifier)
         (replacement : list stmt) : outcome :=
  match specifiers with
  | [] => Replaced replacement
  | ImportSpecifier importName localName :: rest =>
      match find_member importName members with
      | None => Failed (unmatched_import_msg importName members)
      | Some m => replace_specifiers members rest
                    (app replacement [SImportDefault localName (m_relative m)])
      end
  | sp :: rest =>
      replace_specifiers members rest
        (app replacement (namespace_stmts (spec_local sp) members))
  end.

(** The [ImportDeclaration] visitor, lines 175-244; [filename] is
    [state.file.opts.filename]. *)
Definition ImportDeclaration (specifiers : list specifier) (source : string)
           (filename : string) : outcome :=
  let pattern := source in
  if negb (hasMagic pattern) then
    if startsWith pattern "glob:" then Failed ("Missing glob pattern '" ++ pattern ++ "'")
    else Unchanged
  else
  let pattern := if startsWith pattern "glob:" then replace_glob_prefix pattern else pattern in
  if hasImportDefaultSpecifier specifiers then Failed "Cannot import the default member" else
  if negb (startsWith pattern ".") then
    Failed ("Glob pattern must be relative, was '" ++ pattern ++ "'") else
  let cwd := path_dirname filename in
  let '(found, set) := globSync pattern cwd in
  match generateMembers found set cwd with
  | None => Crashed
  | Some members =>
      match check_members [] members with
      | Some msg => Failed msg
      | None =>
          match specifiers with
          | _ :: _ => replace_specifiers members specifiers []
          | [] => Replaced (map (fun m => SImportBare (m_relative m)) members)
          end
      end
  end.
End Plugin.

End V1.

(* ------------------------------------------------------------------ *)
(** * Version 2: src/src/index.js *)

(** [str.slice(begin, end)] with JS's handling of negative and
    out-of-range indices. *)
Definition js_index (n : Z) (i : Z) : Z :=
  if Z.ltb i 0 then Z.max (n + i) 0 else Z.min i n.

Definition js_slice (s : string) (b e : Z) : string :=
  let n := Z.of_nat (String.length s) in
  let b' := js_index n b in
  let e' := js_index n e in
  String.substring (Z.to_nat b') (Z.to_nat (e' - b')) s.

Module V2.

(** The part of minimatch's options the code reads. *)
Record mm_options := mk_mm_options { noglobstar : bool; dot : bool; nocase : bool }.

Definition star : string := "[^/]*?".
Definition twoStarDot : string := "(?:(?!(?:/|^)(?:\.{1,2})($|/)).)*?".
Definition twoStarNoDot : string := "(?:(?!(?:/|^)\.).)*?".

(** [regExpEscape]: [s.replace(/[-[\]{}()*+?.,\\^$|#\s]/g, '\\$&')]. *)
Definition is_escaped_char (c : ascii) : bool :=
  existsb (Ascii.eqb c)
    ["-"; "["; "]"; "{"; "}"; "("; ")"; "*"; "+"; "?"; "."; ","; "\"; "^"; "$"; "|"; "#";
     " "; "009"; "010"; "011"; "012"; "013"]%char.

Fixpoint regExpEscape (s : string) : string :=
  match s with
  | EmptyString => EmptyString
  | String c s' =>
      if is_escaped_char c then String "\" (String c (regExpEscape s'))
      else String c (regExpEscape s')
  end.

Definition is_string_part (p : mm_part) : bool :=
  match p with MStr _ => true | _ => false end.

(** The [RegExp] source of the indexed branch, lines 28-32. *)
Definition indexed_source (options : mm_options) (ps : list mm_part) : string :=
  let twoStar := "(" ++ (if noglobstar options then star
                         else if dot options then twoStarDot else twoStarNoDot) ++ ")" in
  "^(?:" ++ join "/" (map (fun p => match p with
                                   | MGlobstar => twoStar
                                   | MStr s => regExpEscape s
                                   | MRe src => "(" ++ src ++ ")"
                                   end) ps) ++ ")$".

Definition indexed_flags (options : mm_options) : string :=
  if nocase options then "i" else "".

(** [count] and [last], lines 33-34. *)
Definition dyn_count (ps : list mm_part) : Z :=
  Z.of_nat (List.length (filter (fun p => negb (is_string_part p)) ps)).
Definition last_index (ps : list mm_part) : Z := dyn_count ps - 1.

(** [fileIndex], line 38: [None] for [false]. *)
Definition fileIndex (ps : list mm_part) : option Z :=
  match rev ps with
  | MStr _ :: _ => None
  | _ => Some (last_index ps)
  end.

(** Lines 35-37. *)
Definition clamp_index (ps : list mm_part) (index : Z) : Z :=
  if Z.gtb index (last_index ps) then last_index ps else index.

Section Plugin.
Variable identifierfy : string -> id_options -> option string.
Variable proc_cwd : list string.
Variable hasMagic : string -> bool.
(** [GlobSync(pattern, {cwd, strict: true})]: [found], [minimatch.set]
    and [minimatch.options]. *)
Variable globSync : string -> string -> list string * list (list mm_part) * mm_options.
(** The [common-extname] and [common-path-prefix] packages. *)
Variable commonExtname : list string -> string.
Variable commonPathPrefix : list string -> string.

(** The [index >= 0] branch of [generateMembers], lines 23-55. *)
Definition generateMembers_indexed (found : list string) (ps : list mm_part)
           (options : mm_options) (cwd : string) (index : Z) : option (list member) :=
  match new_RegExp (indexed_source options ps) (indexed_flags options) with
  | None => None
  | Some regexp =>
      let index := clamp_index ps index in
      let sub f := match str_match f regexp with
                   | None => None
                   | Some m => group m (Z.to_nat (index + 1))
                   end in
      if match fileIndex ps with Some fi => Z.eqb index fi | None => false end then
        let suffix := Z.of_nat (String.length (commonExtname found)) in
        map_throw (fun f =>
                     match sub f with
                     | None => None
                     | Some p =>
                         Some (mk_member f (rp proc_cwd cwd f)
                                 (memberify identifierfy
                                    (js_slice p 0 (Z.of_nat (String.length p) - suffix))))
                     end) found
      else
        map_throw (fun f =>
                     match sub f with
                     | None => None
                     | Some p => Some (mk_member f (rp proc_cwd cwd f) (memberify identifierfy p))
                     end) found
  end.

(** [generateMembers], lines 19-66 ([set[0]] of an empty set throws). *)
Definition generateMembers (found : list string) (set : list (list mm_part))
           (options : mm_options) (cwd : string) (index : Z) : option (list member) :=
  if Z.leb 0 index then
    match set with
    | [] => None
    | ps :: _ => generateMembers_indexed found ps options cwd index
    end
  else
    let prefix := Z.of_nat (String.length (commonPathPrefix found)) in
    let suffix := Z.of_nat (String.length (commonExtname found)) in
    Some (map (fun f => mk_member f (rp proc_cwd cwd f)
                          (memberify identifierfy
                             (js_slice f prefix (Z.of_nat (String.length f) - suffix))))
              found).

(** [/^\$[0-9]+$/.test(name)] and [Number(name.substr(1))]. *)
Fixpoint digits_value (acc : Z) (s : string) : option Z :=
  match s with
  | EmptyString => Some acc
  | String c s' =>
      if is_digit c then digits_value (10 * acc + Z.of_nat (nat_of_ascii c - 48)) s'
      else None
  end.

Definition indexed_name (name : string) : option Z :=
  match name with
  | String "$" (String c s) => if is_digit c then digits_value 0 (String c s) else None
  | _ => None
  end.

(** [indexFromImportSpecifier], lines 99-107. *)
Definition indexFromImportSpecifier (specifiers : list specifier) : Z :=
  match find (fun sp => match sp with
                        | ImportSpecifier imported _ =>
                            match indexed_name imported with Some _ => true | None => false end
                        | _ => false
                        end) specifiers with
  | Some (ImportSpecifier imported _) =>
      match indexed_name imported with Some n => n | None => -1 end
  | _ => -1
  end.

(** [specifiers.map(...)] of lines 197-215: the first callback that throws
    gives the error. *)
Fixpoint replace_specifiers (index : Z) (members : list member)
         (specifiers : list specifier) : string + list stmt :=
  match specifiers with
  | [] => inr []
  | sp :: rest =>
      let this :=
        match sp with
        | ImportSpecifier importName localName =>
            if Z.ltb index 0 then
              match find_member importName members with
              | None => inl (unmatched_import_msg importName members)
              | Some m => inr [SImportDefault localName (m_relative m)]
              end
            else inr (namespace_stmts localName members)
        | _ => inr (namespace_stmts (spec_local sp) members)
        end in
      match this with
      | inl e => inl e
      | inr st =>
          match replace_specifiers index members rest with
          | inl e => inl e
          | inr sts => inr (app st sts)
          end
      end
  end.

(** The [ImportDeclaration] visitor, lines 141-217; [source] is [None]
    when it is not a string literal. *)
Definition ImportDeclaration (specifiers : list specifier) (source : option string)
           (filename : string) : outcome :=
  match source with
  | None => Unchanged
  | Some value =>
      let continue_with pattern :=
        if hasImportDefaultSpecifier specifiers then Failed "Cannot import the default member" else
        if String.eqb pattern "" then Failed ("Missing glob pattern '" ++ pattern ++ "'") else
        if startsWith pattern "/" then
          Failed ("Glob pattern must be relative, was '" ++ pattern ++ "'") else
        let index := indexFromImportSpecifier specifiers in
        if Z.leb 0 index && Nat.ltb 1 (List.length specifiers) then
          Failed "Cannot mix indexed members" else
        let cwd := path_dirname filename in
        let '(found, set, options) := globSync pattern cwd in
        match generateMembers found set options cwd index with
        | None => Crashed
        | Some members =>
            match check_members [] members with
            | Some msg => Failed msg
            | None =>
                match specifiers with
                | [] => Replaced (map (fun m => SImportBare (m_relative m)) members)
                | _ =>
                    match replace_specifiers index members specifiers with
                    | inl msg => Failed msg
                    | inr sts => Replaced sts
                    end
                end
            end
        end in
      if startsWith value "glob:" then
        continue_with (replace_glob_prefix value)
      else if negb (hasMagic value) then Unchanged
      else continue_with value
  end.
End Plugin.

End V2.

(* ------------------------------------------------------------------ *)
(** ** Concrete inputs *)

(** minimatch's set for [*.txt] and for [*.foo.txt]. *)
Definition set_star_txt : list (list mm_part) := [[MRe "(?!\.)(?=.)[^/]*?\.txt"]].
Definition set_star_foo_txt : list (list mm_part) := [[MRe "(?!\.)(?=.)[^/]*?\.foo\.txt"]].
Definition found_foo_txt : list string := ["a.foo.txt"; "b.foo.txt"].

(** The part of a compiled expression after the capture group. *)
Definition ext_tail (extensionExpression : list string) : string :=
  match extensionExpression with
  | [] => ""
  | _ => V1.joinExpression extensionExpression
  end.

(** The pattern both visitors work on after removing a [glob:] prefix. *)
Definition stripped_pattern (source : string) : string :=
  if startsWith source "glob:" then replace_glob_prefix source else source.

(** minimatch's sets for [./*.txt] and [./*/*.txt]. *)
Definition mm_star : string := "(?!\.)(?=.)[^/]*?".
Definition mm_star_txt : string := "(?!\.)(?=.)[^/]*?\.txt".
Definition set_dot_star_txt : list (list mm_part) := [[MStr "."; MRe mm_star_txt]].
Definition set_dot_star_star_txt : list (list mm_part) :=
  [[MStr "."; MRe mm_star; MRe mm_star_txt]].

(** A glob collaborator answering every call with the same matches. *)
Definition glob_const (found : list string) (set : list (list mm_part))
  : string -> string -> list string * list (list mm_part) :=
  fun _ _ => (found, set).

Definition glob_const2 (found : list string) (set : list (list mm_part))
  : string -> string -> list string * list (list mm_part) * V2.mm_options :=
  fun _ _ => (found, set, V2.mk_mm_options false false false).

Definition importer : string := "/r/index.js".

(** [common-extname] and [common-path-prefix] on the matches below. *)
Definition cext_txt : list string -> string := fun _ => ".txt".
Definition cpp_dot : list string -> string := fun _ => "./".

Definition found_collision_first_null : list string :=
  ["./-.txt"; "./foo-bar.txt"; "./fooBar.txt"].
Definition found_collision_then_null : list string :=
  ["./a/foo-bar.txt"; "./a/fooBar.txt"; "./b/-.txt"].
Definition found_collision : list string := ["./foo-bar.txt"; "./fooBar.txt"].
Definition found_null : list string := ["./a/c.txt"; "./b/-.txt"].

(** The sub-capture [f.match(regexp)[index + 1]] read by the indexed
    branch of version 2, after clamping (src/src/index.js 35-40). *)
Definition indexed_capture (regexp : jsregexp) (ps : list mm_part) (index : Z) (f : string)
  : option string :=
  match str_match f regexp with
  | None => None
  | Some m => group m (Z.to_nat (V2.clamp_index ps index + 1))
  end.

(** minimatch's parts for [./*/*.txt] and two matches of it. *)
Definition ps_dot_star_star_txt : list mm_part := [MStr "."; MRe mm_star; MRe mm_star_txt].
Definition found_indexed : list string := ["./a/one.foo.txt"; "./b/two.foo.txt"].
Definition mm_defaults : V2.mm_options := V2.mk_mm_options false false false.

(** A segment of a normalised absolute path: not empty, not [.] or [..],
    and free of the separator. *)
Definition no_sep (x : string) : Prop := ~ In fileSeparator (list_ascii_of_string x).
Definition seg_ok (x : string) : Prop := x <> "" /\ x <> "." /\ x <> ".." /\ no_sep x.

(** ** The syntax of a compiled expression

    A left-to-right scan of a [RegExp] source tracking what its structure
    depends on: whether the previous character escapes this one, whether we
    are inside a class [[...]], whether a [(] has just been opened (and then
    whether it is [(?], [(?<]), the depth of open parentheses and the number
    of capturing groups (ECMAScript's left-capturing parentheses: [(] not
    followed by [?], and the named [(?<name>]).  [None] is an unbalanced
    [)] or an alternation [|] outside every parenthesis. *)
Inductive scan_mode := SNormal | SEsc | SCls | SClsEsc | SOpen | SOpenQ | SOpenQLt.

Record scan_state := mk_scan { sc_mode : scan_mode; sc_depth : nat; sc_groups : nat }.

Definition scan_init : scan_state := mk_scan SNormal 0 0.

Definition step_normal (d g : nat) (c : ascii) : option scan_state :=
  if Ascii.eqb c "\" then Some (mk_scan SEsc d g)
  else if Ascii.eqb c "[" then Some (mk_scan SCls d g)
  else if Ascii.eqb c "(" then Some (mk_scan SOpen (S d) g)
  else if Ascii.eqb c ")" then
    match d with 0 => None | S d' => Some (mk_scan SNormal d' g) end
  else if Ascii.eqb c "|" then
    match d with 0 => None | S _ => Some (mk_scan SNormal d g) end
  else Some (mk_scan SNormal d g).

Definition scan_step (st : scan_state) (c : ascii) : option scan_state :=
  let d := sc_depth st in
  let g := sc_groups st in
  match sc_mode st with
  | SNormal => step_normal d g c
  | SEsc => Some (mk_scan SNormal d g)
  | SCls =>
      if Ascii.eqb c "\" then Some (mk_scan SClsEsc d g)
      else if Ascii.eqb c "]" then Some (mk_scan SNormal d g)
      else Some (mk_scan SCls d g)
  | SClsEsc => Some (mk_scan SCls d g)
  | SOpen =>
      if Ascii.eqb c "?" then Some (mk_scan SOpenQ d g)
      else step_normal d (S g) c
  | SOpenQ =>
      if Ascii.eqb c "<" then Some (mk_scan SOpenQLt d g)
      else Some (mk_scan SNormal d g)
  | SOpenQLt =>
      if Ascii.eqb c "=" || Ascii.eqb c "!" then Some (mk_scan SNormal d g)
      else Some (mk_scan SNormal d (S g))
  end.

Fixpoint scan (st : scan_state) (s : string) : option scan_state :=
  match s with
  | EmptyString => Some st
  | String c s' =>
      match scan_step st c with
      | None => None
      | Some st' => scan st' s'
      end
  end.

(** Reading [s] from state [st]: somewhere an escaped backslash is directly
    followed by an unescaped [.] (the escaped character is a backslash and
    the next one is a dot). *)
Fixpoint esc_bs_dot (st : scan_state) (s : string) : bool :=
  match s with
  | EmptyString => false
  | String c s' =>
      match sc_mode st with
      | SEsc => Ascii.eqb c "\" && startsWith s' "."
      | _ => false
      end
      || match scan_step st c with
         | None => false
         | Some st' => esc_bs_dot st' s'
         end
  end.

(** The shape of minimatch's parts the V1 compiler is written for: literal
    segments are any string, and [RegExp] sources are balanced, have no
    capturing group and no alternation outside parentheses, do not start
    with a quantifier [?] and never have an escaped backslash directly
    followed by [.]. *)
Definition part_ok (p : mm_part) : Prop :=
  match p with
  | MStr _ => True
  | MRe src => scan scan_init src = Some scan_init /\ startsWith src "?" = false
               /\ esc_bs_dot scan_init src = false
  | MGlobstar => True
  end.

(** A fragment that behaves like nothing at all, wherever it is put. *)
Definition piece_ok (p : string) : Prop :=
  startsWith p "?" = false /\ scan scan_init p = Some scan_init.

(** Outside any escape or class, with [d] open parentheses and [g] groups,
    possibly just after a [(] whose kind depends on the next character. *)
Definition norm_like (st : scan_state) (d g : nat) : Prop :=
  st = mk_scan SNormal d g \/ exists g', g = S g' /\ st = mk_scan SOpen d g'.

(** A [(] is pending only inside a parenthesis. *)
Definition open_ok (st : scan_state) : Prop :=
  match sc_mode st with
  | SOpen | SOpenQ | SOpenQLt => 1 <= sc_depth st
  | _ => True
  end.

(** An element of [flattenSet]'s result made of fragments that behave like
    nothing, the alternatives of an array never having an escaped backslash
    directly followed by [.]. *)
Definition flat_ok (fl : V1.flat) : Prop :=
  match fl with
  | V1.FStr s => piece_ok s
  | V1.FArr xs => Forall (fun x => piece_ok x /\ esc_bs_dot scan_init x = false) xs
  end.

(** Before segment [k] of the joined expression, with the capture opened
    at segment [captureStart] and closed after segment [captureStop]: the
    number of open parentheses and the number of groups opened. *)
Definition paren_depth (captureStart captureStop k : nat) : nat :=
  if Nat.ltb captureStart k && Nat.leb k captureStop then 1 else 0.
Definition paren_groups (captureStart k : nat) : nat :=
  if Nat.ltb captureStart k then 1 else 0.

(** A specifier the loop gets past: a named import with a matching member,
    or a namespace import. *)
Definition spec_resolves (members : list member) (sp : specifier) : Prop :=
  match sp with
  | ImportSpecifier importName _ => find_member importName members <> None
  | ImportDefaultSpecifier _ => False
  | ImportNamespaceSpecifier _ => True
  end.

(** Matches listed out of name order. *)
Definition found_unsorted : list string := ["./a-c/z.txt"; "./a/b.txt"].

(** The local bindings a rewritten statement declares. *)
Definition stmt_binds (s : stmt) : list string :=
  match s with
  | SImportDefault local _ => [local]
  | SNamespaceConst local _ => [local]
  | SImportBare _ | SFreeze _ => []
  end.

(** Two matches of [./*.txt] and the members both versions build for them
    (imported from [/r/index.js]). *)
Definition found_ab : list string := ["./a.txt"; "./b.txt"].
Definition members_ab : list member :=
  [mk_member "./a.txt" "./a.txt" (Some "a"); mk_member "./b.txt" "./b.txt" (Some "b")].

(** No named import has a [$digits] name. *)
Definition no_indexed_import (specs : list specifier) : Prop :=
  forall imported l, In (ImportSpecifier imported l) specs -> V2.indexed_name imported = None.

(** The regex that reads a string literally, character by character. *)
Fixpoint lit_regex (s : string) : regex :=
  match s with
  | EmptyString => REps
  | String c s' => RSeq (RChar c) (lit_regex s')
  end.

(** The characters the parser above reads as syntax at the start of an atom
    or as a quantifier. *)
Definition regex_specials : list ascii :=
  ["("; ")"; "["; "\"; "."; "^"; "$"; "|"; "*"; "+"; "?"]%char.

(** No quantifier follows. *)
Definition quantify_free (x : string) : Prop := forall r, quantify r x = (r, x).

(** The path an emitted statement imports, if it is an import. *)
Definition stmt_source (s : stmt) : option string :=
  match s with
  | SImportDefault _ src | SImportBare src => Some src
  | SNamespaceConst _ _ | SFreeze _ => None
  end.

(* ================================================================== *)
(** * Theorems *)

Lemma memberify_loop_spec idf prw pieces : forall index ids,
  memberify_loop idf prw index pieces ids =
  option_map (fun l => join "$" (app ids l)) (sanitize_pieces idf prw index pieces).
Proof.
  induction pieces as [|p ps IH]; intros index ids; simpl.
  - rewrite app_nil_r. reflexivity.
  - destruct (idf p _) as [id|]; [|reflexivity].
    rewrite IH. destruct (sanitize_pieces idf prw (S index) ps); simpl; [|reflexivity].
    rewrite <- app_assoc. reflexivity.
Qed.

Lemma split_join c s : join (String c EmptyString) (split c s) = s.
Proof.
  induction s as [|a s IH]; simpl; [reflexivity|].
  destruct (Ascii.eqb a c) eqn:E.
  - apply Ascii.eqb_eq in E; subst.
    destruct (split c s) as [|x xs] eqn:Hs; simpl in *; [now subst|].
    rewrite IH. reflexivity.
  - destruct (split c s) as [|x xs] eqn:Hs; simpl in *; [now subst|].
    destruct xs; simpl in *; now rewrite IH.
Qed.

(** C1: [memberify] splits the subpath on the path separator (the pieces
    re-joined by the separator give the subpath back), passes
    [prefixReservedWords] exactly when there is a single piece,
    [prefixInvalidIdentifiers] exactly for piece 0, and joins the sanitised
    pieces with [$]: it coincides with [memberify_spec] for every
    [identifierfy] and every subpath. *)
Theorem memberify_refines_spec :
  forall (identifierfy : string -> id_options -> option string) (subpath : string),
    join (String fileSeparator EmptyString) (split fileSeparator subpath) = subpath /\
    memberify identifierfy subpath = memberify_spec identifierfy subpath.
Proof.
  intros idf s. split; [apply split_join|].
  unfold memberify, memberify_spec. rewrite memberify_loop_spec. reflexivity.
Qed.



Lemma str_app_assoc (a b c : string) : (a ++ b) ++ c = a ++ (b ++ c).
Proof. induction a; simpl; [reflexivity|now rewrite IHa]. Qed.

Lemma str_app_nil_r (a : string) : a ++ "" = a.
Proof. induction a; simpl; [reflexivity|now rewrite IHa]. Qed.

Lemma ext_split_app s : fst (ext_split s) ++ snd (ext_split s) = s.
Proof.
  induction s as [|c s IH]; simpl.
  - reflexivity.
  - destruct (ext_ok (String c s)); [reflexivity|].
    destruct (ext_split s) as [p e]. simpl in *. now rewrite IH.
Qed.

Lemma ext_split_ok s : ext_ok (snd (ext_split s)) = true.
Proof.
  induction s as [|c s IH]; simpl.
  - reflexivity.
  - destruct (ext_ok (String c s)) eqn:E; [exact E|].
    destruct (ext_split s) as [p e]. exact IH.
Qed.

Lemma splitExtensions_ok xs :
  Forall (fun e => ext_ok e = true /\ e <> "") (snd (V1.splitExtensions xs)).
Proof.
  induction xs as [|x xs IH]; simpl; [constructor|].
  destruct (V1.splitExtensions xs) as [fs es]. simpl in IH.
  pose proof (ext_split_ok x) as Hok.
  destruct (ext_split x) as [f e]. simpl in Hok.
  destruct e; simpl; [exact IH|].
  constructor; [split; [exact Hok|discriminate]|exact IH].
Qed.

Lemma add_parens_from_app i cs ce l x :
  V1.add_parens_from i cs ce (app l [x]) =
  app (V1.add_parens_from i cs ce l)
   [(if Nat.eqb (i + List.length l) cs then "(" else "") ++ x
    ++ (if Nat.eqb (i + List.length l) ce then ")" else "")].
Proof.
  revert i. induction l as [|e l IH]; intro i; simpl.
  - now rewrite Nat.add_0_r.
  - f_equal. rewrite IH. now rewrite Nat.add_succ_r.
Qed.

Lemma join_snoc sep l x :
  join sep (app l [x]) = match l with [] => x | _ => join sep l ++ sep ++ x end.
Proof.
  induction l as [|a l IH]; [reflexivity|].
  simpl. rewrite IH. destruct l as [|b l]; [reflexivity|].
  simpl. destruct (app l [x]) eqn:E; [destruct l; discriminate|].
  now rewrite !str_app_assoc.
Qed.

(** The general shape behind C2: when the last position of the flattened
    set is the end of the dynamic span, the extensions split off its
    alternatives come after the closing parenthesis of the capture. *)
Lemma makeSubpathExpression_extension_outside set exprs cs xs :
  V1.flattenSet set = Some exprs ->
  findIndex V1.isArray exprs = Some cs ->
  findLastIndex V1.isArray exprs = Some (List.length exprs - 1) ->
  nth_error exprs (List.length exprs - 1) = Some (V1.FArr xs) ->
  exists P,
    V1.makeSubpathExpression set =
    Some ("^" ++ P ++ V1.joinExpression (uniq (fst (V1.splitExtensions xs))) ++ ")"
          ++ ext_tail (uniq (snd (V1.splitExtensions xs))) ++ "$").
Proof.
  intros Hf Hs He Hn. unfold V1.makeSubpathExpression.
  rewrite Hf, Hs, He, Nat.eqb_refl, Hn.
  destruct (V1.splitExtensions xs) as [fs es]. simpl.
  unfold V1.add_parens. rewrite map_app. simpl. rewrite add_parens_from_app.
  assert (Hlen : List.length (map V1.join_flat (firstn (List.length exprs - 1) exprs))
                 = List.length exprs - 1).
  { rewrite length_map, length_firstn. lia. }
  rewrite Hlen. simpl. rewrite Nat.eqb_refl, join_snoc.
  set (pre := V1.add_parens_from 0 cs (List.length exprs - 1)
                (map V1.join_flat (firstn (List.length exprs - 1) exprs))).
  set (op := if Nat.eqb (List.length exprs - 1) cs then "(" else "").
  exists (match pre with [] => op | _ => join "/" pre ++ "/" ++ op end).
  f_equal. f_equal. unfold ext_tail.
  destruct (uniq es) as [|e es'] eqn:Ees; destruct pre as [|p0 pre'];
    [| set (J := join "/" (p0 :: pre')) | | set (J := join "/" (p0 :: pre'))];
    rewrite ?str_app_assoc; reflexivity.
Qed.

(** C2: when the end of the dynamic span is the last segment of the pattern,
    the trailing extensions of its alternatives (nonempty words of
    dot-prefixed alphanumeric groups) are split off and matched after the
    capture group; on the matches [a.foo.txt] and [b.foo.txt] the pattern
    [*.txt] gives the members [aFoo] and [bFoo], and [*.foo.txt] gives [a]
    and [b]. *)
Theorem trailing_extension_excluded_from_capture :
  (forall set exprs cs xs,
     V1.flattenSet set = Some exprs ->
     findIndex V1.isArray exprs = Some cs ->
     findLastIndex V1.isArray exprs = Some (List.length exprs - 1) ->
     nth_error exprs (List.length exprs - 1) = Some (V1.FArr xs) ->
     Forall (fun e => ext_ok e = true /\ e <> "") (snd (V1.splitExtensions xs)) /\
     exists P,
       V1.makeSubpathExpression set =
       Some ("^" ++ P ++ V1.joinExpression (uniq (fst (V1.splitExtensions xs))) ++ ")"
             ++ ext_tail (uniq (snd (V1.splitExtensions xs))) ++ "$")) /\
  V1.makeSubpathExpression set_star_txt = Some "^((?!\.)(?=.)[^/]*?)\.txt$" /\
  option_map (map m_name)
    (V1.generateMembers identifierfy_model [] found_foo_txt set_star_txt "/")
  = Some [Some "aFoo"; Some "bFoo"] /\
  V1.makeSubpathExpression set_star_foo_txt = Some "^((?!\.)(?=.)[^/]*?)\.foo\.txt$" /\
  option_map (map m_name)
    (V1.generateMembers identifierfy_model [] found_foo_txt set_star_foo_txt "/")
  = Some [Some "a"; Some "b"].
Proof.
  split; [|vm_compute; repeat split; reflexivity].
  intros set exprs cs xs Hf Hs He Hn. split; [apply splitExtensions_ok|].
  eapply makeSubpathExpression_extension_outside; eassumption.
Qed.

Lemma trailing_extension_excluded_from_capture_witness :
  Forall (fun e => ext_ok e = true /\ e <> "")
    (snd (V1.splitExtensions ["(?!\.)(?=.)[^/]*?\.txt"])) /\
  exists P,
    V1.makeSubpathExpression set_dot_star_star_txt =
    Some ("^" ++ P
          ++ V1.joinExpression
               (uniq (fst (V1.splitExtensions ["(?!\.)(?=.)[^/]*?\.txt"])))
          ++ ")"
          ++ ext_tail
               (uniq (snd (V1.splitExtensions ["(?!\.)(?=.)[^/]*?\.txt"])))
          ++ "$").
Proof.
  apply (proj1 trailing_extension_excluded_from_capture set_dot_star_star_txt
           [V1.FStr "\."; V1.FArr ["(?!\.)(?=.)[^/]*?"]; V1.FArr ["(?!\.)(?=.)[^/]*?\.txt"]]
           1 ["(?!\.)(?=.)[^/]*?\.txt"]);
    vm_compute; reflexivity.
Defined.

(** ** The visitors up to the member check *)

Lemma V1_ImportDeclaration_members idf pcwd hm gs specs source filename found set members :
  hm source = true ->
  hasImportDefaultSpecifier specs = false ->
  startsWith (stripped_pattern source) "." = true ->
  gs (stripped_pattern source) (path_dirname filename) = (found, set) ->
  V1.generateMembers idf pcwd found set (path_dirname filename) = Some members ->
  V1.ImportDeclaration idf pcwd hm gs specs source filename =
  match check_members [] members with
  | Some msg => Failed msg
  | None =>
      match specs with
      | _ :: _ => V1.replace_specifiers members specs []
      | [] => Replaced (map (fun m => SImportBare (m_relative m)) members)
      end
  end.
Proof.
  intros Hm Hd Hr Hg Hgm. unfold V1.ImportDeclaration.
  rewrite Hm. simpl. fold (stripped_pattern source). rewrite Hd, Hr. simpl.
  rewrite Hg, Hgm. reflexivity.
Qed.

Lemma V2_ImportDeclaration_members idf pcwd hm gs cext cpp specs value filename
      found set options members :
  (startsWith value "glob:" = true \/ hm value = true) ->
  hasImportDefaultSpecifier specs = false ->
  stripped_pattern value <> "" ->
  startsWith (stripped_pattern value) "/" = false ->
  (Z.leb 0 (V2.indexFromImportSpecifier specs) && Nat.ltb 1 (List.length specs))%bool = false ->
  gs (stripped_pattern value) (path_dirname filename) = (found, set, options) ->
  V2.generateMembers idf pcwd cext cpp found set options (path_dirname filename)
    (V2.indexFromImportSpecifier specs) = Some members ->
  V2.ImportDeclaration idf pcwd hm gs cext cpp specs (Some value) filename =
  match check_members [] members with
  | Some msg => Failed msg
  | None =>
      match specs with
      | [] => Replaced (map (fun m => SImportBare (m_relative m)) members)
      | _ =>
          match V2.replace_specifiers (V2.indexFromImportSpecifier specs) members specs with
          | inl msg => Failed msg
          | inr sts => Replaced sts
          end
      end
  end.
Proof.
  intros Hv Hd Hne Ha Hix Hg Hgm. unfold V2.ImportDeclaration.
  unfold stripped_pattern in *.
  destruct (startsWith value "glob:") eqn:Eg.
  - rewrite Hd. apply String.eqb_neq in Hne. rewrite Hne, Ha, Hix, Hg, Hgm. reflexivity.
  - destruct Hv as [Hv|Hv]; [discriminate|]. rewrite Hv. simpl.
    rewrite Hd. apply String.eqb_neq in Hne. rewrite Hne, Ha, Hix, Hg, Hgm. reflexivity.
Qed.

(** ** The member check *)

Lemma check_members_prefix pre : forall rest u,
  Forall (fun m => m_name m <> None) pre ->
  NoDup (map m_name pre) ->
  (forall n, In (Some n) (map m_name pre) -> ~ In n u) ->
  exists u',
    (forall n, In n u' <-> In n u \/ In (Some n) (map m_name pre)) /\
    check_members u (pre ++ rest)%list = check_members u' rest.
Proof.
  induction pre as [|m pre IH]; intros rest u Hnn Hnd Hfresh.
  - exists u. split; [simpl; tauto|reflexivity].
  - inversion Hnn as [|? ? Hm Hnn']; subst. inversion Hnd as [|? ? Hnotin Hnd']; subst.
    destruct (m_name m) as [n|] eqn:En; [|contradiction].
    simpl. rewrite En.
    assert (Hn : existsb (String.eqb n) u = false).
    { apply Bool.not_true_iff_false. intro Hx. apply existsb_exists in Hx.
      destruct Hx as [x [Hx Hxe]]. apply String.eqb_eq in Hxe. subst x.
      apply (Hfresh n); [simpl; left; congruence|exact Hx]. }
    rewrite Hn.
    destruct (IH rest (n :: u) Hnn' Hnd') as [u' [Hu' Hc]].
    { intros k Hk [Hkn|Hku].
      - subst k. apply Hnotin. exact Hk.
      - apply (Hfresh k); [simpl; now right|exact Hku]. }
    exists u'. split; [|exact Hc].
    intro k. rewrite Hu'. simpl. split.
    + intros [[Hk|Hk]|Hk]; [subst; right; left; reflexivity|left; exact Hk|right; right; exact Hk].
    + intros [Hk|[Hk|Hk]]; [left; right; exact Hk|left; left; congruence|right; exact Hk].
Qed.

Lemma check_members_collision pre m post n :
  Forall (fun x => m_name x <> None) pre ->
  NoDup (map m_name pre) ->
  m_name m = Some n ->
  In (Some n) (map m_name pre) ->
  check_members [] (pre ++ m :: post)%list = Some ("Found colliding members '" ++ n ++ "'").
Proof.
  intros Hnn Hnd Hm Hin.
  destruct (check_members_prefix pre (m :: post) [] Hnn Hnd) as [u' [Hu' Hc]];
    [intros; simpl; tauto|].
  rewrite Hc. simpl. rewrite Hm.
  assert (Hx : existsb (String.eqb n) u' = true).
  { apply existsb_exists. exists n. split; [apply Hu'; now right|apply String.eqb_refl]. }
  now rewrite Hx.
Qed.

Lemma check_members_null pre m post :
  Forall (fun x => m_name x <> None) pre ->
  NoDup (map m_name pre) ->
  m_name m = None ->
  check_members [] (pre ++ m :: post)%list =
  Some ("Could not generate a valid identifier for '" ++ m_file m ++ "'").
Proof.
  intros Hnn Hnd Hm.
  destruct (check_members_prefix pre (m :: post) [] Hnn Hnd) as [u' [Hu' Hc]];
    [intros; simpl; tauto|].
  rewrite Hc. simpl. now rewrite Hm.
Qed.

(** C3 (as amended): the member check reports the first failure in match
    order.  When every member before [m] has a non-null identifier, these
    identifiers are distinct, and [m]'s identifier [n] repeats one of them,
    both versions fail with ["Found colliding members '<n>'"] and rewrite
    nothing. *)
Theorem colliding_members_reported :
  forall pre m post n,
    Forall (fun x => m_name x <> None) pre ->
    NoDup (map m_name pre) ->
    m_name m = Some n ->
    In (Some n) (map m_name pre) ->
    (forall idf pcwd hm gs specs source filename found set,
       hm source = true ->
       hasImportDefaultSpecifier specs = false ->
       startsWith (stripped_pattern source) "." = true ->
       gs (stripped_pattern source) (path_dirname filename) = (found, set) ->
       V1.generateMembers idf pcwd found set (path_dirname filename) = Some (pre ++ m :: post)%list ->
       V1.ImportDeclaration idf pcwd hm gs specs source filename
       = Failed ("Found colliding members '" ++ n ++ "'")) /\
    (forall idf pcwd hm gs cext cpp specs value filename found set options,
       (startsWith value "glob:" = true \/ hm value = true) ->
       hasImportDefaultSpecifier specs = false ->
       stripped_pattern value <> "" ->
       startsWith (stripped_pattern value) "/" = false ->
       (Z.leb 0 (V2.indexFromImportSpecifier specs) && Nat.ltb 1 (List.length specs))%bool = false ->
       gs (stripped_pattern value) (path_dirname filename) = (found, set, options) ->
       V2.generateMembers idf pcwd cext cpp found set options (path_dirname filename)
         (V2.indexFromImportSpecifier specs) = Some (pre ++ m :: post)%list ->
       V2.ImportDeclaration idf pcwd hm gs cext cpp specs (Some value) filename
       = Failed ("Found colliding members '" ++ n ++ "'")).
Proof.
  intros pre m post n Hnn Hnd Hm Hin.
  pose proof (check_members_collision pre m post n Hnn Hnd Hm Hin) as Hc.
  split.
  - intros. erewrite V1_ImportDeclaration_members by eassumption. now rewrite Hc.
  - intros. erewrite V2_ImportDeclaration_members by eassumption. now rewrite Hc.
Qed.

Lemma colliding_members_reported_witness :
  V1.ImportDeclaration identifierfy_model [] hasMagic_model
    (glob_const found_collision set_dot_star_txt) [] "./*.txt" importer
  = Failed "Found colliding members 'fooBar'" /\
  V2.ImportDeclaration identifierfy_model [] hasMagic_model
    (glob_const2 found_collision set_dot_star_txt) cext_txt cpp_dot [] (Some "./*.txt") importer
  = Failed "Found colliding members 'fooBar'".
Proof.
  pose proof (colliding_members_reported
                [mk_member "./foo-bar.txt" "./foo-bar.txt" (Some "fooBar")]
                (mk_member "./fooBar.txt" "./fooBar.txt" (Some "fooBar")) [] "fooBar")
    as H.
  destruct H as [H1 H2];
    [repeat constructor; discriminate|repeat constructor; simpl; tauto|reflexivity|simpl; tauto|].
  split.
  - apply (H1 identifierfy_model [] hasMagic_model (glob_const found_collision set_dot_star_txt)
             [] "./*.txt" importer found_collision set_dot_star_txt);
      vm_compute; reflexivity.
  - apply (H2 identifierfy_model [] hasMagic_model (glob_const2 found_collision set_dot_star_txt)
             cext_txt cpp_dot [] "./*.txt" importer found_collision set_dot_star_txt
             (V2.mk_mm_options false false false));
      vm_compute; try reflexivity; try discriminate; right; reflexivity.
Defined.

(** C3 as stated fails: with the matches [./-.txt], [./foo-bar.txt] and
    [./fooBar.txt] two paths derive [fooBar], yet the error names the
    path whose identifier is [null]. *)
Lemma colliding_members_claim_counterexample :
  option_map (map m_name)
    (V1.generateMembers identifierfy_model [] found_collision_first_null set_dot_star_txt "/r")
  = Some [None; Some "fooBar"; Some "fooBar"] /\
  V1.ImportDeclaration identifierfy_model [] hasMagic_model
    (glob_const found_collision_first_null set_dot_star_txt) [] "./*.txt" importer
  = Failed "Could not generate a valid identifier for './-.txt'".
Proof. vm_compute. split; reflexivity. Qed.

(** C4 (as amended): when every member before [m] has a non-null and
    distinct identifier and [m]'s derivation returns [null], both versions
    fail with ["Could not generate a valid identifier for '<m's path>'"] and
    rewrite nothing. *)
Theorem null_identifier_reported :
  forall pre m post,
    Forall (fun x => m_name x <> None) pre ->
    NoDup (map m_name pre) ->
    m_name m = None ->
    (forall idf pcwd hm gs specs source filename found set,
       hm source = true ->
       hasImportDefaultSpecifier specs = false ->
       startsWith (stripped_pattern source) "." = true ->
       gs (stripped_pattern source) (path_dirname filename) = (found, set) ->
       V1.generateMembers idf pcwd found set (path_dirname filename) = Some (pre ++ m :: post)%list ->
       V1.ImportDeclaration idf pcwd hm gs specs source filename
       = Failed ("Could not generate a valid identifier for '" ++ m_file m ++ "'")) /\
    (forall idf pcwd hm gs cext cpp specs value filename found set options,
       (startsWith value "glob:" = true \/ hm value = true) ->
       hasImportDefaultSpecifier specs = false ->
       stripped_pattern value <> "" ->
       startsWith (stripped_pattern value) "/" = false ->
       (Z.leb 0 (V2.indexFromImportSpecifier specs) && Nat.ltb 1 (List.length specs))%bool = false ->
       gs (stripped_pattern value) (path_dirname filename) = (found, set, options) ->
       V2.generateMembers idf pcwd cext cpp found set options (path_dirname filename)
         (V2.indexFromImportSpecifier specs) = Some (pre ++ m :: post)%list ->
       V2.ImportDeclaration idf pcwd hm gs cext cpp specs (Some value) filename
       = Failed ("Could not generate a valid identifier for '" ++ m_file m ++ "'")).
Proof.
  intros pre m post Hnn Hnd Hm.
  pose proof (check_members_null pre m post Hnn Hnd Hm) as Hc.
  split.
  - intros. erewrite V1_ImportDeclaration_members by eassumption. now rewrite Hc.
  - intros. erewrite V2_ImportDeclaration_members by eassumption. now rewrite Hc.
Qed.

Lemma null_identifier_reported_witness :
  V1.ImportDeclaration identifierfy_model [] hasMagic_model
    (glob_const found_null set_dot_star_star_txt) [] "./*/*.txt" importer
  = Failed "Could not generate a valid identifier for './b/-.txt'".
Proof.
  pose proof (null_identifier_reported
                [mk_member "./a/c.txt" "./a/c.txt" (Some "a$c")]
                (mk_member "./b/-.txt" "./b/-.txt" None) []) as H.
  destruct H as [H1 _];
    [repeat constructor; discriminate|repeat constructor; simpl; tauto|reflexivity|].
  apply (H1 identifierfy_model [] hasMagic_model (glob_const found_null set_dot_star_star_txt)
           [] "./*/*.txt" importer found_null set_dot_star_star_txt);
    vm_compute; reflexivity.
Defined.

(** C4 as stated fails: with the matches [./a/foo-bar.txt],
    [./a/fooBar.txt] and [./b/-.txt] the last derivation returns [null],
    yet the collision met first is reported. *)
Lemma null_identifier_claim_counterexample :
  option_map (map m_name)
    (V1.generateMembers identifierfy_model [] found_collision_then_null set_dot_star_star_txt "/r")
  = Some [Some "a$fooBar"; Some "a$fooBar"; None] /\
  V1.ImportDeclaration identifierfy_model [] hasMagic_model
    (glob_const found_collision_then_null set_dot_star_star_txt) [] "./*/*.txt" importer
  = Failed "Found colliding members 'a$fooBar'".
Proof. vm_compute. split; reflexivity. Qed.

(** ** Rejected and untouched sources *)

(** C7 (as amended): after the [glob:] prefix is removed, version 1 fails
    with ["Glob pattern must be relative, was '<pattern>'"] when the source
    has glob magic, no default specifier is imported and the pattern does not
    begin with ["."]; version 2 fails with it when the source begins with
    [glob:] or has magic, no default specifier is imported and the pattern is
    non-empty and begins with ["/"]. *)
Theorem relative_pattern_required :
  (forall idf pcwd hm gs specs source filename,
     hm source = true ->
     hasImportDefaultSpecifier specs = false ->
     startsWith (stripped_pattern source) "." = false ->
     V1.ImportDeclaration idf pcwd hm gs specs source filename
     = Failed ("Glob pattern must be relative, was '" ++ stripped_pattern source ++ "'")) /\
  (forall idf pcwd hm gs cext cpp specs value filename,
     (startsWith value "glob:" = true \/ hm value = true) ->
     hasImportDefaultSpecifier specs = false ->
     stripped_pattern value <> "" ->
     startsWith (stripped_pattern value) "/" = true ->
     V2.ImportDeclaration idf pcwd hm gs cext cpp specs (Some value) filename
     = Failed ("Glob pattern must be relative, was '" ++ stripped_pattern value ++ "'")).
Proof.
  split.
  - intros idf pcwd hm gs specs source filename Hm Hd Hr.
    unfold V1.ImportDeclaration. rewrite Hm. simpl.
    fold (stripped_pattern source). rewrite Hd, Hr. reflexivity.
  - intros idf pcwd hm gs cext cpp specs value filename Hv Hd Hne Ha.
    unfold V2.ImportDeclaration. unfold stripped_pattern in *.
    apply String.eqb_neq in Hne.
    destruct (startsWith value "glob:") eqn:Eg.
    + rewrite Hd, Hne, Ha. reflexivity.
    + destruct Hv as [Hv|Hv]; [discriminate|]. rewrite Hv. simpl.
      rewrite Hd, Hne, Ha. reflexivity.
Qed.

Lemma relative_pattern_required_witness :
  V1.ImportDeclaration identifierfy_model [] hasMagic_model
    (glob_const [] []) [] "glob:/folder/*" importer
  = Failed "Glob pattern must be relative, was '/folder/*'" /\
  V1.ImportDeclaration identifierfy_model [] hasMagic_model
    (glob_const [] []) [] "fixtures/*.txt" importer
  = Failed "Glob pattern must be relative, was 'fixtures/*.txt'" /\
  V2.ImportDeclaration identifierfy_model [] hasMagic_model
    (glob_const2 [] []) cext_txt cpp_dot [] (Some "glob:/folder") importer
  = Failed "Glob pattern must be relative, was '/folder'".
Proof.
  destruct relative_pattern_required as [H1 H2].
  split; [|split].
  - apply (H1 identifierfy_model [] hasMagic_model (glob_const [] []) [] "glob:/folder/*" importer);
      reflexivity.
  - apply (H1 identifierfy_model [] hasMagic_model (glob_const [] []) [] "fixtures/*.txt" importer);
      reflexivity.
  - apply (H2 identifierfy_model [] hasMagic_model (glob_const2 [] []) cext_txt cpp_dot []
             "glob:/folder" importer);
      vm_compute; [left; reflexivity|reflexivity|discriminate|reflexivity].
Defined.

(** C7 as stated fails: in version 1 an absolute pattern behind [glob:]
    without magic is reported as a missing pattern, and a default specifier
    is reported before the pattern is looked at. *)
Lemma relative_pattern_claim_counterexample :
  V1.ImportDeclaration identifierfy_model [] hasMagic_model
    (glob_const [] []) [] "glob:/root" importer
  = Failed "Missing glob pattern 'glob:/root'" /\
  V1.ImportDeclaration identifierfy_model [] hasMagic_model
    (glob_const [] []) [ImportDefaultSpecifier "foo"] "glob:/folder/*" importer
  = Failed "Cannot import the default member".
Proof. vm_compute. split; reflexivity. Qed.

(** C10: a source that neither begins with [glob:] nor has glob magic is
    left as it is by both versions. *)
Theorem plain_import_unchanged :
  forall idf pcwd hm gs gs2 cext cpp specs source filename,
    startsWith source "glob:" = false ->
    hm source = false ->
    V1.ImportDeclaration idf pcwd hm gs specs source filename = Unchanged /\
    V2.ImportDeclaration idf pcwd hm gs2 cext cpp specs (Some source) filename = Unchanged.
Proof.
  intros idf pcwd hm gs gs2 cext cpp specs source filename Hg Hm.
  split.
  - unfold V1.ImportDeclaration. rewrite Hm, Hg. reflexivity.
  - unfold V2.ImportDeclaration. rewrite Hg, Hm. reflexivity.
Qed.

Lemma plain_import_unchanged_witness :
  V1.ImportDeclaration identifierfy_model [] hasMagic_model
    (glob_const [] []) [ImportDefaultSpecifier "foo"] "./foo.js" importer = Unchanged /\
  V2.ImportDeclaration identifierfy_model [] hasMagic_model
    (glob_const2 [] []) cext_txt cpp_dot [ImportDefaultSpecifier "foo"] (Some "./foo.js") importer
  = Unchanged.
Proof.
  apply (plain_import_unchanged identifierfy_model [] hasMagic_model (glob_const [] [])
           (glob_const2 [] []) cext_txt cpp_dot [ImportDefaultSpecifier "foo"] "./foo.js" importer);
    reflexivity.
Defined.

(** ** Unmatched named imports *)

Lemma V1_replace_specifiers_unmatched members x l post : forall pre acc,
  Forall (spec_resolves members) pre ->
  find_member x members = None ->
  V1.replace_specifiers members (pre ++ ImportSpecifier x l :: post)%list acc
  = Failed (unmatched_import_msg x members).
Proof.
  induction pre as [|sp pre IH]; intros acc Hpre Hx.
  - simpl. now rewrite Hx.
  - inversion Hpre as [|? ? Hsp Hpre']; subst.
    destruct sp as [i l'|l'|l']; simpl in Hsp |- *.
    + destruct (find_member i members); [|contradiction]. now apply IH.
    + contradiction.
    + now apply IH.
Qed.

Lemma V2_replace_specifiers_unmatched index members x l post : forall pre,
  Z.lt index 0 ->
  Forall (spec_resolves members) pre ->
  find_member x members = None ->
  V2.replace_specifiers index members (pre ++ ImportSpecifier x l :: post)%list
  = inl (unmatched_import_msg x members).
Proof.
  assert (Hneg : forall i : Z, Z.lt i 0 -> Z.ltb i 0 = true) by (intros; lia).
  induction pre as [|sp pre IH]; intros Hi Hpre Hx.
  - simpl. rewrite (Hneg _ Hi), Hx. reflexivity.
  - inversion Hpre as [|? ? Hsp Hpre']; subst.
    destruct sp as [i l'|l'|l']; simpl in Hsp |- *.
    + rewrite (Hneg _ Hi). destruct (find_member i members); [|contradiction].
      now rewrite IH.
    + contradiction.
    + now rewrite IH.
Qed.

(** C8 (as amended): once the member check has passed, a named import [x]
    that matches no member, met after specifiers that all resolve, fails
    with ["Could not match import '<x>' to a module. Available members are
    '<names>'"], the names joined with ["', '"] in the order of the matches
    (not sorted); in version 2 this holds when no [$N] member is imported. *)
Theorem unmatched_import_reported :
  forall pre x l post members,
    check_members [] members = None ->
    Forall (spec_resolves members) pre ->
    find_member x members = None ->
    (forall idf pcwd hm gs source filename found set,
       hm source = true ->
       hasImportDefaultSpecifier (pre ++ ImportSpecifier x l :: post)%list = false ->
       startsWith (stripped_pattern source) "." = true ->
       gs (stripped_pattern source) (path_dirname filename) = (found, set) ->
       V1.generateMembers idf pcwd found set (path_dirname filename) = Some members ->
       V1.ImportDeclaration idf pcwd hm gs (pre ++ ImportSpecifier x l :: post)%list
         source filename
       = Failed ("Could not match import '" ++ x ++ "' to a module. Available members are '"
                 ++ join "', '" (map (fun m => js_str (m_name m)) members) ++ "'")) /\
    (forall idf pcwd hm gs cext cpp value filename found set options,
       let specs := (pre ++ ImportSpecifier x l :: post)%list in
       (startsWith value "glob:" = true \/ hm value = true) ->
       hasImportDefaultSpecifier specs = false ->
       stripped_pattern value <> "" ->
       startsWith (stripped_pattern value) "/" = false ->
       Z.lt (V2.indexFromImportSpecifier specs) 0 ->
       gs (stripped_pattern value) (path_dirname filename) = (found, set, options) ->
       V2.generateMembers idf pcwd cext cpp found set options (path_dirname filename)
         (V2.indexFromImportSpecifier specs) = Some members ->
       V2.ImportDeclaration idf pcwd hm gs cext cpp specs (Some value) filename
       = Failed ("Could not match import '" ++ x ++ "' to a module. Available members are '"
                 ++ join "', '" (map (fun m => js_str (m_name m)) members) ++ "'")).
Proof.
  intros pre x l post members Hc Hpre Hx. split.
  - intros. erewrite V1_ImportDeclaration_members by eassumption.
    rewrite Hc. destruct pre as [|sp pre].
    + simpl. now rewrite Hx.
    + exact (V1_replace_specifiers_unmatched members x l post (sp :: pre) [] Hpre Hx).
  - intros idf pcwd hm gs cext cpp value filename found set options specs
      Hv Hd Hne Ha Hi Hg Hgm.
    erewrite V2_ImportDeclaration_members; try eassumption.
    + rewrite Hc. subst specs.
      rewrite V2_replace_specifiers_unmatched by assumption.
      destruct pre; reflexivity.
    + apply Bool.andb_false_intro1. apply Z.leb_gt. exact Hi.
Qed.

Lemma unmatched_import_reported_witness :
  V1.ImportDeclaration identifierfy_model [] hasMagic_model
    (glob_const found_unsorted set_dot_star_star_txt) [ImportSpecifier "q" "q"] "./*/*.txt" importer
  = Failed "Could not match import 'q' to a module. Available members are 'aC$z', 'a$b'" /\
  V2.ImportDeclaration identifierfy_model [] hasMagic_model
    (glob_const2 found_unsorted set_dot_star_star_txt) cext_txt cpp_dot
    [ImportSpecifier "q" "q"] (Some "./*/*.txt") importer
  = Failed "Could not match import 'q' to a module. Available members are 'aC$z', 'a$b'".
Proof.
  destruct (unmatched_import_reported [] "q" "q" []
              [mk_member "./a-c/z.txt" "./a-c/z.txt" (Some "aC$z");
               mk_member "./a/b.txt" "./a/b.txt" (Some "a$b")])
    as [H1 H2]; [reflexivity|constructor|reflexivity|].
  split.
  - apply (H1 identifierfy_model [] hasMagic_model
             (glob_const found_unsorted set_dot_star_star_txt) "./*/*.txt" importer
             found_unsorted set_dot_star_star_txt); vm_compute; reflexivity.
  - apply (H2 identifierfy_model [] hasMagic_model
             (glob_const2 found_unsorted set_dot_star_star_txt) cext_txt cpp_dot
             "./*/*.txt" importer found_unsorted set_dot_star_star_txt
             (V2.mk_mm_options false false false));
      vm_compute; try reflexivity; try discriminate; try (right; reflexivity); try lia.
Defined.

(** C8 as stated fails: the member names are listed in match order;
    sorted, ['a$b'] would come before ['aC$z']. *)
Lemma unmatched_import_claim_counterexample :
  V1.ImportDeclaration identifierfy_model [] hasMagic_model
    (glob_const found_unsorted set_dot_star_star_txt) [ImportSpecifier "q" "q"] "./*/*.txt" importer
  = Failed "Could not match import 'q' to a module. Available members are 'aC$z', 'a$b'" /\
  Ascii.ltb "$" "C" = true.
Proof. vm_compute. split; reflexivity. Qed.

(** ** Indexed members *)

(** C6: in the indexed branch of version 2 an index beyond the last dynamic
    part gives the same members as the last index; and when the clamped index
    is the file position, each sub-capture has the common extension sliced
    off before its identifier is derived. *)
Theorem indexed_selection_clamped :
  (forall idf pcwd cext found ps options cwd N,
     Z.lt (V2.last_index ps) N ->
     V2.generateMembers_indexed idf pcwd cext found ps options cwd N
     = V2.generateMembers_indexed idf pcwd cext found ps options cwd (V2.last_index ps)) /\
  (forall idf pcwd cext found ps options cwd index,
     V2.fileIndex ps = Some (V2.clamp_index ps index) ->
     V2.generateMembers_indexed idf pcwd cext found ps options cwd index
     = match new_RegExp (V2.indexed_source options ps) (V2.indexed_flags options) with
       | None => None
       | Some regexp =>
           map_throw
             (fun f =>
                match indexed_capture regexp ps index f with
                | None => None
                | Some p =>
                    Some (mk_member f (rp pcwd cwd f)
                            (memberify idf
                               (js_slice p 0 (Z.of_nat (String.length p)
                                              - Z.of_nat (String.length (cext found))))))
                end) found
       end).
Proof.
  split.
  - intros idf pcwd cext found ps options cwd N HN.
    assert (H1 : V2.clamp_index ps N = V2.last_index ps).
    { unfold V2.clamp_index. replace (Z.gtb N (V2.last_index ps)) with true by lia.
      reflexivity. }
    assert (H2 : V2.clamp_index ps (V2.last_index ps) = V2.last_index ps).
    { unfold V2.clamp_index. rewrite Z.gtb_ltb, Z.ltb_irrefl. reflexivity. }
    unfold V2.generateMembers_indexed. rewrite H1, H2. reflexivity.
  - intros idf pcwd cext found ps options cwd index Hfi.
    unfold V2.generateMembers_indexed. rewrite Hfi, Z.eqb_refl.
    destruct (new_RegExp _ _); reflexivity.
Qed.

Lemma indexed_selection_clamped_witness :
  V2.generateMembers_indexed identifierfy_model [] cext_txt found_indexed
    ps_dot_star_star_txt mm_defaults "/r" 7
  = V2.generateMembers_indexed identifierfy_model [] cext_txt found_indexed
      ps_dot_star_star_txt mm_defaults "/r" 1 /\
  V2.generateMembers_indexed identifierfy_model [] cext_txt found_indexed
    ps_dot_star_star_txt mm_defaults "/r" 7
  = match new_RegExp (V2.indexed_source mm_defaults ps_dot_star_star_txt)
                     (V2.indexed_flags mm_defaults) with
    | None => None
    | Some regexp =>
        map_throw
          (fun f =>
             match indexed_capture regexp ps_dot_star_star_txt 7 f with
             | None => None
             | Some p =>
                 Some (mk_member f (rp [] "/r" f)
                         (memberify identifierfy_model
                            (js_slice p 0 (Z.of_nat (String.length p)
                                           - Z.of_nat (String.length (cext_txt found_indexed))))))
             end) found_indexed
    end /\
  option_map (map m_name)
    (V2.generateMembers_indexed identifierfy_model [] cext_txt found_indexed
       ps_dot_star_star_txt mm_defaults "/r" 7)
  = Some [Some "oneFoo"; Some "twoFoo"].
Proof.
  split; [|split].
  - apply (proj1 indexed_selection_clamped); vm_compute; reflexivity.
  - apply (proj2 indexed_selection_clamped); vm_compute; reflexivity.
  - vm_compute; reflexivity.
Defined.

(** ** Relative paths *)

Lemma split_no_sep x : no_sep x -> split fileSeparator x = [x].
Proof.
  unfold no_sep. induction x as [|a x IH]; intros H; [reflexivity|].
  simpl in *. rewrite IH by tauto.
  destruct (Ascii.eqb a fileSeparator) eqn:E; [|reflexivity].
  apply Ascii.eqb_eq in E. tauto.
Qed.

Lemma split_app_sep x s :
  no_sep x -> split fileSeparator (x ++ String fileSeparator s) = x :: split fileSeparator s.
Proof.
  unfold no_sep. induction x as [|a x IH]; intros H.
  - reflexivity.
  - simpl in *. rewrite IH by tauto.
    destruct (Ascii.eqb a fileSeparator) eqn:E; [|reflexivity].
    apply Ascii.eqb_eq in E. tauto.
Qed.

Lemma split_join_inv l :
  l <> [] -> Forall no_sep l ->
  split fileSeparator (join (String fileSeparator EmptyString) l) = l.
Proof.
  induction l as [|x l IH]; intros Hne Hl; [congruence|].
  inversion Hl as [|? ? Hx Hl']; subst.
  destruct l as [|y l].
  - simpl. now apply split_no_sep.
  - change (join (String fileSeparator EmptyString) (x :: y :: l))
      with (x ++ String fileSeparator (join (String fileSeparator EmptyString) (y :: l))).
    rewrite split_app_sep by assumption. f_equal. apply IH; [discriminate|assumption].
Qed.

Lemma split_no_sep_all s : Forall no_sep (split fileSeparator s).
Proof.
  unfold no_sep. induction s as [|a s IH]; simpl.
  - repeat constructor. simpl. tauto.
  - destruct (Ascii.eqb a fileSeparator) eqn:E.
    + constructor; [simpl; tauto|exact IH].
    + destruct (split fileSeparator s) as [|x xs]; [repeat constructor; simpl|].
      * apply Ascii.eqb_neq in E. intuition.
      * inversion IH; subst. constructor; [|assumption].
        simpl. apply Ascii.eqb_neq in E. intuition.
Qed.

Lemma norm_segs_app acc a b : norm_segs acc (app a b) = norm_segs (norm_segs acc a) b.
Proof.
  revert acc. induction a as [|x a IH]; intros acc; [reflexivity|].
  simpl. destruct (String.eqb x "" || String.eqb x ".")%bool; [apply IH|].
  destruct (String.eqb x ".."); apply IH.
Qed.

Lemma norm_segs_ok acc segs :
  Forall seg_ok acc -> Forall no_sep segs -> Forall seg_ok (norm_segs acc segs).
Proof.
  revert acc. induction segs as [|x segs IH]; intros acc Ha Hs; [exact Ha|].
  inversion Hs as [|? ? Hx Hs']; subst. simpl.
  destruct (String.eqb x "") eqn:E1; [apply IH; assumption|].
  destruct (String.eqb x ".") eqn:E2; simpl; [apply IH; assumption|].
  destruct (String.eqb x "..") eqn:E3.
  - apply IH; [|assumption]. destruct acc; simpl; [constructor|now inversion Ha].
  - apply IH; [|assumption]. constructor; [|assumption].
    apply String.eqb_neq in E1, E2, E3. unfold seg_ok. tauto.
Qed.

Lemma norm_segs_normal acc t : Forall seg_ok t -> norm_segs acc t = app (rev t) acc.
Proof.
  revert acc. induction t as [|x t IH]; intros acc Ht; [reflexivity|].
  inversion Ht as [|? ? [H1 [H2 [H3 _]]] Ht']; subst. simpl.
  apply String.eqb_neq in H1, H2, H3. rewrite H1, H2, H3. simpl.
  rewrite IH by assumption. rewrite <- app_assoc. reflexivity.
Qed.

Lemma norm_segs_pop l acc : norm_segs (app l acc) (repeat ".." (List.length l)) = acc.
Proof. induction l as [|a l IH]; [reflexivity|]. exact IH. Qed.

Lemma norm_split_join acc l :
  Forall no_sep l ->
  norm_segs acc (split fileSeparator (join (String fileSeparator EmptyString) l))
  = norm_segs acc l.
Proof.
  intros Hl. destruct l as [|x l]; [reflexivity|].
  rewrite split_join_inv by (discriminate || assumption). reflexivity.
Qed.

Lemma seg_ok_no_sep l : Forall seg_ok l -> Forall no_sep l.
Proof. intros H. eapply Forall_impl; [|exact H]. unfold seg_ok. tauto. Qed.

Lemma resolve_segs_ok base p : Forall seg_ok base -> Forall seg_ok (resolve_segs base p).
Proof.
  intros Hb. unfold resolve_segs. apply Forall_rev. apply norm_segs_ok.
  - destruct (is_absolute p); [constructor|now apply Forall_rev].
  - apply split_no_sep_all.
Qed.

Lemma resolve_segs_to_path base t : Forall seg_ok t -> resolve_segs base (segs_to_path t) = t.
Proof.
  intros Ht. unfold resolve_segs, segs_to_path. simpl.
  rewrite norm_split_join by (now apply seg_ok_no_sep).
  unfold is_absolute. simpl.
  assert (E : forall s, startsWith s "" = true) by (intros []; reflexivity). rewrite E.
  rewrite norm_segs_normal by assumption. rewrite app_nil_r. apply rev_involutive.
Qed.

Lemma strip_common_prefix : forall a b f t,
  strip_common a b = (f, t) -> exists c, a = app c f /\ b = app c t.
Proof.
  induction a as [|x a IH]; intros b f t H.
  - simpl in H. inversion H; subst. now exists [].
  - destruct b as [|y b]; simpl in H.
    + inversion H; subst. now exists [].
    + destruct (String.eqb x y) eqn:E.
      * apply String.eqb_eq in E. subst. destruct (IH b f t H) as [c [-> ->]].
        now exists (y :: c).
      * inversion H; subst. now exists [].
Qed.

Lemma startsWith_app p s : startsWith (p ++ s) p = true.
Proof.
  induction p as [|a p IH]; [destruct s; reflexivity|].
  simpl. rewrite Ascii.eqb_refl. exact IH.
Qed.

(** C9: the [relative] path of a match begins with [./], is not absolute,
    resolves against the importing file's directory to the matched file,
    and depends only on where the file resolves, not on how it was written
    (the working directory of the process being a normalised path). *)
Theorem relative_path_normalised :
  forall pcwd cwd file,
    Forall seg_ok pcwd ->
    startsWith (rp pcwd cwd file) "./" = true /\
    is_absolute (rp pcwd cwd file) = false /\
    resolve_segs (resolve_segs pcwd cwd) (rp pcwd cwd file)
    = resolve_segs (resolve_segs pcwd cwd) file /\
    (forall file',
       resolve_segs (resolve_segs pcwd cwd) file' = resolve_segs (resolve_segs pcwd cwd) file ->
       rp pcwd cwd file' = rp pcwd cwd file).
Proof.
  intros pcwd cwd file Hp.
  split; [unfold rp; apply startsWith_app|]. split; [reflexivity|].
  split.
  - set (D := resolve_segs pcwd cwd).
    set (T := resolve_segs D file).
    assert (HD : Forall seg_ok D) by (apply resolve_segs_ok; exact Hp).
    assert (HT : Forall seg_ok T) by (apply resolve_segs_ok; exact HD).
    unfold rp, path_relative, path_resolve. fold D. fold T.
    rewrite (resolve_segs_to_path pcwd T HT).
    destruct (strip_common D T) as [f t] eqn:Hs.
    destruct (strip_common_prefix _ _ _ _ Hs) as [c [HDc HTc]].
    assert (Ht : Forall seg_ok t) by (rewrite HTc in HT; apply Forall_app in HT; tauto).
    unfold resolve_segs at 1.
    change ("./" ++ join "/" (app (repeat ".." (List.length f)) t))
      with ("." ++ String fileSeparator (join (String fileSeparator EmptyString)
                                              (app (repeat ".." (List.length f)) t))).
    simpl (is_absolute _). rewrite split_app_sep by (unfold no_sep; simpl; intuition discriminate).
    replace (is_absolute _) with false by reflexivity.
    change (norm_segs ?a ("." :: ?l)) with (norm_segs a l).
    rewrite norm_split_join.
    + rewrite norm_segs_app. rewrite HDc at 1. rewrite rev_app_distr.
      rewrite <- (length_rev f). rewrite norm_segs_pop.
      rewrite norm_segs_normal by assumption. rewrite <- rev_app_distr, rev_involutive.
      symmetry. exact HTc.
    + apply Forall_app. split.
      * apply Forall_forall. intros x Hx. apply repeat_spec in Hx. subst.
        unfold no_sep. simpl. intuition discriminate.
      * now apply seg_ok_no_sep.
  - intros file' H. unfold rp, path_resolve. rewrite H. reflexivity.
Qed.

Lemma relative_path_normalised_witness :
  startsWith (rp ["r"] "/r/test" "../test/fixtures/foo-bar/foo-bar.txt") "./" = true /\
  is_absolute (rp ["r"] "/r/test" "../test/fixtures/foo-bar/foo-bar.txt") = false /\
  resolve_segs (resolve_segs ["r"] "/r/test") (rp ["r"] "/r/test" "../test/fixtures/foo-bar/foo-bar.txt")
  = resolve_segs (resolve_segs ["r"] "/r/test") "../test/fixtures/foo-bar/foo-bar.txt" /\
  rp ["r"] "/r/test" "../test/fixtures/foo-bar/foo-bar.txt" = rp ["r"] "/r/test" "./fixtures/foo-bar/foo-bar.txt" /\
  rp ["r"] "/r/test" "../test/fixtures/foo-bar/foo-bar.txt" = "./fixtures/foo-bar/foo-bar.txt".
Proof.
  destruct (relative_path_normalised ["r"] "/r/test" "../test/fixtures/foo-bar/foo-bar.txt")
    as [H1 [H2 [H3 H4]]].
  - repeat constructor; try discriminate. unfold no_sep. simpl. intuition discriminate.
  - split; [exact H1|]. split; [exact H2|]. split; [exact H3|]. split.
    + apply H4. vm_compute. reflexivity.
    + vm_compute. reflexivity.
Defined.

(** ** Scanning compiled expressions *)

Lemma scan_app st a b :
  scan st (a ++ b) = match scan st a with Some st' => scan st' b | None => None end.
Proof.
  revert st. induction a as [|c a IH]; intros st; [reflexivity|].
  simpl. destruct (scan_step st c); [apply IH|reflexivity].
Qed.

Lemma step_normal_shift d g c m' d' g' e h :
  step_normal d g c = Some (mk_scan m' d' g') ->
  step_normal (d + e) (g + h) c = Some (mk_scan m' (d' + e) (g' + h)).
Proof.
  unfold step_normal.
  destruct (Ascii.eqb c "\"); [congruence|].
  destruct (Ascii.eqb c "["); [congruence|].
  destruct (Ascii.eqb c "("); [intros H; inversion H; subst; reflexivity|].
  destruct (Ascii.eqb c ")"); [destruct d; [discriminate|]; intros H; inversion H; subst; reflexivity|].
  destruct (Ascii.eqb c "|"); [destruct d; [discriminate|]; intros H; inversion H; subst; reflexivity|].
  congruence.
Qed.

Lemma scan_step_shift m d g c m' d' g' e h :
  scan_step (mk_scan m d g) c = Some (mk_scan m' d' g') ->
  scan_step (mk_scan m (d + e) (g + h)) c = Some (mk_scan m' (d' + e) (g' + h)).
Proof.
  unfold scan_step. simpl.
  destruct m.
  - apply step_normal_shift.
  - congruence.
  - destruct (Ascii.eqb c "\"); [congruence|]. destruct (Ascii.eqb c "]"); congruence.
  - congruence.
  - destruct (Ascii.eqb c "?"); [congruence|].
    intros H. apply (step_normal_shift _ _ _ _ _ _ e h) in H. exact H.
  - destruct (Ascii.eqb c "<"); congruence.
  - destruct (Ascii.eqb c "=" || Ascii.eqb c "!")%bool; [congruence|].
    intros H. inversion H; subst. reflexivity.
Qed.

Lemma scan_shift s : forall m d g m' d' g' e h,
  scan (mk_scan m d g) s = Some (mk_scan m' d' g') ->
  scan (mk_scan m (d + e) (g + h)) s = Some (mk_scan m' (d' + e) (g' + h)).
Proof.
  induction s as [|c s IH]; intros m d g m' d' g' e h H.
  - simpl in *. inversion H; subst. reflexivity.
  - simpl in *. destruct (scan_step (mk_scan m d g) c) as [[m1 d1 g1]|] eqn:E; [|discriminate].
    rewrite (scan_step_shift _ _ _ _ _ _ _ e h E). apply IH. exact H.
Qed.

Lemma scan_closed_at s d g :
  scan scan_init s = Some scan_init -> scan (mk_scan SNormal d g) s = Some (mk_scan SNormal d g).
Proof. intros H. exact (scan_shift s _ _ _ _ _ _ d g H). Qed.

Lemma norm_like_step st d g c :
  norm_like st d g -> Ascii.eqb c "?" = false -> scan_step st c = step_normal d g c.
Proof.
  intros [->|[g' [-> ->]]] Hc; unfold scan_step; cbn [sc_mode sc_depth sc_groups];
    [reflexivity|]. rewrite Hc. reflexivity.
Qed.

Lemma startsWith_char c p a : startsWith (String c p) (String a EmptyString) = Ascii.eqb c a.
Proof.
  cbn [startsWith]. rewrite Ascii.eqb_sym.
  destruct p; rewrite Bool.andb_true_r; reflexivity.
Qed.

Lemma startsWith_q c p : startsWith (String c p) "?" = Ascii.eqb c "?".
Proof. apply startsWith_char. Qed.

Lemma piece_scan p st d g :
  piece_ok p -> norm_like st d g ->
  exists st', scan st p = Some st' /\ norm_like st' d g /\
              (p <> "" -> st' = mk_scan SNormal d g).
Proof.
  intros [Hq Hc] Hn. pose proof (scan_closed_at p d g Hc) as Hp.
  destruct p as [|c p].
  - exists st. split; [reflexivity|]. split; [exact Hn|]. congruence.
  - exists (mk_scan SNormal d g). split; [|split; [left; reflexivity|intros _; reflexivity]].
    rewrite startsWith_q in Hq.
    cbn [scan] in Hp |- *. rewrite (norm_like_step st d g c Hn Hq). exact Hp.
Qed.

Lemma sep_scan st d g :
  norm_like st d g -> scan st "/" = Some (mk_scan SNormal d g).
Proof. intros Hn. simpl. rewrite (norm_like_step st d g "/" Hn eq_refl). reflexivity. Qed.

Lemma close_scan st d g :
  norm_like st (S d) g -> scan st ")" = Some (mk_scan SNormal d g).
Proof. intros Hn. simpl. rewrite (norm_like_step st (S d) g ")" Hn eq_refl). reflexivity. Qed.

Lemma open_scan st d g :
  norm_like st d g -> scan st "(" = Some (mk_scan SOpen (S d) g).
Proof. intros Hn. simpl. rewrite (norm_like_step st d g "(" Hn eq_refl). reflexivity. Qed.

Lemma plain_char_step d g c :
  V1.is_escaped_char c = false -> step_normal d g c = Some (mk_scan SNormal d g).
Proof. destruct c as [[] [] [] [] [] [] [] []]; intros H; try discriminate; reflexivity. Qed.

Lemma plain_char_not_q c : V1.is_escaped_char c = false -> Ascii.eqb c "?" = false.
Proof. destruct c as [[] [] [] [] [] [] [] []]; intros H; try discriminate; reflexivity. Qed.

Lemma escape_scan s d g :
  scan (mk_scan SNormal d g) (V1.escapeStringRegexp s) = Some (mk_scan SNormal d g).
Proof.
  induction s as [|c s IH]; [reflexivity|].
  cbn [V1.escapeStringRegexp]. destruct (V1.is_escaped_char c) eqn:E.
  - exact IH.
  - cbn [scan]. unfold scan_step at 1. cbn [sc_mode sc_depth sc_groups].
    rewrite (plain_char_step d g c E). exact IH.
Qed.

Lemma escape_piece s : piece_ok (V1.escapeStringRegexp s).
Proof.
  split; [|apply escape_scan].
  destruct s as [|c s]; [reflexivity|].
  cbn [V1.escapeStringRegexp]. destruct (V1.is_escaped_char c) eqn:E.
  - reflexivity.
  - rewrite startsWith_q. now apply plain_char_not_q.
Qed.

Lemma escape_not_dot s : startsWith (V1.escapeStringRegexp s) "." = false.
Proof.
  destruct s as [|c s]; [reflexivity|].
  cbn [V1.escapeStringRegexp]. destruct (V1.is_escaped_char c) eqn:E; [reflexivity|].
  rewrite startsWith_char. revert E.
  destruct c as [[] [] [] [] [] [] [] []]; intros E; try discriminate; reflexivity.
Qed.

Lemma escape_no_esc_bs_dot s d g :
  esc_bs_dot (mk_scan SNormal d g) (V1.escapeStringRegexp s) = false.
Proof.
  induction s as [|c s IH]; [reflexivity|].
  cbn [V1.escapeStringRegexp]. destruct (V1.is_escaped_char c) eqn:E.
  - cbn [esc_bs_dot sc_mode]. unfold scan_step at 1. cbn [sc_mode sc_depth sc_groups].
    change (step_normal d g "\") with (Some (mk_scan SEsc d g)). cbv iota.
    cbn [esc_bs_dot sc_mode]. rewrite escape_not_dot, Bool.andb_false_r.
    unfold scan_step at 1. cbn [sc_mode sc_depth sc_groups]. exact IH.
  - cbn [esc_bs_dot sc_mode]. unfold scan_step at 1. cbn [sc_mode sc_depth sc_groups].
    rewrite (plain_char_step d g c E). exact IH.
Qed.

Lemma esc_bs_dot_hit f : forall st st' r,
  scan st f = Some st' -> sc_mode st' = SEsc ->
  esc_bs_dot st (f ++ String "\" (String "." r)) = true.
Proof.
  induction f as [|c f IH]; intros st st' r H Hm.
  - simpl in H. inversion H; subst st'. cbn [append esc_bs_dot]. rewrite Hm.
    destruct r; reflexivity.
  - cbn [scan] in H. destruct (scan_step st c) as [st1|] eqn:E; [|discriminate].
    cbn [append esc_bs_dot]. rewrite E, (IH st1 st' r H Hm). apply Bool.orb_true_r.
Qed.

Lemma scan_join_bar xs d g :
  Forall piece_ok xs -> xs <> [] ->
  scan (mk_scan SNormal (S d) g) (join "|" xs) = Some (mk_scan SNormal (S d) g).
Proof.
  induction xs as [|x xs IH]; intros Hx Hne; [congruence|].
  inversion Hx as [|? ? [_ Hc] Hx']; subst.
  destruct xs as [|y xs].
  - simpl. now apply scan_closed_at.
  - change (join "|" (x :: y :: xs)) with (x ++ "|" ++ join "|" (y :: xs)).
    rewrite scan_app, (scan_closed_at x _ _ Hc), scan_app. cbn [scan].
    apply IH; [assumption|discriminate].
Qed.

Lemma joinExpression_piece xs : Forall piece_ok xs -> piece_ok (V1.joinExpression xs).
Proof.
  intros Hx. destruct xs as [|x [|y xs]].
  - split; reflexivity.
  - now inversion Hx.
  - split; [reflexivity|].
    unfold V1.joinExpression. rewrite scan_app.
    change (scan scan_init "(?:") with (Some (mk_scan SNormal 1 0)). cbv beta iota.
    rewrite scan_app, scan_join_bar by (assumption || discriminate). reflexivity.
Qed.

Lemma alnum_step d g c : is_alnum c = true -> step_normal d g c = Some (mk_scan SNormal d g).
Proof. destruct c as [[] [] [] [] [] [] [] []]; intros H; try discriminate; reflexivity. Qed.

Lemma alnum_not_close c : is_alnum c = true -> Ascii.eqb c "]" = false.
Proof. destruct c as [[] [] [] [] [] [] [] []]; intros H; try discriminate; reflexivity. Qed.

Lemma ext_scan_normal s : forall q m d g,
  ext_run q s = true -> (m = SNormal \/ (q = E1 /\ m = SEsc)) ->
  scan (mk_scan m d g) s = Some (mk_scan SNormal d g).
Proof.
  induction s as [|c s IH]; intros q m d g Hr Hm.
  - destruct q; try discriminate; destruct Hm as [->|[? _]]; try discriminate; reflexivity.
  - cbn [ext_run] in Hr. cbn [scan].
    destruct q; cbn [ext_step] in Hr.
    + destruct (Ascii.eqb c "\") eqn:E; [|discriminate].
      destruct Hm as [->|[? _]]; [|discriminate].
      apply Ascii.eqb_eq in E. subst. apply (IH E1); [exact Hr|right; split; reflexivity].
    + destruct (Ascii.eqb c ".") eqn:E; [|discriminate].
      apply Ascii.eqb_eq in E. subst.
      destruct Hm as [->|[_ ->]]; apply (IH E2); (exact Hr || (left; reflexivity)).
    + destruct (is_alnum c) eqn:E; [|discriminate].
      destruct Hm as [->|[? _]]; [|discriminate].
      unfold scan_step. cbn [sc_mode sc_depth sc_groups]. rewrite alnum_step by exact E.
      apply (IH E3); [exact Hr|left; reflexivity].
    + destruct Hm as [->|[? _]]; [|discriminate].
      destruct (is_alnum c) eqn:E.
      * unfold scan_step. cbn [sc_mode sc_depth sc_groups]. rewrite alnum_step by exact E.
        apply (IH E3); [exact Hr|left; reflexivity].
      * destruct (Ascii.eqb c "\") eqn:E'; [|discriminate].
        apply Ascii.eqb_eq in E'. subst. apply (IH E1); [exact Hr|right; split; reflexivity].
Qed.

Lemma ext_piece e : ext_ok e = true -> piece_ok e.
Proof.
  intros He. split.
  - destruct e as [|c e]; [reflexivity|]. rewrite startsWith_q.
    unfold ext_ok in He. cbn [ext_run ext_step] in He.
    destruct (Ascii.eqb c "\") eqn:E; [|discriminate].
    apply Ascii.eqb_eq in E. subst. reflexivity.
  - apply (ext_scan_normal e E0); [exact He|left; reflexivity].
Qed.

Lemma ext_scan_cls s : forall q m d g st',
  ext_run q s = true -> (m = SCls \/ m = SClsEsc) ->
  scan (mk_scan m d g) s = Some st' -> sc_mode st' = SCls \/ sc_mode st' = SClsEsc.
Proof.
  induction s as [|c s IH]; intros q m d g st' Hr Hm Hs.
  - simpl in Hs. inversion Hs; subst. exact Hm.
  - cbn [ext_run] in Hr. destruct (ext_step q c) as [q'|] eqn:Eq; [|discriminate].
    assert (Hc : Ascii.eqb c "]" = false).
    { destruct q; cbn [ext_step] in Eq.
      - destruct (Ascii.eqb c "\") eqn:E; [|discriminate].
        apply Ascii.eqb_eq in E; subst; reflexivity.
      - destruct (Ascii.eqb c ".") eqn:E; [|discriminate].
        apply Ascii.eqb_eq in E; subst; reflexivity.
      - destruct (is_alnum c) eqn:E; [|discriminate]. now apply alnum_not_close.
      - destruct (is_alnum c) eqn:E; [now apply alnum_not_close|].
        destruct (Ascii.eqb c "\") eqn:E'; [|discriminate].
        apply Ascii.eqb_eq in E'; subst; reflexivity. }
    cbn [scan] in Hs. unfold scan_step at 1 in Hs. cbn [sc_mode sc_depth sc_groups] in Hs.
    destruct Hm as [->| ->].
    + rewrite Hc in Hs. destruct (Ascii.eqb c "\");
        [apply (IH q' SClsEsc d g st' Hr (or_intror eq_refl) Hs)
        |apply (IH q' SCls d g st' Hr (or_introl eq_refl) Hs)].
    + apply (IH q' SCls d g st' Hr (or_introl eq_refl) Hs).
Qed.

Lemma scan_step_open_ok st c st' : open_ok st -> scan_step st c = Some st' -> open_ok st'.
Proof.
  destruct st as [m d g]. unfold scan_step, step_normal. cbn [sc_mode sc_depth sc_groups].
  intros Ho H.
  destruct m; unfold open_ok in *; cbn [sc_mode sc_depth] in *;
    repeat match type of H with
           | context [if ?b then _ else _] => destruct b
           | context [match ?n with 0 => _ | S _ => _ end] => destruct n
           end;
    inversion H; subst; cbn; try exact I; lia.
Qed.

Lemma scan_open_ok s : forall st st', open_ok st -> scan st s = Some st' -> open_ok st'.
Proof.
  induction s as [|c s IH]; intros st st' Ho H.
  - simpl in H. inversion H; subst. exact Ho.
  - cbn [scan] in H. destruct (scan_step st c) as [st1|] eqn:E; [|discriminate].
    apply (IH st1); [eapply scan_step_open_ok; eassumption|exact H].
Qed.

Lemma split_prefix_piece x :
  piece_ok x -> esc_bs_dot scan_init x = false -> piece_ok (fst (ext_split x)).
Proof.
  intros [Hq Hc] Hd.
  pose proof (ext_split_app x) as Happ. pose proof (ext_split_ok x) as Hok.
  destruct (ext_split x) as [f e]. cbn [fst snd] in *. subst x.
  split.
  - destruct f as [|c f]; [reflexivity|].
    cbn [append] in Hq. rewrite startsWith_q in Hq |- *. exact Hq.
  - rewrite scan_app in Hc.
    destruct (scan scan_init f) as [[m d g]|] eqn:Ef; [|discriminate].
    destruct e as [|c e].
    + simpl in Hc. congruence.
    + unfold ext_ok in Hok. pose proof Hok as Hok0. cbn [ext_run ext_step] in Hok.
      destruct (Ascii.eqb c "\") eqn:Ec; [|discriminate].
      apply Ascii.eqb_eq in Ec. subst c.
      assert (Hoo : open_ok (mk_scan m d g)) by exact (scan_open_ok f scan_init _ I Ef).
      destruct m.
      * rewrite (ext_scan_normal _ E0 SNormal d g Hok0 (or_introl eq_refl)) in Hc.
        inversion Hc; subst. reflexivity.
      * destruct e as [|c e]; [discriminate Hok|].
        cbn [ext_run ext_step] in Hok.
        destruct (Ascii.eqb c ".") eqn:Ec; [|discriminate Hok].
        apply Ascii.eqb_eq in Ec. subst c.
        rewrite (esc_bs_dot_hit f scan_init _ e Ef eq_refl) in Hd. discriminate Hd.
      * destruct (ext_scan_cls _ E0 SCls d g _ Hok0 (or_introl eq_refl) Hc) as [H|H];
          discriminate.
      * destruct (ext_scan_cls _ E0 SClsEsc d g _ Hok0 (or_intror eq_refl) Hc) as [H|H];
          discriminate.
      * simpl in Hc.
        rewrite (ext_scan_normal _ E1 SEsc d (S g) Hok (or_intror (conj eq_refl eq_refl))) in Hc.
        discriminate.
      * simpl in Hc.
        rewrite (ext_scan_normal _ E1 SNormal d g Hok (or_introl eq_refl)) in Hc.
        inversion Hc; subst. unfold open_ok in Hoo. cbn in Hoo. lia.
      * simpl in Hc.
        rewrite (ext_scan_normal _ E1 SNormal d (S g) Hok (or_introl eq_refl)) in Hc.
        discriminate.
Qed.

Lemma substring_app_l a b : String.substring 0 (String.length a) (a ++ b) = a.
Proof. induction a as [|c a IH]; [destruct b; reflexivity|]. simpl. now rewrite IH. Qed.

Lemma length_app_str a b : String.length (a ++ b) = String.length a + String.length b.
Proof. induction a as [|c a IH]; simpl; [reflexivity|]. now rewrite IH. Qed.

Lemma slice_inner_source src : V1.slice_inner (mm_source src) = src.
Proof.
  unfold V1.slice_inner, mm_source. cbn [append String.length].
  rewrite length_app_str. cbn [String.length].
  replace (S (String.length src + 1) - 2) with (String.length src) by lia.
  cbn [String.substring]. apply substring_app_l.
Qed.

Lemma uniq_incl l y : In y (uniq l) -> In y l.
Proof.
  unfold uniq. rewrite <- in_rev.
  assert (H : forall acc, In y (fold_left (fun acc x => if existsb (String.eqb x) acc
                                                          then acc else x :: acc) l acc) ->
                          In y acc \/ In y l).
  { induction l as [|x l IH]; intros acc Hy; [now left|].
    simpl in Hy. destruct (existsb (String.eqb x) acc);
      destruct (IH _ Hy) as [H|H]; simpl; try tauto.
    destruct H; tauto. }
  intros Hy. destruct (H [] Hy) as [[]|Hl]. exact Hl.
Qed.

Lemma Forall_uniq (P : string -> Prop) l : Forall P l -> Forall P (uniq l).
Proof.
  intros H. apply Forall_forall. intros y Hy. apply uniq_incl in Hy.
  exact (proj1 (Forall_forall P l) H y Hy).
Qed.

Lemma map_throw_In {A B} (f : A -> option B) l : forall l' y,
  map_throw f l = Some l' -> In y l' -> exists x, In x l /\ f x = Some y.
Proof.
  induction l as [|x l IH]; intros l' y H Hy.
  - simpl in H. inversion H; subst. destruct Hy.
  - simpl in H. destruct (f x) eqn:E; [|discriminate].
    destruct (map_throw f l) as [l0|] eqn:E'; [|discriminate].
    simpl in H. inversion H; subst. destruct Hy as [<-|Hy].
    + exists x. split; [now left|exact E].
    + destruct (IH l0 y eq_refl Hy) as [x' [Hx' Hf]]. exists x'. split; [now right|exact Hf].
Qed.

Lemma twoStar_ok : piece_ok V1.twoStar /\ esc_bs_dot scan_init V1.twoStar = false.
Proof. split; [split|]; reflexivity. Qed.

Lemma flattenSet_ok set exprs :
  Forall (Forall part_ok) set -> V1.flattenSet set = Some exprs -> Forall flat_ok exprs.
Proof.
  intros Hset Hf. unfold V1.flattenSet in Hf.
  destruct set as [|first rest]; [discriminate|].
  apply Forall_forall. intros fl Hfl.
  destruct (map_throw_In _ _ _ _ Hf Hfl) as [[index fe] [Hin Hfe]].
  apply in_combine_r in Hin.
  assert (Hsub : forall (P : string -> Prop) (sel : mm_part -> option string) subs,
             (forall p e, part_ok p -> sel p = Some e -> P e) ->
             map_throw (fun expressions =>
                          match nth_error expressions index with
                          | Some p => sel p
                          | None => None
                          end) (first :: rest) = Some subs ->
             Forall P subs).
  { intros P sel subs Hsel Hm. apply Forall_forall. intros y Hy.
    destruct (map_throw_In _ _ _ _ Hm Hy) as [expressions [Hexp Hy']].
    destruct (nth_error expressions index) as [p|] eqn:Hn; [|discriminate].
    apply (Hsel p); [|exact Hy'].
    pose proof (proj1 (Forall_forall _ _) Hset expressions Hexp) as Hall.
    apply nth_error_In in Hn. exact (proj1 (Forall_forall _ _) Hall p Hn). }
  destruct fe as [s|src|].
  - destruct (map_throw _ (first :: rest)) as [subs|] eqn:Hm; [|discriminate].
    simpl in Hfe. inversion Hfe; subst fl.
    assert (Hs : Forall (fun x => piece_ok x /\ esc_bs_dot scan_init x = false) subs).
    { refine (Hsub _ (fun p => match p with
                                | MStr e => Some (V1.escapeStringRegexp e)
                                | _ => None end) subs _ _).
      - intros p e Hp Hsel. destruct p; try discriminate. inversion Hsel; subst.
        split; [apply escape_piece|apply escape_no_esc_bs_dot].
      - exact Hm. }
    apply Forall_uniq in Hs.
    destruct (uniq subs) as [|x [|y xs]]; simpl; try exact Hs.
    inversion Hs as [|? ? [Hx _] _]. exact Hx.
  - destruct (map_throw _ (first :: rest)) as [subs|] eqn:Hm; [|discriminate].
    simpl in Hfe. inversion Hfe; subst fl. simpl. apply Forall_uniq.
    refine (Hsub _ (fun p => match p with
                              | MRe src => Some (V1.slice_inner (mm_source src))
                              | _ => None end) subs _ _).
    + intros p e Hp Hsel. destruct p; try discriminate. inversion Hsel; subst.
      rewrite slice_inner_source. destruct Hp as [Hc [Hq Hd]].
      split; [split|]; assumption.
    + exact Hm.
  - inversion Hfe; subst fl. simpl. constructor; [exact twoStar_ok|constructor].
Qed.

Lemma splitExtensions_fst_ok xs :
  Forall (fun x => piece_ok x /\ esc_bs_dot scan_init x = false) xs ->
  Forall piece_ok (fst (V1.splitExtensions xs)).
Proof.
  induction xs as [|x xs IH]; intros Hx; [constructor|].
  inversion Hx as [|? ? [Hp Hd] Hx']; subst. simpl.
  destruct (V1.splitExtensions xs) as [fn ex] eqn:Es. simpl in IH.
  pose proof (split_prefix_piece x Hp Hd) as Hf.
  destruct (ext_split x) as [f e]. simpl in Hf.
  destruct e; simpl; constructor; auto.
Qed.

Lemma splitExtensions_snd_ok xs : Forall piece_ok (snd (V1.splitExtensions xs)).
Proof.
  eapply Forall_impl; [|apply splitExtensions_ok]. intros e [He _]. now apply ext_piece.
Qed.

Lemma findIndex_spec {A} (p : A -> bool) l : forall i,
  findIndex p l = Some i ->
  (exists x, nth_error l i = Some x /\ p x = true) /\
  (forall k x, k < i -> nth_error l k = Some x -> p x = false).
Proof.
  induction l as [|y l IH]; intros i H; [discriminate|].
  simpl in H. destruct (p y) eqn:E.
  - inversion H; subst. split; [exists y; split; [reflexivity|exact E]|intros; lia].
  - destruct (findIndex p l) as [i'|] eqn:E'; [|discriminate]. simpl in H. inversion H; subst.
    destruct (IH i' eq_refl) as [[x [Hx Hpx]] Hmin]. split.
    + exists x. split; [exact Hx|exact Hpx].
    + intros [|k] x0 Hk Hn; simpl in Hn; [inversion Hn; subst; exact E|].
      apply (Hmin k); [lia|exact Hn].
Qed.

Lemma findIndex_existsb {A} (p : A -> bool) l :
  existsb p l = true -> exists i, findIndex p l = Some i.
Proof.
  induction l as [|y l IH]; intros H; [discriminate|].
  simpl in *. destruct (p y); [now exists 0|].
  destruct (IH H) as [i ->]. now exists (S i).
Qed.

Lemma findLastIndex_spec {A} (p : A -> bool) l j :
  findLastIndex p l = Some j ->
  j < List.length l /\ exists x, nth_error l j = Some x /\ p x = true.
Proof.
  unfold findLastIndex. destruct (findIndex p (rev l)) as [i|] eqn:E; [|discriminate].
  simpl. intros H. inversion H; subst.
  destruct (findIndex_spec p _ i E) as [[x [Hx Hpx]] _].
  rewrite nth_error_rev in Hx. destruct (Nat.ltb_spec i (List.length l)); [|discriminate].
  split; [lia|]. exists x. split; [|exact Hpx].
  replace (List.length l - 1 - i) with (List.length l - S i) by lia. exact Hx.
Qed.

Lemma findLastIndex_existsb {A} (p : A -> bool) l :
  existsb p l = true -> exists j, findLastIndex p l = Some j.
Proof.
  intros H. unfold findLastIndex.
  assert (Hr : existsb p (rev l) = true).
  { apply existsb_exists in H. destruct H as [x [Hx Hp]].
    apply existsb_exists. exists x. split; [now apply in_rev in Hx|exact Hp]. }
  destruct (findIndex_existsb p _ Hr) as [i ->]. eexists. reflexivity.
Qed.

Lemma add_parens_from_nth i cs ce J : forall k,
  nth_error (V1.add_parens_from i cs ce J) k =
  option_map (fun e => (if Nat.eqb (i + k) cs then "(" else "") ++ e
                       ++ (if Nat.eqb (i + k) ce then ")" else "")) (nth_error J k).
Proof.
  revert i. induction J as [|e J IH]; intros i [|k]; simpl; try reflexivity.
  - now rewrite Nat.add_0_r.
  - rewrite IH. now rewrite Nat.add_succ_r.
Qed.

Lemma length_add_parens_from i cs ce J : List.length (V1.add_parens_from i cs ce J) = List.length J.
Proof. revert i. induction J as [|e J IH]; intros i; simpl; [reflexivity|now rewrite IH]. Qed.

Lemma join_chain (pd pg : nat -> nat) L : forall i st,
  L <> [] ->
  (forall k x, nth_error L k = Some x -> forall st,
       norm_like st (pd (i + k)) (pg (i + k)) ->
       exists st', scan st x = Some st' /\ norm_like st' (pd (S (i + k))) (pg (S (i + k)))) ->
  norm_like st (pd i) (pg i) ->
  exists st', scan st (join "/" L) = Some st' /\
              norm_like st' (pd (i + List.length L)) (pg (i + List.length L)).
Proof.
  induction L as [|x L IH]; intros i st Hne Hel Hst; [congruence|].
  destruct (Hel 0 x eq_refl st) as [st1 [Hs1 Hn1]]; [now rewrite Nat.add_0_r|].
  rewrite Nat.add_0_r in Hn1.
  destruct L as [|y L].
  - exists st1. split; [exact Hs1|]. simpl. now rewrite Nat.add_1_r.
  - change (join "/" (x :: y :: L)) with (x ++ "/" ++ join "/" (y :: L)).
    rewrite scan_app, Hs1, scan_app, (sep_scan st1 _ _ Hn1).
    destruct (IH (S i) (mk_scan SNormal (pd (S i)) (pg (S i)))) as [st' [Hs' Hn']].
    + discriminate.
    + intros k x' Hk st0 H0. rewrite Nat.add_succ_comm in H0 |- *.
      exact (Hel (S k) x' Hk st0 H0).
    + now left.
    + exists st'. split; [exact Hs'|]. cbn [List.length] in *.
      now rewrite Nat.add_succ_r, <- Nat.add_succ_l.
Qed.

Lemma paren_piece_step cs ce k e st :
  cs <= ce -> piece_ok e ->
  norm_like st (paren_depth cs ce k) (paren_groups cs k) ->
  exists st',
    scan st ((if Nat.eqb k cs then "(" else "") ++ e ++ (if Nat.eqb k ce then ")" else ""))
    = Some st' /\
    norm_like st' (paren_depth cs ce (S k)) (paren_groups cs (S k)).
Proof.
  intros Hle He Hst. unfold paren_depth, paren_groups in *.
  destruct (Nat.eqb_spec k cs) as [Hcs|Hcs]; destruct (Nat.eqb_spec k ce) as [Hce|Hce].
  - subst k; subst ce. rewrite Nat.ltb_irrefl in Hst. cbn [andb] in Hst.
    replace (Nat.ltb cs (S cs) && Nat.leb (S cs) cs)%bool with false
      by (symmetry; apply Bool.andb_false_iff; right; apply Nat.leb_gt; lia).
    replace (Nat.ltb cs (S cs)) with true by (symmetry; apply Nat.ltb_lt; lia).
    rewrite scan_app, (open_scan st _ _ Hst).
    destruct (piece_scan e (mk_scan SOpen 1 0) 1 1 He) as [st1 [Hs1 [Hn1 _]]];
      [right; exists 0; split; reflexivity|].
    rewrite scan_app, Hs1. exists (mk_scan SNormal 0 1). split; [|now left].
    exact (close_scan st1 0 1 Hn1).
  - subst k. rewrite Nat.ltb_irrefl in Hst. cbn [andb] in Hst.
    replace (Nat.ltb cs (S cs) && Nat.leb (S cs) ce)%bool with true
      by (symmetry; apply Bool.andb_true_iff; split; [apply Nat.ltb_lt|apply Nat.leb_le]; lia).
    replace (Nat.ltb cs (S cs)) with true by (symmetry; apply Nat.ltb_lt; lia).
    rewrite scan_app, (open_scan st _ _ Hst).
    destruct (piece_scan e (mk_scan SOpen 1 0) 1 1 He) as [st1 [Hs1 [Hn1 _]]];
      [right; exists 0; split; reflexivity|].
    rewrite str_app_nil_r, Hs1. exists st1. split; [reflexivity|exact Hn1].
  - subst k.
    replace (Nat.ltb cs ce && Nat.leb ce ce)%bool with true in Hst
      by (symmetry; apply Bool.andb_true_iff; split; [apply Nat.ltb_lt|apply Nat.leb_le]; lia).
    replace (Nat.ltb cs ce) with true in Hst by (symmetry; apply Nat.ltb_lt; lia).
    replace (Nat.ltb cs (S ce) && Nat.leb (S ce) ce)%bool with false
      by (symmetry; apply Bool.andb_false_iff; right; apply Nat.leb_gt; lia).
    replace (Nat.ltb cs (S ce)) with true by (symmetry; apply Nat.ltb_lt; lia).
    cbn [append]. rewrite scan_app.
    destruct (piece_scan e st 1 1 He Hst) as [st1 [Hs1 [Hn1 _]]].
    rewrite Hs1. exists (mk_scan SNormal 0 1). split; [|now left].
    exact (close_scan st1 0 1 Hn1).
  - assert (Hd : (Nat.ltb cs k && Nat.leb k ce)%bool = (Nat.ltb cs (S k) && Nat.leb (S k) ce)%bool).
    { destruct (Nat.ltb_spec cs k), (Nat.leb_spec k ce), (Nat.ltb_spec cs (S k)),
        (Nat.leb_spec (S k) ce); simpl; try reflexivity; lia. }
    assert (Hg : Nat.ltb cs k = Nat.ltb cs (S k)).
    { destruct (Nat.ltb_spec cs k), (Nat.ltb_spec cs (S k)); try reflexivity; lia. }
    rewrite <- Hd, <- Hg. cbn [append]. rewrite str_app_nil_r.
    destruct (piece_scan e st _ _ He Hst) as [st1 [Hs1 [Hn1 _]]].
    exists st1. split; [exact Hs1|exact Hn1].
Qed.

Lemma flat_piece fl : flat_ok fl -> piece_ok (V1.join_flat fl).
Proof.
  destruct fl as [s|xs]; unfold flat_ok; simpl; [intros H; exact H|].
  intros H. apply joinExpression_piece.
  apply (Forall_impl _ (fun a (Ha : piece_ok a /\ esc_bs_dot scan_init a = false) => proj1 Ha) H).
Qed.

Lemma norm_like_closed st : norm_like st 0 1 -> open_ok st -> st = mk_scan SNormal 0 1.
Proof. intros [->|[g' [_ ->]]] Ho; [reflexivity|]. unfold open_ok in Ho; simpl in Ho. lia. Qed.

Lemma body_ok cs ce E ext :
  cs <= ce -> ce < List.length E ->
  Forall piece_ok (map V1.join_flat E) -> Forall piece_ok ext ->
  scan scan_init
    (match ext with
     | [] => join "/" (V1.add_parens cs ce (map V1.join_flat E))
     | _ => join "/" (V1.add_parens cs ce (map V1.join_flat E)) ++ V1.joinExpression ext
     end) = Some (mk_scan SNormal 0 1).
Proof.
  intros Hle Hlt HE Hext.
  set (J := map V1.join_flat E) in *.
  set (L := V1.add_parens cs ce J).
  assert (HL : List.length L = List.length E)
    by (unfold L, V1.add_parens; rewrite length_add_parens_from; unfold J; apply length_map).
  destruct (join_chain (paren_depth cs ce) (paren_groups cs) L 0 scan_init) as [st [Hs Hn]].
  - intros Hnil. rewrite Hnil in HL. simpl in HL. lia.
  - intros k x Hk st0 H0. unfold L, V1.add_parens in Hk. rewrite add_parens_from_nth in Hk.
    destruct (nth_error J k) as [e|] eqn:Ej; [|discriminate]. simpl in Hk.
    inversion Hk; subst x. simpl in H0 |- *.
    apply paren_piece_step; [exact Hle| |exact H0].
    apply nth_error_In in Ej. exact (proj1 (Forall_forall _ _) HE e Ej).
  - left. reflexivity.
  - rewrite HL in Hn. simpl in Hn. unfold paren_depth, paren_groups in Hn.
    replace (Nat.ltb cs (List.length E) && Nat.leb (List.length E) ce)%bool with false in Hn
      by (symmetry; apply Bool.andb_false_iff; right; apply Nat.leb_gt; lia).
    replace (Nat.ltb cs (List.length E)) with true in Hn by (symmetry; apply Nat.ltb_lt; lia).
    set (body := match ext with
                 | [] => join "/" L
                 | _ => join "/" L ++ V1.joinExpression ext
                 end).
    assert (Hb : exists st', scan scan_init body = Some st' /\ norm_like st' 0 1).
    { unfold body. destruct ext as [|x xs].
      - exists st. split; assumption.
      - rewrite scan_app, Hs.
        destruct (piece_scan (V1.joinExpression (x :: xs)) st 0 1) as [st' [Hs' [Hn' _]]];
          [apply joinExpression_piece; exact Hext|exact Hn|].
        exists st'. split; assumption. }
    destruct Hb as [st' [Hs' Hn']]. fold L. fold body. rewrite Hs'. f_equal.
    apply norm_like_closed; [exact Hn'|].
    exact (scan_open_ok body scan_init st' I Hs').
Qed.

Lemma findIndex_le_findLastIndex {A} (p : A -> bool) l cs ce :
  findIndex p l = Some cs -> findLastIndex p l = Some ce -> cs <= ce.
Proof.
  intros Hi Hj. destruct (findIndex_spec p l cs Hi) as [_ Hmin].
  destruct (findLastIndex_spec p l ce Hj) as [_ [x [Hx Hpx]]].
  destruct (Nat.le_gt_cases cs ce) as [H|H]; [exact H|].
  rewrite (Hmin ce x H Hx) in Hpx. discriminate.
Qed.

Lemma map_join_flat_firstn exprs ce :
  Forall flat_ok exprs -> Forall piece_ok (map V1.join_flat (firstn ce exprs)).
Proof.
  intros H. apply Forall_map. apply Forall_forall. intros fl Hfl.
  apply flat_piece. apply (proj1 (Forall_forall _ _) H). rewrite <- (firstn_skipn ce exprs). apply in_or_app. left. exact Hfl.
Qed.

Lemma join_app_ne A B :
  A <> [] -> B <> [] -> join "/" (app A B) = join "/" A ++ "/" ++ join "/" B.
Proof.
  induction A as [|x A IH]; intros HA HB; [congruence|].
  destruct A as [|y A].
  - destruct B as [|b B]; [congruence|]. reflexivity.
  - change (app (x :: y :: A) B) with (x :: app (y :: A) B).
    change (join "/" (x :: app (y :: A) B)) with (x ++ "/" ++ join "/" (app (y :: A) B)).
    rewrite IH by (discriminate || assumption).
    change (join "/" (x :: y :: A)) with (x ++ "/" ++ join "/" (y :: A)).
    now rewrite !str_app_assoc.
Qed.

Lemma join_cons_ne x L : L <> [] -> join "/" (x :: L) = x ++ "/" ++ join "/" L.
Proof. destruct L; [congruence|reflexivity]. Qed.

Lemma join_app_mid A L C P :
  L <> [] -> join "/" L = P -> join "/" (app A (app L C)) = join "/" (app A (P :: C)).
Proof.
  intros HL HP.
  assert (HC : join "/" (app L C) = join "/" (P :: C)).
  { destruct C as [|c C].
    - now rewrite app_nil_r.
    - rewrite join_app_ne by (assumption || discriminate). rewrite HP. reflexivity. }
  destruct A as [|a A]; [exact HC|].
  assert (HLC : app L C <> []) by (destruct L; [congruence|discriminate]).
  rewrite (join_app_ne (a :: A) (app L C)), (join_app_ne (a :: A) (P :: C))
    by (assumption || discriminate).
  now rewrite HC.
Qed.

Lemma add_parens_from_app2 i cs ce A B :
  V1.add_parens_from i cs ce (app A B)
  = app (V1.add_parens_from i cs ce A) (V1.add_parens_from (i + List.length A) cs ce B).
Proof.
  revert i. induction A as [|a A IH]; intros i; [now rewrite Nat.add_0_r|].
  cbn [app V1.add_parens_from List.length]. rewrite IH. now rewrite Nat.add_succ_r.
Qed.

Lemma add_parens_from_none i cs ce A :
  (forall k, i <= k -> k < i + List.length A -> k <> cs /\ k <> ce) ->
  V1.add_parens_from i cs ce A = A.
Proof.
  revert i. induction A as [|a A IH]; intros i H; [reflexivity|].
  cbn [V1.add_parens_from]. cbn [List.length] in H.
  destruct (H i ltac:(lia) ltac:(lia)) as [H1 H2].
  apply Nat.eqb_neq in H1, H2. rewrite H1, H2. cbn [append]. rewrite str_app_nil_r.
  f_equal. apply IH. intros k Hk1 Hk2. apply H; lia.
Qed.

Lemma add_parens_close j cs ce M :
  cs < j -> M <> [] -> ce = j + List.length M - 1 ->
  join "/" (V1.add_parens_from j cs ce M) = join "/" M ++ ")".
Proof.
  revert j. induction M as [|y M IH]; intros j Hj HM Hce; [congruence|].
  cbn [V1.add_parens_from]. cbn [List.length] in Hce.
  replace (Nat.eqb j cs) with false by (symmetry; apply Nat.eqb_neq; lia).
  destruct M as [|z M].
  - cbn [List.length] in Hce. replace (Nat.eqb j ce) with true by (symmetry; apply Nat.eqb_eq; lia).
    reflexivity.
  - replace (Nat.eqb j ce) with false by (symmetry; apply Nat.eqb_neq; cbn [List.length] in Hce; lia).
    rewrite join_cons_ne by (cbn [V1.add_parens_from]; discriminate).
    rewrite (IH (S j)) by (cbn [List.length] in *; lia || discriminate).
    cbn [append]. rewrite str_app_nil_r.
    change (join "/" (y :: z :: M)) with (y ++ "/" ++ join "/" (z :: M)).
    now rewrite !str_app_assoc.
Qed.

Lemma add_parens_span i x M :
  join "/" (V1.add_parens_from i i (i + List.length M) (x :: M)) = "(" ++ join "/" (x :: M) ++ ")".
Proof.
  cbn [V1.add_parens_from]. rewrite Nat.eqb_refl.
  destruct M as [|y M].
  - rewrite Nat.add_0_r, Nat.eqb_refl. reflexivity.
  - replace (Nat.eqb i (i + List.length (y :: M))) with false
      by (symmetry; apply Nat.eqb_neq; cbn [List.length]; lia).
    rewrite join_cons_ne by (cbn [V1.add_parens_from]; discriminate).
    rewrite (add_parens_close (S i) i (i + List.length (y :: M)) (y :: M))
      by (cbn [List.length]; lia || discriminate).
    rewrite str_app_nil_r.
    change (join "/" (x :: y :: M)) with (x ++ "/" ++ join "/" (y :: M)).
    cbn [append]. now rewrite !str_app_assoc.
Qed.

(** The capture of [add_parens]: the segments [cs] to [ce] joined by [/]
    inside one pair of parentheses, in the place of those segments. *)
Lemma join_add_parens cs ce J :
  cs <= ce -> ce < List.length J ->
  join "/" (V1.add_parens cs ce J)
  = join "/" (app (firstn cs J)
                  (("(" ++ join "/" (firstn (S ce - cs) (skipn cs J)) ++ ")") :: skipn (S ce) J)).
Proof.
  intros Hle Hlt.
  set (A := firstn cs J). set (Mf := firstn (S ce - cs) (skipn cs J)). set (C := skipn (S ce) J).
  assert (HJ : J = app A (app Mf C)).
  { unfold A, Mf, C. rewrite <- (firstn_skipn cs J) at 1. f_equal.
    rewrite <- (firstn_skipn (S ce - cs) (skipn cs J)) at 1. f_equal.
    rewrite skipn_skipn. f_equal. lia. }
  assert (HA : List.length A = cs) by (unfold A; rewrite length_firstn; lia).
  assert (HM : List.length Mf = S ce - cs)
    by (unfold Mf; rewrite length_firstn, length_skipn; lia).
  destruct Mf as [|x M] eqn:EM; [cbn [List.length] in HM; lia|].
  unfold V1.add_parens. rewrite HJ, !add_parens_from_app2.
  rewrite (add_parens_from_none 0 cs ce A) by (intros k Hk1 Hk2; lia).
  rewrite (add_parens_from_none (0 + List.length A + List.length (x :: M)) cs ce C)
    by (intros k Hk1 Hk2; cbn [List.length] in *; lia).
  apply join_app_mid; [destruct M; discriminate|].
  cbn [List.length] in HM. rewrite Nat.add_0_l, HA.
  assert (Hce : ce = cs + List.length M) by lia.
  rewrite Hce. apply add_parens_span.
Qed.




(* ================================================================== *)
(** * Further properties of the code *)

(** ** The member check, both directions *)

Lemma check_members_none_iff ms : forall u,
  check_members u ms = None <->
  Forall (fun m => m_name m <> None) ms /\ NoDup (map m_name ms) /\
  (forall n, In (Some n) (map m_name ms) -> ~ In n u).
Proof.
  induction ms as [|m ms IH]; intros u.
  - simpl. split; [intros _; repeat split; [constructor|constructor|intros n []]|reflexivity].
  - simpl. destruct (m_name m) as [n|] eqn:En.
    + destruct (existsb (String.eqb n) u) eqn:Ex.
      * split; [discriminate|]. intros [_ [_ Hf]]. exfalso.
        apply existsb_exists in Ex. destruct Ex as [x [Hx Hxe]].
        apply String.eqb_eq in Hxe. subst x. exact (Hf n (or_introl eq_refl) Hx).
      * rewrite IH. split.
        -- intros [Hnn [Hnd Hf]]. split; [constructor; [congruence|exact Hnn]|]. split.
           ++ constructor; [|exact Hnd]. intros Hin. exact (Hf n Hin (or_introl eq_refl)).
           ++ intros k [Hk|Hk] Hku.
              ** inversion Hk; subst k. apply Bool.not_true_iff_false in Ex. apply Ex.
                 apply existsb_exists. exists n. split; [exact Hku|apply String.eqb_refl].
              ** exact (Hf k Hk (or_intror Hku)).
        -- intros [Hnn [Hnd Hf]]. inversion Hnn as [|? ? _ Hnn']; subst.
           inversion Hnd as [|? ? Hnotin Hnd']; subst.
           split; [exact Hnn'|]. split; [exact Hnd'|].
           intros k Hk [Hkn|Hku].
           ++ subst k. exact (Hnotin Hk).
           ++ exact (Hf k (or_intror Hk) Hku).
    + split; [discriminate|]. intros [Hnn _]. inversion Hnn. contradiction.
Qed.

Lemma map_throw_members (f : string -> option member) pcwd cwd l : forall ms,
  (forall x y, f x = Some y -> m_file y = x /\ m_relative y = rp pcwd cwd x) ->
  map_throw f l = Some ms ->
  map m_file ms = l /\ Forall (fun m => m_relative m = rp pcwd cwd (m_file m)) ms.
Proof.
  induction l as [|x l IH]; intros ms Hf H.
  - simpl in H. inversion H; subst. split; [reflexivity|constructor].
  - simpl in H. destruct (f x) as [y|] eqn:Ex; [|discriminate].
    destruct (map_throw f l) as [ys|] eqn:El; [|discriminate].
    simpl in H. inversion H; subst ms.
    destruct (Hf x y Ex) as [H1 H2]. destruct (IH ys Hf eq_refl) as [H3 H4].
    split; [simpl; congruence|constructor; [congruence|exact H4]].
Qed.

Lemma V1_generateMembers_files idf pcwd found set cwd ms :
  V1.generateMembers idf pcwd found set cwd = Some ms ->
  map m_file ms = found /\ Forall (fun m => m_relative m = rp pcwd cwd (m_file m)) ms.
Proof.
  unfold V1.generateMembers.
  destruct (V1.makeSubpathExpression set) as [e|]; [|discriminate].
  destruct (new_RegExp e "i") as [re|]; [|discriminate].
  apply map_throw_members. intros x y H.
  destruct (str_match x re) as [m|]; [|discriminate].
  destruct (group m 1) as [s|]; [|discriminate].
  inversion H; subst. split; reflexivity.
Qed.

Lemma V2_generateMembers_files idf pcwd cext cpp found set options cwd index ms :
  V2.generateMembers idf pcwd cext cpp found set options cwd index = Some ms ->
  map m_file ms = found /\ Forall (fun m => m_relative m = rp pcwd cwd (m_file m)) ms.
Proof.
  unfold V2.generateMembers. destruct (Z.leb 0 index).
  - destruct set as [|ps rest]; [discriminate|]. unfold V2.generateMembers_indexed.
    destruct (new_RegExp _ _) as [re|]; [|discriminate]. cbv zeta.
    destruct (match V2.fileIndex ps with Some fi => _ | None => false end);
      apply map_throw_members; intros x y H;
      (destruct (match str_match x re with Some m => _ | None => None end) as [p|];
       [|discriminate]);
      inversion H; subst; split; reflexivity.
  - intros H. inversion H; subst ms. rewrite map_map. simpl. split; [apply map_id|].
    apply Forall_map. apply Forall_forall. intros x _. reflexivity.
Qed.

Lemma digits_value_nonneg s : forall acc v,
  V2.digits_value acc s = Some v -> (0 <= acc)%Z -> (0 <= v)%Z.
Proof.
  induction s as [|c s IH]; intros acc v H Ha; cbn [V2.digits_value] in H.
  - inversion H; subst. exact Ha.
  - destruct (is_digit c); [|discriminate]. apply (IH _ _ H). lia.
Qed.

Lemma indexed_name_nonneg name n : V2.indexed_name name = Some n -> (0 <= n)%Z.
Proof.
  unfold V2.indexed_name. intros H.
  destruct name as [|c0 s0]; [discriminate H|].
  destruct c0 as [[] [] [] [] [] [] [] []]; try discriminate H.
  destruct s0 as [|c s]; [discriminate H|].
  destruct (is_digit c); [|discriminate H].
  apply (digits_value_nonneg _ _ _ H). lia.
Qed.

Lemma index_of_indexed_specifier specs imported l n :
  In (ImportSpecifier imported l) specs -> V2.indexed_name imported = Some n ->
  (0 <= V2.indexFromImportSpecifier specs)%Z.
Proof.
  intros Hin Hn. unfold V2.indexFromImportSpecifier.
  match goal with |- context [find ?p specs] => destruct (find p specs) as [sp|] eqn:Ef end.
  - apply find_some in Ef. destruct Ef as [_ Hp].
    destruct sp as [imp loc| |]; try discriminate.
    destruct (V2.indexed_name imp) as [k|] eqn:Ek; [|discriminate].
    exact (indexed_name_nonneg _ _ Ek).
  - exfalso. pose proof (find_none _ _ Ef _ Hin) as Hx. simpl in Hx. rewrite Hn in Hx.
    discriminate.
Qed.

Lemma index_of_single_indexed imported l n :
  V2.indexed_name imported = Some n ->
  V2.indexFromImportSpecifier [ImportSpecifier imported l] = n.
Proof.
  intros Hn. unfold V2.indexFromImportSpecifier. simpl. rewrite Hn. simpl. rewrite Hn. reflexivity.
Qed.

Lemma bare_imports_of_members pcwd cwd ms :
  Forall (fun m => m_relative m = rp pcwd cwd (m_file m)) ms ->
  map (fun m => SImportBare (m_relative m)) ms =
  map (fun f => SImportBare (rp pcwd cwd f)) (map m_file ms).
Proof.
  induction ms as [|m ms IH]; intros H; [reflexivity|].
  inversion H; subst. simpl. f_equal; [congruence|exact (IH H3)].
Qed.

Lemma str_app_inj_l (p a b : string) : p ++ a = p ++ b -> a = b.
Proof. induction p as [|c p IH]; simpl; [tauto|]. intros H. inversion H. exact (IH H1). Qed.

Lemma NoDup_map_inj {A B} (f : A -> B) l :
  (forall x y, f x = f y -> x = y) -> NoDup l -> NoDup (map f l).
Proof.
  intros Hf Hl. induction Hl as [|x l Hx Hl IH]; simpl; constructor; [|exact IH].
  intros Hin. apply in_map_iff in Hin. destruct Hin as [y [Hy Hyl]].
  apply Hf in Hy. subst. contradiction.
Qed.

Lemma names_of_checked ms :
  Forall (fun m => m_name m <> None) ms ->
  map m_name ms = map Some (map (fun m => js_str (m_name m)) ms).
Proof.
  induction ms as [|m ms IH]; intros H; [reflexivity|].
  inversion H; subst. simpl. rewrite (IH H3). destruct (m_name m); [reflexivity|contradiction].
Qed.

Lemma namespace_binds l ms :
  flat_map stmt_binds (namespace_stmts l ms) =
  app (map (fun m => "_" ++ l ++ "_" ++ js_str (m_name m)) ms) [l].
Proof.
  unfold namespace_stmts. rewrite flat_map_app. simpl. try rewrite app_nil_r. f_equal.
  induction ms as [|m ms IH]; [reflexivity|]. simpl. now rewrite IH.
Qed.

(** X1: the member check of both versions passes exactly when every
    member has a non-null identifier and no two members share one. *)
Theorem member_check_passes_iff :
  forall members,
    check_members [] members = None <->
    Forall (fun m => m_name m <> None) members /\ NoDup (map m_name members).
Proof.
  intros members. rewrite check_members_none_iff. split.
  - intros [H1 [H2 _]]. split; assumption.
  - intros [H1 H2]. split; [exact H1|]. split; [exact H2|]. intros n _ [].
Qed.

(** X3: an [import * as l] of a glob whose members pass the check is
    replaced, in both versions, by a default import of every member under
    the binding [_l_<name>], a [const l] object mapping each name to its
    binding, and [Object.freeze(l)]. *)
Theorem namespace_import_rewrite :
  (forall idf pcwd hm gs l source filename found set members,
      hm source = true ->
      startsWith (stripped_pattern source) "." = true ->
      gs (stripped_pattern source) (path_dirname filename) = (found, set) ->
      V1.generateMembers idf pcwd found set (path_dirname filename) = Some members ->
      check_members [] members = None ->
      V1.ImportDeclaration idf pcwd hm gs [ImportNamespaceSpecifier l] source filename
      = Replaced (namespace_stmts l members)) /\
  (forall idf pcwd hm gs cext cpp l value filename found set options members,
      (startsWith value "glob:" = true \/ hm value = true) ->
      stripped_pattern value <> "" ->
      startsWith (stripped_pattern value) "/" = false ->
      gs (stripped_pattern value) (path_dirname filename) = (found, set, options) ->
      V2.generateMembers idf pcwd cext cpp found set options (path_dirname filename) (-1)
        = Some members ->
      check_members [] members = None ->
      V2.ImportDeclaration idf pcwd hm gs cext cpp [ImportNamespaceSpecifier l] (Some value)
        filename
      = Replaced (namespace_stmts l members)).
Proof.
  split.
  - intros idf pcwd hm gs l source filename found set members Hm Hr Hg Hgm Hc.
    rewrite (V1_ImportDeclaration_members idf pcwd hm gs [ImportNamespaceSpecifier l] source
               filename found set members Hm eq_refl Hr Hg Hgm), Hc.
    simpl. try rewrite app_nil_r. reflexivity.
  - intros idf pcwd hm gs cext cpp l value filename found set options members Hv Hne Ha Hg Hgm Hc.
    rewrite (V2_ImportDeclaration_members idf pcwd hm gs cext cpp [ImportNamespaceSpecifier l]
               value filename found set options members Hv eq_refl Hne Ha eq_refl Hg Hgm), Hc.
    simpl. try rewrite app_nil_r. reflexivity.
Qed.

Lemma namespace_import_rewrite_witness :
  V1.ImportDeclaration identifierfy_model [] hasMagic_model (glob_const found_ab set_dot_star_txt)
    [ImportNamespaceSpecifier "ns"] "./*.txt" importer = Replaced (namespace_stmts "ns" members_ab) /\
  V2.ImportDeclaration identifierfy_model [] hasMagic_model (glob_const2 found_ab set_dot_star_txt)
    cext_txt cpp_dot [ImportNamespaceSpecifier "ns"] (Some "./*.txt") importer
  = Replaced (namespace_stmts "ns" members_ab).
Proof.
  split.
  - apply (proj1 namespace_import_rewrite identifierfy_model [] hasMagic_model
             (glob_const found_ab set_dot_star_txt) "ns" "./*.txt" importer found_ab
             set_dot_star_txt members_ab); vm_compute; reflexivity.
  - apply (proj2 namespace_import_rewrite identifierfy_model [] hasMagic_model
             (glob_const2 found_ab set_dot_star_txt) cext_txt cpp_dot "ns" "./*.txt" importer
             found_ab set_dot_star_txt mm_defaults members_ab);
      try (vm_compute; reflexivity).
    + right. reflexivity.
    + discriminate.
Defined.

(** X4: once the member check has passed, the namespace rewrite never
    declares a local binding twice: the bindings [_l_<name>] of the members
    are pairwise distinct and differ from [l]. *)
Theorem namespace_bindings_distinct :
  forall l members,
    check_members [] members = None ->
    NoDup (flat_map stmt_binds (namespace_stmts l members)).
Proof.
  intros l members Hc. rewrite namespace_binds.
  apply check_members_none_iff in Hc. destruct Hc as [Hnn [Hnd _]].
  rewrite names_of_checked in Hnd by exact Hnn. apply NoDup_map_inv in Hnd.
  apply NoDup_app.
  - replace (map (fun m => "_" ++ l ++ "_" ++ js_str (m_name m)) members)
      with (map (fun x => ("_" ++ l ++ "_") ++ x) (map (fun m => js_str (m_name m)) members)).
    + apply NoDup_map_inj; [|exact Hnd]. intros x y. apply str_app_inj_l.
    + rewrite map_map. apply map_ext. intros m. now rewrite !str_app_assoc.
  - constructor; [intros []|constructor].
  - intros a Ha [Hl|[]]. subst a. apply in_map_iff in Ha. destruct Ha as [m [Hm _]].
    apply (f_equal String.length) in Hm. rewrite !length_app_str in Hm. simpl in Hm. lia.
Qed.

Lemma namespace_bindings_distinct_witness :
  NoDup (flat_map stmt_binds (namespace_stmts "ns" members_ab)).
Proof. apply namespace_bindings_distinct. vm_compute. reflexivity. Defined.

(** X5: an import without specifiers of a glob whose members pass the
    check is replaced, in both versions, by one bare [import '<rp f>'] per
    glob match [f], in the order of the matches. *)
Theorem side_effect_import_rewrite :
  (forall idf pcwd hm gs source filename found set members,
      hm source = true ->
      startsWith (stripped_pattern source) "." = true ->
      gs (stripped_pattern source) (path_dirname filename) = (found, set) ->
      V1.generateMembers idf pcwd found set (path_dirname filename) = Some members ->
      check_members [] members = None ->
      V1.ImportDeclaration idf pcwd hm gs [] source filename
      = Replaced (map (fun f => SImportBare (rp pcwd (path_dirname filename) f)) found)) /\
  (forall idf pcwd hm gs cext cpp value filename found set options members,
      (startsWith value "glob:" = true \/ hm value = true) ->
      stripped_pattern value <> "" ->
      startsWith (stripped_pattern value) "/" = false ->
      gs (stripped_pattern value) (path_dirname filename) = (found, set, options) ->
      V2.generateMembers idf pcwd cext cpp found set options (path_dirname filename) (-1)
        = Some members ->
      check_members [] members = None ->
      V2.ImportDeclaration idf pcwd hm gs cext cpp [] (Some value) filename
      = Replaced (map (fun f => SImportBare (rp pcwd (path_dirname filename) f)) found)).
Proof.
  split.
  - intros idf pcwd hm gs source filename found set members Hm Hr Hg Hgm Hc.
    rewrite (V1_ImportDeclaration_members idf pcwd hm gs [] source filename found set members
               Hm eq_refl Hr Hg Hgm), Hc.
    destruct (V1_generateMembers_files _ _ _ _ _ _ Hgm) as [Hf Hrel].
    rewrite (bare_imports_of_members _ _ _ Hrel), Hf. reflexivity.
  - intros idf pcwd hm gs cext cpp value filename found set options members Hv Hne Ha Hg Hgm Hc.
    rewrite (V2_ImportDeclaration_members idf pcwd hm gs cext cpp [] value filename found set
               options members Hv eq_refl Hne Ha eq_refl Hg Hgm), Hc.
    destruct (V2_generateMembers_files _ _ _ _ _ _ _ _ _ _ Hgm) as [Hf Hrel].
    rewrite (bare_imports_of_members _ _ _ Hrel), Hf. reflexivity.
Qed.

Lemma side_effect_import_rewrite_witness :
  V1.ImportDeclaration identifierfy_model [] hasMagic_model (glob_const found_ab set_dot_star_txt)
    [] "./*.txt" importer
  = Replaced (map (fun f => SImportBare (rp [] (path_dirname importer) f)) found_ab) /\
  V2.ImportDeclaration identifierfy_model [] hasMagic_model (glob_const2 found_ab set_dot_star_txt)
    cext_txt cpp_dot [] (Some "./*.txt") importer
  = Replaced (map (fun f => SImportBare (rp [] (path_dirname importer) f)) found_ab).
Proof.
  split.
  - apply (proj1 side_effect_import_rewrite identifierfy_model [] hasMagic_model
             (glob_const found_ab set_dot_star_txt) "./*.txt" importer found_ab
             set_dot_star_txt members_ab); vm_compute; reflexivity.
  - apply (proj2 side_effect_import_rewrite identifierfy_model [] hasMagic_model
             (glob_const2 found_ab set_dot_star_txt) cext_txt cpp_dot "./*.txt" importer
             found_ab set_dot_star_txt mm_defaults members_ab);
      try (vm_compute; reflexivity).
    + right. reflexivity.
    + discriminate.
Defined.

(** X6: in version 2, a single named import whose imported name is [$N]
    (a dollar sign and decimal digits) selects capture [N] and, once the
    members pass the check, is replaced like a namespace import under its
    local name. *)
Theorem indexed_import_rewrite :
  forall idf pcwd hm gs cext cpp imported l n value filename found set options members,
    V2.indexed_name imported = Some n ->
    (startsWith value "glob:" = true \/ hm value = true) ->
    stripped_pattern value <> "" ->
    startsWith (stripped_pattern value) "/" = false ->
    gs (stripped_pattern value) (path_dirname filename) = (found, set, options) ->
    V2.generateMembers idf pcwd cext cpp found set options (path_dirname filename) n
      = Some members ->
    check_members [] members = None ->
    V2.ImportDeclaration idf pcwd hm gs cext cpp [ImportSpecifier imported l] (Some value)
      filename
    = Replaced (namespace_stmts l members).
Proof.
  intros idf pcwd hm gs cext cpp imported l n value filename found set options members
    Hn Hv Hne Ha Hg Hgm Hc.
  pose proof (index_of_single_indexed imported l n Hn) as Hi.
  rewrite <- Hi in Hgm.
  rewrite (V2_ImportDeclaration_members idf pcwd hm gs cext cpp [ImportSpecifier imported l]
             value filename found set options members Hv eq_refl Hne Ha
             (Bool.andb_false_r _) Hg Hgm), Hc.
  rewrite Hi. cbn [V2.replace_specifiers].
  replace (Z.ltb n 0) with false by (symmetry; apply Z.ltb_ge; exact (indexed_name_nonneg _ _ Hn)).
  try rewrite app_nil_r. reflexivity.
Qed.

Lemma indexed_import_rewrite_witness :
  V2.ImportDeclaration identifierfy_model [] hasMagic_model (glob_const2 found_ab set_dot_star_txt)
    cext_txt cpp_dot [ImportSpecifier "$0" "ns"] (Some "./*.txt") importer
  = Replaced (namespace_stmts "ns" members_ab).
Proof.
  apply (indexed_import_rewrite identifierfy_model [] hasMagic_model
           (glob_const2 found_ab set_dot_star_txt) cext_txt cpp_dot "$0" "ns" 0%Z "./*.txt"
           importer found_ab set_dot_star_txt mm_defaults members_ab);
    try (vm_compute; reflexivity).
  - right. reflexivity.
  - discriminate.
Defined.

(** X7: version 2 rejects an import that mixes a [$N] named import with any
    other specifier with ["Cannot mix indexed members"], before globbing. *)
Theorem indexed_mix_rejected :
  forall idf pcwd hm gs cext cpp specs imported l n value filename,
    In (ImportSpecifier imported l) specs ->
    V2.indexed_name imported = Some n ->
    1 < List.length specs ->
    (startsWith value "glob:" = true \/ hm value = true) ->
    hasImportDefaultSpecifier specs = false ->
    stripped_pattern value <> "" ->
    startsWith (stripped_pattern value) "/" = false ->
    V2.ImportDeclaration idf pcwd hm gs cext cpp specs (Some value) filename
    = Failed "Cannot mix indexed members".
Proof.
  intros idf pcwd hm gs cext cpp specs imported l n value filename Hin Hn Hlen Hv Hd Hne Ha.
  assert (Hmix : (Z.leb 0 (V2.indexFromImportSpecifier specs) && Nat.ltb 1 (List.length specs))%bool
                 = true).
  { apply andb_true_intro. split; [apply Z.leb_le|apply Nat.ltb_lt; exact Hlen].
    exact (index_of_indexed_specifier specs imported l n Hin Hn). }
  unfold V2.ImportDeclaration. unfold stripped_pattern in *.
  apply String.eqb_neq in Hne.
  destruct (startsWith value "glob:") eqn:Eg.
  - rewrite Hd, Hne, Ha, Hmix. reflexivity.
  - destruct Hv as [Hv|Hv]; [discriminate|]. rewrite Hv. simpl.
    rewrite Hd, Hne, Ha, Hmix. reflexivity.
Qed.

Lemma indexed_mix_rejected_witness :
  V2.ImportDeclaration identifierfy_model [] hasMagic_model (glob_const2 found_ab set_dot_star_txt)
    cext_txt cpp_dot [ImportSpecifier "$1" "one"; ImportNamespaceSpecifier "ns"]
    (Some "./*.txt") importer
  = Failed "Cannot mix indexed members".
Proof.
  apply (indexed_mix_rejected identifierfy_model [] hasMagic_model
           (glob_const2 found_ab set_dot_star_txt) cext_txt cpp_dot
           [ImportSpecifier "$1" "one"; ImportNamespaceSpecifier "ns"] "$1" "one" 1%Z);
    try (vm_compute; reflexivity).
  - left. reflexivity.
  - right. reflexivity.
  - discriminate.
Defined.

(** ** Error messages and the [glob:] prefix *)

Lemma str_app_inj_r (a b s : string) : a ++ s = b ++ s -> a = b.
Proof.
  revert b. induction a as [|c a IH]; intros b H.
  - destruct b as [|d b]; [reflexivity|]. exfalso.
    apply (f_equal String.length) in H. rewrite !length_app_str in H. simpl in H. lia.
  - destruct b as [|d b].
    + exfalso. apply (f_equal String.length) in H. rewrite !length_app_str in H. simpl in H. lia.
    + simpl in H. inversion H. f_equal. apply IH. exact H2.
Qed.

Lemma check_members_not_missing u ms p :
  check_members u ms <> Some ("Missing glob pattern '" ++ p ++ "'").
Proof.
  revert u. induction ms as [|m ms IH]; intros u; simpl; [discriminate|].
  destruct (m_name m) as [n|]; [|discriminate].
  destruct (existsb (String.eqb n) u); [discriminate|apply IH].
Qed.

Lemma V1_replace_not_missing members specs p : forall acc,
  V1.replace_specifiers members specs acc <> Failed ("Missing glob pattern '" ++ p ++ "'").
Proof.
  induction specs as [|sp specs IH]; intros acc; simpl; [discriminate|].
  destruct sp as [i l|l|l]; [|apply IH|apply IH].
  destruct (find_member i members); [apply IH|discriminate].
Qed.

Lemma V2_replace_not_missing index members specs p :
  V2.replace_specifiers index members specs <> inl ("Missing glob pattern '" ++ p ++ "'").
Proof.
  induction specs as [|sp specs IH]; simpl; [discriminate|].
  destruct sp as [i l|l|l].
  - destruct (Z.ltb index 0).
    + destruct (find_member i members); [|discriminate].
      destruct (V2.replace_specifiers index members specs); [|discriminate]. exact IH.
    + destruct (V2.replace_specifiers index members specs); [|discriminate]. exact IH.
  - destruct (V2.replace_specifiers index members specs); [|discriminate]. exact IH.
  - destruct (V2.replace_specifiers index members specs); [|discriminate]. exact IH.
Qed.

Lemma replace_glob_prefix_app p : replace_glob_prefix ("glob:" ++ p) = p.
Proof.
  unfold replace_glob_prefix. simpl. rewrite Nat.sub_0_r.
  pose proof (substring_app_l p "") as H. rewrite str_app_nil_r in H. exact H.
Qed.

Lemma startsWith_inv s p : startsWith s p = true -> exists r, s = p ++ r.
Proof.
  revert s. induction p as [|a p IH]; intros s H; [exists s; reflexivity|].
  destruct s as [|b s]; [discriminate|]. simpl in H.
  apply andb_prop in H. destruct H as [Hab H]. apply Ascii.eqb_eq in Hab. subst b.
  destruct (IH s H) as [r ->]. exists r. reflexivity.
Qed.

Lemma glob_prefix_split s :
  startsWith s "glob:" = true -> s = "glob:" ++ replace_glob_prefix s.
Proof.
  intros H. destruct (startsWith_inv s "glob:" H) as [r ->].
  rewrite replace_glob_prefix_app. reflexivity.
Qed.

Lemma V2_continue_not_missing_nonempty idf pcwd gs cext cpp specs filename pattern p :
  pattern <> "" ->
  (if hasImportDefaultSpecifier specs then Failed "Cannot import the default member" else
   if String.eqb pattern "" then Failed ("Missing glob pattern '" ++ pattern ++ "'") else
   if startsWith pattern "/" then
     Failed ("Glob pattern must be relative, was '" ++ pattern ++ "'") else
   if (Z.leb 0 (V2.indexFromImportSpecifier specs) && Nat.ltb 1 (List.length specs))%bool then
     Failed "Cannot mix indexed members" else
   let '(found, set, options) := gs pattern (path_dirname filename) in
   match V2.generateMembers idf pcwd cext cpp found set options (path_dirname filename)
           (V2.indexFromImportSpecifier specs) with
   | None => Crashed
   | Some members =>
       match check_members [] members with
       | Some msg => Failed msg
       | None =>
           match specs with
           | [] => Replaced (map (fun m => SImportBare (m_relative m)) members)
           | _ =>
               match V2.replace_specifiers (V2.indexFromImportSpecifier specs) members specs with
               | inl msg => Failed msg
               | inr sts => Replaced sts
               end
           end
       end
   end) <> Failed ("Missing glob pattern '" ++ p ++ "'").
Proof.
  intros Hne. apply String.eqb_neq in Hne. rewrite Hne.
  destruct (hasImportDefaultSpecifier specs); [discriminate|].
  destruct (startsWith pattern "/"); [discriminate|].
  destruct (_ && _)%bool; [discriminate|].
  destruct (gs pattern (path_dirname filename)) as [[found set] options].
  destruct (V2.generateMembers _ _ _ _ _ _ _ _ _) as [members|]; [|discriminate].
  destruct (check_members [] members) as [msg|] eqn:Ec.
  - intros H. inversion H; subst msg. exact (check_members_not_missing _ _ _ Ec).
  - destruct specs; [discriminate|].
    destruct (V2.replace_specifiers _ _ _) as [msg|] eqn:Er; [|discriminate].
    intros H. inversion H; subst msg. exact (V2_replace_not_missing _ _ _ _ Er).
Qed.

Lemma missing_msg_inj a b :
  Failed ("Missing glob pattern '" ++ a ++ "'") = Failed ("Missing glob pattern '" ++ b ++ "'") ->
  a = b.
Proof.
  intros H. injection H as H. try apply str_app_inj_l in H. exact (str_app_inj_r _ _ _ H).
Qed.

(** X8: the ["Missing glob pattern"] error.  Version 1 raises it exactly
    for a source without glob magic that starts with [glob:], and quotes the
    whole source.  Version 2 raises it exactly when the source starts with
    [glob:] or has glob magic, no default specifier is imported, and nothing
    is left of the pattern once a leading [glob:] is removed; so it always
    quotes an empty pattern. *)
Theorem missing_pattern_message :
  (forall idf pcwd hm gs specs source filename p,
      V1.ImportDeclaration idf pcwd hm gs specs source filename
      = Failed ("Missing glob pattern '" ++ p ++ "'") ->
      hm source = false /\ startsWith source "glob:" = true /\ p = source) /\
  (forall idf pcwd hm gs specs source filename,
      hm source = false -> startsWith source "glob:" = true ->
      V1.ImportDeclaration idf pcwd hm gs specs source filename
      = Failed ("Missing glob pattern '" ++ source ++ "'")) /\
  (forall idf pcwd hm gs cext cpp specs value filename p,
      V2.ImportDeclaration idf pcwd hm gs cext cpp specs (Some value) filename
      = Failed ("Missing glob pattern '" ++ p ++ "'") ->
      p = "" /\ (startsWith value "glob:" = true \/ hm value = true) /\
      hasImportDefaultSpecifier specs = false /\ stripped_pattern value = "") /\
  (forall idf pcwd hm gs cext cpp specs value filename,
      (startsWith value "glob:" = true \/ hm value = true) ->
      hasImportDefaultSpecifier specs = false ->
      stripped_pattern value = "" ->
      V2.ImportDeclaration idf pcwd hm gs cext cpp specs (Some value) filename
      = Failed "Missing glob pattern ''").
Proof.
  split; [|split; [|split]].
  - intros idf pcwd hm gs specs source filename p H.
    unfold V1.ImportDeclaration in H. cbv zeta in H.
    destruct (hm source) eqn:Hm; cbn [negb] in H; cbv iota in H.
    + destruct (startsWith source "glob:");
        (destruct (hasImportDefaultSpecifier specs); [discriminate H|]);
        (destruct (negb (startsWith _ ".")); [discriminate H|]);
        (destruct (gs _ (path_dirname filename)) as [found set];
         destruct (V1.generateMembers _ _ _ _ _) as [members|]; [|discriminate H];
         destruct (check_members [] members) as [msg|] eqn:Ec;
         [injection H as H; subst msg; exfalso; exact (check_members_not_missing _ _ _ Ec)|];
         destruct specs; [discriminate H|];
         exfalso; exact (V1_replace_not_missing _ _ _ _ H)).
    + destruct (startsWith source "glob:") eqn:Eg; [|discriminate H].
      apply missing_msg_inj in H. subst p. split; [reflexivity|split; reflexivity].
  - intros idf pcwd hm gs specs source filename Hm Hg.
    unfold V1.ImportDeclaration. cbv zeta. rewrite Hm, Hg. reflexivity.
  - intros idf pcwd hm gs cext cpp specs value filename p H.
    unfold V2.ImportDeclaration in H. cbv zeta beta in H. unfold stripped_pattern.
    destruct (startsWith value "glob:") eqn:Eg.
    + destruct (String.string_dec (replace_glob_prefix value) "") as [Eq|Eq].
      * rewrite Eq in H |- *.
        destruct (hasImportDefaultSpecifier specs); [discriminate H|].
        try (rewrite (String.eqb_refl "") in H; cbv iota in H).
        split; [symmetry; exact (missing_msg_inj _ _ H)|].
        split; [left; reflexivity|]. split; reflexivity.
      * exfalso. exact (V2_continue_not_missing_nonempty _ _ _ _ _ _ _ _ p Eq H).
    + destruct (hm value) eqn:Hm; cbn [negb] in H; cbv iota in H; [|discriminate H].
      destruct (String.string_dec value "") as [Eq|Eq].
      * rewrite Eq in H |- *.
        destruct (hasImportDefaultSpecifier specs); [discriminate H|].
        try (rewrite (String.eqb_refl "") in H; cbv iota in H).
        split; [symmetry; exact (missing_msg_inj _ _ H)|].
        split; [right; reflexivity|]. split; reflexivity.
      * exfalso. exact (V2_continue_not_missing_nonempty _ _ _ _ _ _ _ _ p Eq H).
  - intros idf pcwd hm gs cext cpp specs value filename Hv Hd He.
    unfold V2.ImportDeclaration. cbv zeta beta. unfold stripped_pattern in He.
    destruct (startsWith value "glob:") eqn:Eg.
    + rewrite He, Hd. reflexivity.
    + destruct Hv as [Hv|Hv]; [discriminate|]. rewrite Hv. cbn [negb]. cbv iota.
      rewrite He, Hd. reflexivity.
Qed.

Lemma missing_pattern_message_witness :
  (hasMagic_model "glob:foo" = false /\ startsWith "glob:foo" "glob:" = true /\
   "glob:foo" = "glob:foo") /\
  V1.ImportDeclaration identifierfy_model [] hasMagic_model (glob_const [] [])
    [ImportNamespaceSpecifier "ns"] "glob:foo" importer = Failed "Missing glob pattern 'glob:foo'" /\
  ("" = "" /\ (startsWith "glob:" "glob:" = true \/ hasMagic_model "glob:" = true) /\
   hasImportDefaultSpecifier [] = false /\ stripped_pattern "glob:" = "") /\
  V2.ImportDeclaration identifierfy_model [] hasMagic_model (glob_const2 [] []) cext_txt cpp_dot
    [ImportNamespaceSpecifier "ns"] (Some "glob:") importer = Failed "Missing glob pattern ''".
Proof.
  split; [|split; [|split]].
  - apply (proj1 missing_pattern_message identifierfy_model [] hasMagic_model (glob_const [] [])
             [ImportNamespaceSpecifier "ns"] "glob:foo" importer "glob:foo").
    vm_compute. reflexivity.
  - apply (proj1 (proj2 missing_pattern_message)); reflexivity.
  - apply (proj1 (proj2 (proj2 missing_pattern_message)) identifierfy_model [] hasMagic_model
             (glob_const2 [] []) cext_txt cpp_dot [] "glob:" importer "").
    vm_compute. reflexivity.
  - apply (proj2 (proj2 (proj2 missing_pattern_message))); [left|..]; reflexivity.
Defined.

(** X9: the [glob:] prefix is optional on a pattern with magic: importing
    ["glob:" ++ p] is handled exactly like importing [p] itself, in both
    versions, as long as [p] has magic and does not start with [glob:] again
    (version 1 also asks that the prefixed source still has magic). *)
Theorem glob_prefix_optional :
  (forall idf pcwd hm gs specs p filename,
      hm ("glob:" ++ p) = true -> hm p = true -> startsWith p "glob:" = false ->
      V1.ImportDeclaration idf pcwd hm gs specs ("glob:" ++ p) filename
      = V1.ImportDeclaration idf pcwd hm gs specs p filename) /\
  (forall idf pcwd hm gs cext cpp specs p filename,
      hm p = true -> startsWith p "glob:" = false ->
      V2.ImportDeclaration idf pcwd hm gs cext cpp specs (Some ("glob:" ++ p)) filename
      = V2.ImportDeclaration idf pcwd hm gs cext cpp specs (Some p) filename).
Proof.
  split.
  - intros idf pcwd hm gs specs p filename Hm1 Hm2 Hs.
    unfold V1.ImportDeclaration. cbv zeta.
    rewrite Hm1, Hm2, Hs, startsWith_app, replace_glob_prefix_app. reflexivity.
  - intros idf pcwd hm gs cext cpp specs p filename Hm Hs.
    unfold V2.ImportDeclaration. cbv zeta beta.
    rewrite Hs, Hm, startsWith_app, replace_glob_prefix_app. reflexivity.
Qed.

Lemma glob_prefix_optional_witness :
  (hasMagic_model ("glob:" ++ "./*.txt") = true /\ hasMagic_model "./*.txt" = true /\
   startsWith "./*.txt" "glob:" = false /\
   V1.ImportDeclaration identifierfy_model [] hasMagic_model (glob_const found_ab set_dot_star_txt)
     [] ("glob:" ++ "./*.txt") importer
   = V1.ImportDeclaration identifierfy_model [] hasMagic_model (glob_const found_ab set_dot_star_txt)
     [] "./*.txt" importer) /\
  (hasMagic_model "./*.txt" = true /\ startsWith "./*.txt" "glob:" = false /\
   V2.ImportDeclaration identifierfy_model [] hasMagic_model (glob_const2 found_ab set_dot_star_txt)
     cext_txt cpp_dot [] (Some ("glob:" ++ "./*.txt")) importer
   = V2.ImportDeclaration identifierfy_model [] hasMagic_model (glob_const2 found_ab set_dot_star_txt)
     cext_txt cpp_dot [] (Some "./*.txt") importer).
Proof.
  split.
  - split; [reflexivity|]. split; [reflexivity|]. split; [reflexivity|].
    apply (proj1 glob_prefix_optional); reflexivity.
  - split; [reflexivity|]. split; [reflexivity|].
    apply (proj2 glob_prefix_optional); reflexivity.
Defined.

Lemma digits_value_uint u acc :
  V2.digits_value (Z.of_nat acc) (DecimalString.NilEmpty.string_of_uint u)
  = Some (Z.of_nat (Nat.of_uint_acc u acc)).
Proof.
  revert acc. induction u as [|u IH|u IH|u IH|u IH|u IH|u IH|u IH|u IH|u IH|u IH]; intros acc;
    [reflexivity|..]; cbn [DecimalString.NilEmpty.string_of_uint V2.digits_value Nat.of_uint_acc];
    rewrite Nat.tail_mul_spec, <- IH; match goal with |- (if ?b then _ else _) = _ => replace b with true by reflexivity end;
    f_equal; simpl (nat_of_ascii _ - 48); lia.
Qed.

Lemma find_no_indexed specs post :
  no_indexed_import specs ->
  find (fun sp => match sp with
                  | ImportSpecifier imported _ =>
                      match V2.indexed_name imported with Some _ => true | None => false end
                  | _ => false
                  end) (app specs post)
  = find (fun sp => match sp with
                    | ImportSpecifier imported _ =>
                        match V2.indexed_name imported with Some _ => true | None => false end
                    | _ => false
                    end) post.
Proof.
  induction specs as [|sp specs IH]; intros H; [reflexivity|].
  cbn [app find]. destruct sp as [i l|l|l].
  - rewrite (H i l (or_introl eq_refl)). apply IH.
    intros i' l' Hin. exact (H i' l' (or_intror Hin)).
  - apply IH. intros i' l' Hin. exact (H i' l' (or_intror Hin)).
  - apply IH. intros i' l' Hin. exact (H i' l' (or_intror Hin)).
Qed.

Lemma indexed_name_digits s u :
  s <> "" -> DecimalString.NilEmpty.uint_of_string s = Some u ->
  V2.indexed_name ("$" ++ s) = Some (Z.of_nat (Nat.of_uint u)).
Proof.
  intros Hne Hu. apply DecimalString.NilEmpty.sus in Hu. subst s.
  unfold Nat.of_uint.
  destruct u as [|u|u|u|u|u|u|u|u|u|u]; [exfalso; apply Hne; reflexivity|..];
    match goal with |- _ = Some (Z.of_nat (Nat.of_uint_acc ?d 0)) =>
      exact (digits_value_uint d 0) end.
Qed.

(** X10: [indexFromImportSpecifier] gives [-1] when no named import has a
    [$digits] name, and otherwise [Number] of the digits after the [$] of
    the first such import: for any non-empty string [s] of decimal digits,
    leading zeros included, importing ["$" ++ s] after imports without such
    names gives back the number [s] denotes (a safe integer, so [Number]
    reads it exactly). *)
Theorem indexFromImportSpecifier_spec :
  (forall specs, no_indexed_import specs -> V2.indexFromImportSpecifier specs = (-1)%Z) /\
  (forall pre s u l post,
      no_indexed_import pre -> s <> "" ->
      DecimalString.NilEmpty.uint_of_string s = Some u ->
      (Z.of_nat (Nat.of_uint u) <= 2 ^ 53)%Z ->
      V2.indexFromImportSpecifier (app pre (ImportSpecifier ("$" ++ s) l :: post))
      = Z.of_nat (Nat.of_uint u)).
Proof.
  split.
  - intros specs H. unfold V2.indexFromImportSpecifier.
    rewrite <- (app_nil_r specs), (find_no_indexed specs [] H). reflexivity.
  - intros pre s u l post H Hne Hu _. unfold V2.indexFromImportSpecifier.
    rewrite (find_no_indexed pre _ H). cbn [find].
    rewrite (indexed_name_digits s u Hne Hu). cbv iota.
    rewrite (indexed_name_digits s u Hne Hu). reflexivity.
Qed.

Lemma indexFromImportSpecifier_spec_witness :
  (no_indexed_import [ImportSpecifier "a" "a"; ImportNamespaceSpecifier "ns"] /\
   V2.indexFromImportSpecifier [ImportSpecifier "a" "a"; ImportNamespaceSpecifier "ns"] = (-1)%Z) /\
  (no_indexed_import [ImportSpecifier "$x" "x"] /\ "007" <> "" /\
   DecimalString.NilEmpty.uint_of_string "007" = Some (Decimal.D0 (Decimal.D0 (Decimal.D7 Decimal.Nil))) /\
   (Z.of_nat 7 <= 2 ^ 53)%Z /\
   V2.indexFromImportSpecifier
     (app [ImportSpecifier "$x" "x"] (ImportSpecifier ("$" ++ "007") "t" :: []))
   = Z.of_nat 7).
Proof.
  assert (Ha : no_indexed_import [ImportSpecifier "a" "a"; ImportNamespaceSpecifier "ns"]).
  { intros i l [Hi|[Hi|[]]]; [injection Hi as <- _; reflexivity|discriminate Hi]. }
  assert (Hx : no_indexed_import [ImportSpecifier "$x" "x"]).
  { intros i l [Hi|[]]. injection Hi as <- _. reflexivity. }
  split.
  - split; [exact Ha|]. exact (proj1 indexFromImportSpecifier_spec _ Ha).
  - split; [exact Hx|]. split; [discriminate|]. split; [reflexivity|]. split; [lia|].
    exact (proj2 indexFromImportSpecifier_spec _ "007" (Decimal.D0 (Decimal.D0 (Decimal.D7 Decimal.Nil)))
             "t" [] Hx (ltac:(discriminate)) eq_refl (ltac:(vm_compute; discriminate))).
Defined.
Section Escape.
Variable E : ascii -> bool.
Variable esc : string -> string.
Hypothesis esc_nil : esc EmptyString = EmptyString.
Hypothesis esc_cons : forall c s,
  esc (String c s) = if E c then String "\" (String c (esc s)) else String c (esc s).
Hypothesis E_special : forall c, In c regex_specials -> E c = true.

Lemma p_alt_unfold f s g :
  p_alt (S f) s g =
  match s with
  | EmptyString | String ")" _ | String "|" _ => Some (REps, s, g)
  | _ =>
      match p_atom f s g with
      | Some (a, rest, g') =>
          let '(t, rest') := quantify a rest in
          match p_alt f rest' g' with
          | Some (r2, rest2, g2) => Some (RSeq t r2, rest2, g2)
          | None => None
          end
      | None => None
      end
  end.
Proof. reflexivity. Qed.

Lemma p_atom_escape f c x g : p_atom (S f) (String "\" (String c x)) g = Some (RChar c, x, g).
Proof. reflexivity. Qed.

Lemma plain_char c : E c = false ->
  quantify_free (String c EmptyString) /\
  (forall x, quantify_free (String c x)) /\
  (forall f x g, quantify_free x ->
     p_alt (S (S f)) (String c x) g
     = option_map (fun '(r2, rest2, g2) => (RSeq (RChar c) r2, rest2, g2)) (p_alt (S f) x g)).
Proof.
  intros HE.
  destruct c as [[] [] [] [] [] [] [] []];
    try (rewrite E_special in HE; [discriminate HE | cbn; tauto]);
    (split; [intros r; reflexivity|]); (split; [intros x r; reflexivity|]);
    intros f x g Hq; rewrite p_alt_unfold; cbv iota; cbn [p_atom]; cbv iota beta zeta; rewrite Hq;
    destruct (p_alt (S f) x g) as [[[r2 rest2] g2]|]; reflexivity.
Qed.

Lemma escaped_char c f x g : quantify_free x ->
  p_alt (S (S f)) (String "\" (String c x)) g
  = option_map (fun '(r2, rest2, g2) => (RSeq (RChar c) r2, rest2, g2)) (p_alt (S f) x g).
Proof.
  intros Hq. rewrite p_alt_unfold, p_atom_escape. cbv iota beta zeta. rewrite Hq.
  destruct (p_alt (S f) x g) as [[[r2 rest2] g2]|]; reflexivity.
Qed.

Lemma esc_quantify_free s : quantify_free (esc s).
Proof.
  destruct s as [|c s]; [rewrite esc_nil; intros r; reflexivity|].
  rewrite esc_cons. destruct (E c) eqn:HE; [intros r; reflexivity|].
  exact (proj1 (proj2 (plain_char c HE)) (esc s)).
Qed.

Lemma esc_length s : String.length s <= String.length (esc s).
Proof.
  induction s as [|c s IH]; [rewrite esc_nil; cbn; lia|].
  rewrite esc_cons. destruct (E c); cbn [String.length]; lia.
Qed.

Lemma esc_parse s : forall f g, String.length s < f ->
  p_alt f (esc s) g = Some (lit_regex s, EmptyString, g).
Proof.
  induction s as [|c s IH]; intros f g Hf.
  - rewrite esc_nil. destruct f; [lia|reflexivity].
  - cbn [String.length] in Hf. destruct f as [|[|f]]; [lia|lia|].
    rewrite esc_cons. destruct (E c) eqn:HE.
    + rewrite (escaped_char c f (esc s) g (esc_quantify_free s)), (IH (S f) g); [reflexivity|lia].
    + rewrite (proj2 (proj2 (plain_char c HE)) f (esc s) g (esc_quantify_free s)), (IH (S f) g);
        [reflexivity|lia].
Qed.

Lemma esc_new_RegExp s flags :
  new_RegExp (esc s) flags = Some (mk_jsregexp (lit_regex s) 0 (startsWith flags "i")).
Proof.
  unfold new_RegExp. pose proof (esc_length s) as Hl.
  replace (4 * String.length (esc s) + 4) with (S (4 * String.length (esc s) + 3)) by lia.
  cbn [p_disj]. rewrite (esc_parse s); [reflexivity|lia].
Qed.

End Escape.

(** X11: escaping gives a pattern that reads the string literally: [new
    RegExp] accepts the output of [escape-string-regexp] (version 1) and of
    [regExpEscape] (version 2) for every string, and compiles it to the
    sequence of the string's characters, with no capture group. *)
Theorem escape_literal :
  (forall s flags, new_RegExp (V1.escapeStringRegexp s) flags
                   = Some (mk_jsregexp (lit_regex s) 0 (startsWith flags "i"))) /\
  (forall s flags, new_RegExp (V2.regExpEscape s) flags
                   = Some (mk_jsregexp (lit_regex s) 0 (startsWith flags "i"))).
Proof.
  split; intros s flags; apply (esc_new_RegExp _ _ eq_refl (fun c s => eq_refl));
    intros c Hc; repeat (destruct Hc as [<-|Hc]; [reflexivity|]); destruct Hc.
Qed.

Lemma ext_split_longest e : forall p x,
  e = p ++ x -> ext_ok x = true -> String.length x <= String.length (snd (ext_split e)).
Proof.
  induction e as [|c s IH]; intros p x He Hx.
  - destruct p; [|discriminate He]. simpl in He. subst x. reflexivity.
  - cbn [ext_split]. destruct (ext_ok (String c s)) eqn:Ho.
    + cbn [snd]. rewrite He, length_app_str. lia.
    + destruct p as [|c' p].
      * simpl in He. subst x. rewrite Hx in Ho. discriminate Ho.
      * simpl in He. injection He as _ Hs.
        pose proof (IH p x Hs Hx) as H. destruct (ext_split s) as [f e]. exact H.
Qed.

(** X12: [splitExtensions] cuts every expression at the start of its
    longest trailing run of [\.] followed by letters and digits: the
    filenames are the parts before that run (the whole expression when
    there is no run), the extensions are the nonempty runs in order, and
    each expression is its part before the run followed by the run. *)
Theorem splitExtensions_longest_suffix :
  (forall xs,
      V1.splitExtensions xs
      = (map (fun e => fst (ext_split e)) xs,
         filter (fun x => negb (String.eqb x "")) (map (fun e => snd (ext_split e)) xs))) /\
  (forall e,
      fst (ext_split e) ++ snd (ext_split e) = e /\ ext_ok (snd (ext_split e)) = true /\
      forall p x, e = p ++ x -> ext_ok x = true ->
                  String.length x <= String.length (snd (ext_split e))).
Proof.
  split.
  - induction xs as [|e xs IH]; [reflexivity|].
    cbn [V1.splitExtensions map filter]. rewrite IH.
    pose proof (ext_split_app e) as Ha.
    destruct (ext_split e) as [f x]. cbn [fst snd] in *.
    destruct x as [|c x]; cbn [String.eqb negb].
    + rewrite str_app_nil_r in Ha. subst f. reflexivity.
    + reflexivity.
  - intros e. split; [exact (ext_split_app e)|]. split; [exact (ext_split_ok e)|].
    exact (ext_split_longest e).
Qed.

Lemma splitExtensions_longest_suffix_witness :
  "[^/]*?\.foo\.txt" = "[^/]*?" ++ "\.foo\.txt" /\ ext_ok "\.foo\.txt" = true /\
  String.length "\.foo\.txt" <= String.length (snd (ext_split "[^/]*?\.foo\.txt")).
Proof.
  split; [reflexivity|]. split; [reflexivity|].
  apply (proj2 (proj2 (proj2 splitExtensions_longest_suffix "[^/]*?\.foo\.txt")) "[^/]*?");
    reflexivity.
Defined.

Lemma existsb_eqb_false x acc : existsb (String.eqb x) acc = false -> ~ In x acc.
Proof.
  intros H Hin. assert (Ht : existsb (String.eqb x) acc = true).
  { apply existsb_exists. exists x. split; [exact Hin|apply String.eqb_refl]. }
  congruence.
Qed.

Lemma uniq_fold_NoDup l : forall acc,
  NoDup acc ->
  NoDup (fold_left (fun acc x => if existsb (String.eqb x) acc then acc else x :: acc) l acc).
Proof.
  induction l as [|x l IH]; intros acc Hacc; [exact Hacc|].
  cbn [fold_left]. destruct (existsb (String.eqb x) acc) eqn:E; apply IH; [exact Hacc|].
  constructor; [exact (existsb_eqb_false x acc E)|exact Hacc].
Qed.

Lemma uniq_fold_incl l : forall acc y,
  In y acc ->
  In y (fold_left (fun acc x => if existsb (String.eqb x) acc then acc else x :: acc) l acc).
Proof.
  induction l as [|x l IH]; intros acc y Hy; [exact Hy|].
  cbn [fold_left]. apply IH. destruct (existsb (String.eqb x) acc); [exact Hy|right; exact Hy].
Qed.

Lemma uniq_NoDup l : NoDup (uniq l).
Proof. unfold uniq. apply NoDup_rev, uniq_fold_NoDup. constructor. Qed.

Lemma uniq_head x l : In x (uniq (x :: l)).
Proof. unfold uniq. rewrite <- in_rev. cbn [fold_left existsb]. apply uniq_fold_incl. left. reflexivity. Qed.

Lemma map_throw_length {A B} (f : A -> option B) l : forall l',
  map_throw f l = Some l' -> List.length l' = List.length l.
Proof.
  induction l as [|x l IH]; intros l' H; simpl in H.
  - injection H as <-. reflexivity.
  - destruct (f x); [|discriminate].
    destruct (map_throw f l) as [l0|]; [|discriminate].
    injection H as <-. simpl. f_equal. exact (IH l0 eq_refl).
Qed.

Lemma map_throw_cons {A B} (f : A -> option B) x l :
  map_throw f (x :: l) = match f x with
                         | Some y => option_map (cons y) (map_throw f l)
                         | None => None
                         end.
Proof. reflexivity. Qed.

Lemma flattenSet_single_from pre post :
  map_throw
    (fun '(index, firstExpression) =>
       match firstExpression with
       | MGlobstar => Some (V1.FArr [V1.twoStar])
       | MStr _ =>
           option_map
             (fun subExpressions =>
                match uniq subExpressions with
                | [x] => V1.FStr x
                | xs => V1.FArr xs
                end)
             (map_throw (fun expressions =>
                           match nth_error expressions index with
                           | Some (MStr e) => Some (V1.escapeStringRegexp e)
                           | _ => None
                           end) [app pre post])
       | MRe _ =>
           option_map (fun subExpressions => V1.FArr (uniq subExpressions))
             (map_throw (fun expressions =>
                           match nth_error expressions index with
                           | Some (MRe src) => Some (V1.slice_inner (mm_source src))
                           | _ => None
                           end) [app pre post])
       end)
    (combine (seq (List.length pre) (List.length post)) post)
  = Some (map (fun p => match p with
                        | MStr s => V1.FStr (V1.escapeStringRegexp s)
                        | MRe src => V1.FArr [src]
                        | MGlobstar => V1.FArr [V1.twoStar]
                        end) post).
Proof.
  revert pre. induction post as [|p post IH]; intros pre; [reflexivity|].
  cbn [List.length seq combine]. rewrite map_throw_cons.
  assert (Hn : nth_error (app pre (p :: post)) (List.length pre) = Some p).
  { rewrite nth_error_app2 by lia. rewrite Nat.sub_diag. reflexivity. }
  assert (Hr := IH (app pre [p])).
  rewrite <- app_assoc, length_app in Hr. cbn [app List.length] in Hr.
  rewrite Nat.add_1_r in Hr. rewrite Hr.
  destruct p as [s|src|]; cbn [map_throw]; rewrite ?Hn; [| |reflexivity].
  - reflexivity.
  - cbn [option_map]. rewrite slice_inner_source. reflexivity.
Qed.

(** X13: [flattenSet] gives one element per part of the first expansion of
    the set.  For a set of a single expansion the element is the escaped
    string of a string part, the one-element array of the source of a
    regexp part and [[twoStar]] for a globstar.  In general every array it
    builds is nonempty and free of duplicates; an empty set throws. *)
Theorem flattenSet_shape :
  V1.flattenSet [] = None /\
  (forall ps,
      V1.flattenSet [ps]
      = Some (map (fun p => match p with
                            | MStr s => V1.FStr (V1.escapeStringRegexp s)
                            | MRe src => V1.FArr [src]
                            | MGlobstar => V1.FArr [V1.twoStar]
                            end) ps)) /\
  (forall first rest exprs,
      V1.flattenSet (first :: rest) = Some exprs ->
      List.length exprs = List.length first /\
      Forall (fun fl => match fl with
                        | V1.FArr xs => xs <> [] /\ NoDup xs
                        | V1.FStr _ => True
                        end) exprs).
Proof.
  split; [reflexivity|]. split.
  - intros ps. unfold V1.flattenSet. exact (flattenSet_single_from [] ps).
  - intros first rest exprs Hf. unfold V1.flattenSet in Hf. split.
    + rewrite (map_throw_length _ _ _ Hf), length_combine, length_seq. lia.
    + apply Forall_forall. intros fl Hfl.
      destruct (map_throw_In _ _ _ _ Hf Hfl) as [[index fe] [_ Hfe]].
      destruct fe as [s|src|].
      * destruct (map_throw _ (first :: rest)) as [subs|] eqn:Hm; [|discriminate].
        cbn [option_map] in Hfe. injection Hfe as <-.
        pose proof (map_throw_length _ _ _ Hm) as Hl.
        destruct subs as [|x subs]; [discriminate Hl|].
        pose proof (uniq_head x subs) as Hx. pose proof (uniq_NoDup (x :: subs)) as Hd.
        destruct (uniq (x :: subs)) as [|y [|z ys]]; [destruct Hx|exact I|].
        split; [discriminate|exact Hd].
      * destruct (map_throw _ (first :: rest)) as [subs|] eqn:Hm; [|discriminate].
        cbn [option_map] in Hfe. injection Hfe as <-.
        pose proof (map_throw_length _ _ _ Hm) as Hl.
        destruct subs as [|x subs]; [discriminate Hl|].
        pose proof (uniq_head x subs) as Hx.
        split; [intros He; rewrite He in Hx; destruct Hx|apply uniq_NoDup].
      * injection Hfe as <-. split; [discriminate|]. constructor; [intros []|constructor].
Qed.

Lemma flattenSet_shape_witness :
  V1.flattenSet [[MStr "."; MRe "a"]; [MStr "."; MRe "b"]; [MStr "."; MRe "a"]]
  = Some [V1.FStr "\."; V1.FArr ["a"; "b"]] /\
  List.length [V1.FStr "\."; V1.FArr ["a"; "b"]] = List.length [MStr "."; MRe "a"] /\
  Forall (fun fl => match fl with
                    | V1.FArr xs => xs <> [] /\ NoDup xs
                    | V1.FStr _ => True
                    end) [V1.FStr "\."; V1.FArr ["a"; "b"]].
Proof.
  assert (H : V1.flattenSet [[MStr "."; MRe "a"]; [MStr "."; MRe "b"]; [MStr "."; MRe "a"]]
              = Some [V1.FStr "\."; V1.FArr ["a"; "b"]]) by (vm_compute; reflexivity).
  split; [exact H|].
  exact (proj2 (proj2 flattenSet_shape) [MStr "."; MRe "a"] _ _ H).
Defined.

(** X14: without an indexed import, version 2 rewrites the specifiers
    exactly as version 1 does: the same statements in the same order, or
    the same error for the first specifier that fails. *)
Theorem replace_specifiers_versions_agree :
  forall members specs acc,
    V1.replace_specifiers members specs acc
    = match V2.replace_specifiers (-1) members specs with
      | inl e => Failed e
      | inr sts => Replaced (app acc sts)
      end.
Proof.
  intros members specs. induction specs as [|sp specs IH]; intros acc.
  - cbn. rewrite app_nil_r. reflexivity.
  - destruct sp as [i l|l|l]; cbn [V1.replace_specifiers V2.replace_specifiers Z.ltb Z.compare].
    + destruct (find_member i members) as [m|]; [|reflexivity].
      rewrite IH. destruct (V2.replace_specifiers (-1) members specs); [reflexivity|].
      rewrite <- app_assoc. reflexivity.
    + rewrite IH. destruct (V2.replace_specifiers (-1) members specs); [reflexivity|].
      rewrite <- app_assoc. reflexivity.
    + rewrite IH. destruct (V2.replace_specifiers (-1) members specs); [reflexivity|].
      rewrite <- app_assoc. reflexivity.
Qed.

Lemma substring_skip a b n : String.substring (String.length a) n (a ++ b) = String.substring 0 n b.
Proof. induction a as [|c a IH]; [reflexivity|]. exact IH. Qed.

Lemma js_slice_middle pre mid ext :
  js_slice (pre ++ mid ++ ext) (Z.of_nat (String.length pre))
    (Z.of_nat (String.length (pre ++ mid ++ ext)) - Z.of_nat (String.length ext)) = mid.
Proof.
  unfold js_slice, js_index. rewrite !length_app_str.
  rewrite (proj2 (Z.ltb_ge _ _)) by lia. rewrite (proj2 (Z.ltb_ge _ _)) by lia.
  rewrite Z.min_l by lia. rewrite Z.min_l by lia.
  replace (Z.to_nat (Z.of_nat (String.length pre))) with (String.length pre) by lia.
  replace (Z.to_nat _) with (String.length mid) by lia.
  rewrite substring_skip. apply substring_app_l.
Qed.

(** X15: without an indexed import, version 2 names the member of a match
    [pre ++ mid ++ ext], where [pre] is the common path prefix and [ext]
    the common extension of all matches, by [memberify] of the middle part
    [mid]. *)
Theorem V2_member_named_by_middle :
  forall idf pcwd cext cpp found set options cwd index members pre mid ext,
    (index < 0)%Z -> cpp found = pre -> cext found = ext ->
    V2.generateMembers idf pcwd cext cpp found set options cwd index = Some members ->
    In (pre ++ mid ++ ext) found ->
    In (mk_member (pre ++ mid ++ ext) (rp pcwd cwd (pre ++ mid ++ ext)) (memberify idf mid))
       members.
Proof.
  intros idf pcwd cext cpp found set options cwd index members pre mid ext Hi Hp He Hg Hin.
  unfold V2.generateMembers in Hg.
  rewrite (proj2 (Z.leb_gt 0 index) Hi) in Hg. injection Hg as <-.
  rewrite Hp, He.
  apply (in_map (fun f => mk_member f (rp pcwd cwd f)
                   (memberify idf (js_slice f (Z.of_nat (String.length pre))
                                     (Z.of_nat (String.length f) - Z.of_nat (String.length ext))))))
    in Hin.
  rewrite js_slice_middle in Hin. exact Hin.
Qed.

Lemma V2_member_named_by_middle_witness :
  (-1 < 0)%Z /\ cpp_dot found_ab = "./" /\ cext_txt found_ab = ".txt" /\
  V2.generateMembers identifierfy_model [] cext_txt cpp_dot found_ab set_dot_star_txt mm_defaults
    "/r" (-1) = Some members_ab /\
  In ("./" ++ "b" ++ ".txt") found_ab /\
  In (mk_member ("./" ++ "b" ++ ".txt") (rp [] "/r" ("./" ++ "b" ++ ".txt"))
        (memberify identifierfy_model "b")) members_ab.
Proof.
  assert (Hg : V2.generateMembers identifierfy_model [] cext_txt cpp_dot found_ab set_dot_star_txt
                 mm_defaults "/r" (-1) = Some members_ab) by (vm_compute; reflexivity).
  assert (Hin : In ("./" ++ "b" ++ ".txt") found_ab) by (right; left; reflexivity).
  split; [lia|]. split; [reflexivity|]. split; [reflexivity|]. split; [exact Hg|].
  split; [exact Hin|].
  exact (V2_member_named_by_middle identifierfy_model [] cext_txt cpp_dot found_ab set_dot_star_txt
           mm_defaults "/r" (-1) members_ab "./" "b" ".txt" ltac:(lia) eq_refl eq_refl Hg Hin).
Defined.

Lemma default_specifier_detected specs l :
  In (ImportDefaultSpecifier l) specs -> hasImportDefaultSpecifier specs = true.
Proof. intros H. apply existsb_exists. exists (ImportDefaultSpecifier l). split; [exact H|reflexivity]. Qed.

(** X16: a default import of a glob is always refused: in version 1 as soon
    as the source has magic, in version 2 as soon as the source starts with
    [glob:] or has magic, the result is ["Cannot import the default
    member"], whatever the other specifiers and the pattern are. *)
Theorem default_import_rejected :
  (forall idf pcwd hm gs specs l source filename,
      hm source = true -> In (ImportDefaultSpecifier l) specs ->
      V1.ImportDeclaration idf pcwd hm gs specs source filename
      = Failed "Cannot import the default member") /\
  (forall idf pcwd hm gs cext cpp specs l value filename,
      (startsWith value "glob:" = true \/ hm value = true) ->
      In (ImportDefaultSpecifier l) specs ->
      V2.ImportDeclaration idf pcwd hm gs cext cpp specs (Some value) filename
      = Failed "Cannot import the default member").
Proof.
  split.
  - intros idf pcwd hm gs specs l source filename Hm Hin.
    unfold V1.ImportDeclaration. cbv zeta.
    rewrite Hm, (default_specifier_detected _ _ Hin). reflexivity.
  - intros idf pcwd hm gs cext cpp specs l value filename Hv Hin.
    unfold V2.ImportDeclaration. cbv zeta beta.
    destruct (startsWith value "glob:").
    + rewrite (default_specifier_detected _ _ Hin). reflexivity.
    + destruct Hv as [Hv|Hv]; [discriminate Hv|]. rewrite Hv. cbn [negb].
      rewrite (default_specifier_detected _ _ Hin). reflexivity.
Qed.

Lemma default_import_rejected_witness :
  (hasMagic_model "./*.txt" = true /\
   In (ImportDefaultSpecifier "d") [ImportSpecifier "a" "a"; ImportDefaultSpecifier "d"] /\
   V1.ImportDeclaration identifierfy_model [] hasMagic_model (glob_const found_ab set_dot_star_txt)
     [ImportSpecifier "a" "a"; ImportDefaultSpecifier "d"] "./*.txt" importer
   = Failed "Cannot import the default member") /\
  ((startsWith "glob:/abs" "glob:" = true \/ hasMagic_model "glob:/abs" = true) /\
   In (ImportDefaultSpecifier "d") [ImportDefaultSpecifier "d"] /\
   V2.ImportDeclaration identifierfy_model [] hasMagic_model (glob_const2 [] []) cext_txt cpp_dot
     [ImportDefaultSpecifier "d"] (Some "glob:/abs") importer
   = Failed "Cannot import the default member").
Proof.
  assert (H1 : In (ImportDefaultSpecifier "d") [ImportSpecifier "a" "a"; ImportDefaultSpecifier "d"])
    by (right; left; reflexivity).
  assert (H2 : In (ImportDefaultSpecifier "d") [ImportDefaultSpecifier "d"]) by (left; reflexivity).
  split.
  - split; [reflexivity|]. split; [exact H1|].
    exact (proj1 default_import_rejected identifierfy_model [] hasMagic_model
             (glob_const found_ab set_dot_star_txt) _ "d" "./*.txt" importer eq_refl H1).
  - split; [left; reflexivity|]. split; [exact H2|].
    exact (proj2 default_import_rejected identifierfy_model [] hasMagic_model (glob_const2 [] [])
             cext_txt cpp_dot _ "d" "glob:/abs" importer (or_introl eq_refl) H2).
Defined.

Lemma no_default_in_named pairs :
  hasImportDefaultSpecifier (map (fun '(i, l) => ImportSpecifier i l) pairs) = false.
Proof. induction pairs as [|[i l] pairs IH]; [reflexivity|exact IH]. Qed.

Lemma V1_replace_named members pairs : forall acc sts,
  map_throw (fun '(i, l) => option_map (fun m => SImportDefault l (m_relative m))
                              (find_member i members)) pairs = Some sts ->
  V1.replace_specifiers members (map (fun '(i, l) => ImportSpecifier i l) pairs) acc
  = Replaced (app acc sts).
Proof.
  induction pairs as [|[i l] pairs IH]; intros acc sts H.
  - injection H as <-. rewrite app_nil_r. reflexivity.
  - rewrite map_throw_cons in H. cbn [map V1.replace_specifiers].
    destruct (find_member i members) as [m|]; [|discriminate H].
    cbn [option_map] in H.
    destruct (map_throw _ pairs) as [sts'|] eqn:E; [|discriminate H].
    injection H as <-. rewrite (IH _ sts' eq_refl), <- app_assoc. reflexivity.
Qed.

Lemma V2_replace_named members pairs : forall sts,
  map_throw (fun '(i, l) => option_map (fun m => SImportDefault l (m_relative m))
                              (find_member i members)) pairs = Some sts ->
  V2.replace_specifiers (-1) members (map (fun '(i, l) => ImportSpecifier i l) pairs) = inr sts.
Proof.
  induction pairs as [|[i l] pairs IH]; intros sts H.
  - injection H as <-. reflexivity.
  - rewrite map_throw_cons in H. cbn [map V2.replace_specifiers Z.ltb Z.compare].
    destruct (find_member i members) as [m|]; [|discriminate H].
    cbn [option_map] in H.
    destruct (map_throw _ pairs) as [sts'|] eqn:E; [|discriminate H].
    injection H as <-. rewrite (IH sts' eq_refl). reflexivity.
Qed.

(** X17: named imports [import {i1 as l1, ...}] of a glob whose members
    pass the check are replaced, in both versions, by [import lk from
    '<relative path>'] of the member named [ik], one per specifier and in
    the order of the specifiers, when every [ik] names a member (and, in
    version 2, none is an indexed [$N] name). *)
Theorem named_import_rewrite :
  (forall idf pcwd hm gs pairs source filename found set members sts,
      hm source = true ->
      startsWith (stripped_pattern source) "." = true ->
      gs (stripped_pattern source) (path_dirname filename) = (found, set) ->
      V1.generateMembers idf pcwd found set (path_dirname filename) = Some members ->
      check_members [] members = None ->
      pairs <> [] ->
      map_throw (fun '(i, l) => option_map (fun m => SImportDefault l (m_relative m))
                                  (find_member i members)) pairs = Some sts ->
      V1.ImportDeclaration idf pcwd hm gs (map (fun '(i, l) => ImportSpecifier i l) pairs)
        source filename = Replaced sts) /\
  (forall idf pcwd hm gs cext cpp pairs value filename found set options members sts,
      (startsWith value "glob:" = true \/ hm value = true) ->
      stripped_pattern value <> "" ->
      startsWith (stripped_pattern value) "/" = false ->
      no_indexed_import (map (fun '(i, l) => ImportSpecifier i l) pairs) ->
      gs (stripped_pattern value) (path_dirname filename) = (found, set, options) ->
      V2.generateMembers idf pcwd cext cpp found set options (path_dirname filename) (-1)
        = Some members ->
      check_members [] members = None ->
      pairs <> [] ->
      map_throw (fun '(i, l) => option_map (fun m => SImportDefault l (m_relative m))
                                  (find_member i members)) pairs = Some sts ->
      V2.ImportDeclaration idf pcwd hm gs cext cpp (map (fun '(i, l) => ImportSpecifier i l) pairs)
        (Some value) filename = Replaced sts).
Proof.
  split.
  - intros idf pcwd hm gs pairs source filename found set members sts Hm Hr Hg Hgm Hc Hne Hs.
    rewrite (V1_ImportDeclaration_members idf pcwd hm gs _ source filename found set members
               Hm (no_default_in_named pairs) Hr Hg Hgm), Hc.
    destruct pairs as [|p pairs]; [contradiction Hne; reflexivity|].
    exact (V1_replace_named members (p :: pairs) [] sts Hs).
  - intros idf pcwd hm gs cext cpp pairs value filename found set options members sts
      Hv Hne Ha Hni Hg Hgm Hc Hp Hs.
    assert (Hix : V2.indexFromImportSpecifier (map (fun '(i, l) => ImportSpecifier i l) pairs)
                  = (-1)%Z).
    { unfold V2.indexFromImportSpecifier.
      rewrite <- (app_nil_r (map _ pairs)), (find_no_indexed _ [] Hni). reflexivity. }
    rewrite (V2_ImportDeclaration_members idf pcwd hm gs cext cpp _ value filename found set
               options members Hv (no_default_in_named pairs) Hne Ha); rewrite ?Hix;
      [|reflexivity|exact Hg|exact Hgm].
    rewrite Hc. destruct pairs as [|p pairs]; [contradiction Hp; reflexivity|].
    rewrite (V2_replace_named members (p :: pairs) sts Hs). reflexivity.
Qed.

Lemma named_import_rewrite_witness :
  V1.ImportDeclaration identifierfy_model [] hasMagic_model (glob_const found_ab set_dot_star_txt)
    (map (fun '(i, l) => ImportSpecifier i l) [("b", "y"); ("a", "x")]) "./*.txt" importer
  = Replaced [SImportDefault "y" "./b.txt"; SImportDefault "x" "./a.txt"] /\
  V2.ImportDeclaration identifierfy_model [] hasMagic_model (glob_const2 found_ab set_dot_star_txt)
    cext_txt cpp_dot (map (fun '(i, l) => ImportSpecifier i l) [("b", "y"); ("a", "x")])
    (Some "./*.txt") importer
  = Replaced [SImportDefault "y" "./b.txt"; SImportDefault "x" "./a.txt"].
Proof.
  split.
  - apply (proj1 named_import_rewrite identifierfy_model [] hasMagic_model
             (glob_const found_ab set_dot_star_txt) _ "./*.txt" importer found_ab set_dot_star_txt
             members_ab); try (vm_compute; reflexivity). discriminate.
  - apply (proj2 named_import_rewrite identifierfy_model [] hasMagic_model
             (glob_const2 found_ab set_dot_star_txt) cext_txt cpp_dot _ "./*.txt" importer found_ab
             set_dot_star_txt mm_defaults members_ab); try (vm_compute; reflexivity).
    + right. reflexivity.
    + discriminate.
    + intros i l [H|[H|[]]]; injection H as <- _; reflexivity.
    + discriminate.
Defined.
Lemma find_member_In i members m : find_member i members = Some m -> In m members.
Proof. intros H. exact (proj1 (find_some _ _ H)). Qed.

Lemma namespace_sources l members :
  Forall (fun s => forall src, stmt_source s = Some src ->
                               exists m, In m members /\ src = m_relative m)
         (namespace_stmts l members).
Proof.
  unfold namespace_stmts. apply Forall_app. split.
  - apply Forall_forall. intros s Hs. apply in_map_iff in Hs. destruct Hs as [m [<- Hm]].
    intros src Hsrc. injection Hsrc as <-. exists m. split; [exact Hm|reflexivity].
  - repeat constructor; intros src Hsrc; discriminate Hsrc.
Qed.

Lemma V1_replace_sources members specs : forall acc sts,
  Forall (fun s => forall src, stmt_source s = Some src ->
                               exists m, In m members /\ src = m_relative m) acc ->
  V1.replace_specifiers members specs acc = Replaced sts ->
  Forall (fun s => forall src, stmt_source s = Some src ->
                               exists m, In m members /\ src = m_relative m) sts.
Proof.
  induction specs as [|sp specs IH]; intros acc sts Hacc H.
  - injection H as <-. exact Hacc.
  - destruct sp as [i l|l|l]; cbn [V1.replace_specifiers] in H.
    + destruct (find_member i members) as [m|] eqn:Hf; [|discriminate H].
      refine (IH _ _ (proj2 (Forall_app _ _ _) (conj Hacc (Forall_cons _ _ (Forall_nil _)))) H).
      intros src Hsrc. injection Hsrc as <-. exists m.
      split; [exact (find_member_In _ _ _ Hf)|reflexivity].
    + apply (IH _ _ (proj2 (Forall_app _ _ _) (conj Hacc (namespace_sources _ _))) H).
    + apply (IH _ _ (proj2 (Forall_app _ _ _) (conj Hacc (namespace_sources _ _))) H).
Qed.

Lemma V2_replace_sources index members specs : forall sts,
  V2.replace_specifiers index members specs = inr sts ->
  Forall (fun s => forall src, stmt_source s = Some src ->
                               exists m, In m members /\ src = m_relative m) sts.
Proof.
  induction specs as [|sp specs IH]; intros sts H; cbn [V2.replace_specifiers] in H.
  - injection H as <-. constructor.
  - destruct (V2.replace_specifiers index members specs) as [e|sts'] eqn:Er;
      [destruct sp as [i l|l|l]; [destruct (Z.ltb index 0); [destruct (find_member i members)|]|..];
       discriminate H|].
    assert (Hst : forall st, (match sp with
                 | ImportSpecifier importName localName =>
                     if Z.ltb index 0 then
                       match find_member importName members with
                       | None => inl (unmatched_import_msg importName members)
                       | Some m => inr [SImportDefault localName (m_relative m)]
                       end
                     else inr (namespace_stmts localName members)
                 | _ => inr (namespace_stmts (spec_local sp) members)
                 end) = inr st ->
              Forall (fun s => forall src, stmt_source s = Some src ->
                                   exists m, In m members /\ src = m_relative m) st).
    { intros st Hs. destruct sp as [i l|l|l].
      - destruct (Z.ltb index 0).
        + destruct (find_member i members) as [m|] eqn:Hf; [|discriminate Hs].
          injection Hs as <-. constructor; [|constructor].
          intros src Hsrc. injection Hsrc as <-. exists m.
          split; [exact (find_member_In _ _ _ Hf)|reflexivity].
        + injection Hs as <-. apply namespace_sources.
      - injection Hs as <-. apply namespace_sources.
      - injection Hs as <-. apply namespace_sources. }
    destruct (match sp with
              | ImportSpecifier importName localName =>
                  if Z.ltb index 0 then
                    match find_member importName members with
                    | None => inl (unmatched_import_msg importName members)
                    | Some m => inr [SImportDefault localName (m_relative m)]
                    end
                  else inr (namespace_stmts localName members)
              | _ => inr (namespace_stmts (spec_local sp) members)
              end) as [e|st]; [discriminate H|].
    injection H as <-. apply Forall_app. split; [exact (Hst st eq_refl)|exact (IH sts' eq_refl)].
Qed.

Lemma sources_from_matches pcwd cwd found members sts :
  map m_file members = found ->
  Forall (fun m => m_relative m = rp pcwd cwd (m_file m)) members ->
  Forall (fun s => forall src, stmt_source s = Some src ->
                               exists m, In m members /\ src = m_relative m) sts ->
  Forall (fun s => forall src, stmt_source s = Some src ->
                               exists f, In f found /\ src = rp pcwd cwd f) sts.
Proof.
  intros Hf Hrel Hs. eapply Forall_impl; [|exact Hs].
  intros s Hp src Hsrc. destruct (Hp src Hsrc) as [m [Hm ->]].
  exists (m_file m). split.
  - rewrite <- Hf. apply in_map. exact Hm.
  - exact (proj1 (Forall_forall _ _) Hrel m Hm).
Qed.

Lemma bare_sources members :
  Forall (fun s => forall src, stmt_source s = Some src ->
                               exists m, In m members /\ src = m_relative m)
         (map (fun m => SImportBare (m_relative m)) members).
Proof.
  apply Forall_forall. intros s Hs. apply in_map_iff in Hs. destruct Hs as [m [<- Hm]].
  intros src Hsrc. injection Hsrc as <-. exists m. split; [exact Hm|reflexivity].
Qed.

(** X18: the rewrite only ever imports the files the glob matched: in both
    versions, every import statement of a replacement imports [rp f] (the
    ["./"]-prefixed path relative to the importing file's directory) of
    some match [f] of the pattern. *)
Theorem imports_only_matches :
  (forall idf pcwd hm gs specs source filename found set sts,
      gs (stripped_pattern source) (path_dirname filename) = (found, set) ->
      V1.ImportDeclaration idf pcwd hm gs specs source filename = Replaced sts ->
      Forall (fun s => forall src, stmt_source s = Some src ->
                         exists f, In f found /\ src = rp pcwd (path_dirname filename) f) sts) /\
  (forall idf pcwd hm gs cext cpp specs value filename found set options sts,
      gs (stripped_pattern value) (path_dirname filename) = (found, set, options) ->
      V2.ImportDeclaration idf pcwd hm gs cext cpp specs (Some value) filename = Replaced sts ->
      Forall (fun s => forall src, stmt_source s = Some src ->
                         exists f, In f found /\ src = rp pcwd (path_dirname filename) f) sts).
Proof.
  split.
  - intros idf pcwd hm gs specs source filename found set sts Hg H.
    unfold V1.ImportDeclaration in H. cbv zeta in H.
    destruct (hm source); cbn [negb] in H; cbv iota in H;
      [|destruct (startsWith source "glob:"); discriminate H].
    fold (stripped_pattern source) in H.
    destruct (hasImportDefaultSpecifier specs); [discriminate H|].
    destruct (negb (startsWith (stripped_pattern source) ".")); [discriminate H|].
    rewrite Hg in H.
    destruct (V1.generateMembers idf pcwd found set (path_dirname filename)) as [members|] eqn:Hgm;
      [|discriminate H].
    destruct (V1_generateMembers_files _ _ _ _ _ _ Hgm) as [Hf Hrel].
    apply (sources_from_matches _ _ _ members _ Hf Hrel).
    destruct (check_members [] members); [discriminate H|].
    destruct specs as [|sp specs].
    + injection H as <-. apply bare_sources.
    + exact (V1_replace_sources _ _ [] sts (Forall_nil _) H).
  - intros idf pcwd hm gs cext cpp specs value filename found set options sts Hg H.
    unfold V2.ImportDeclaration in H. cbv zeta beta in H. unfold stripped_pattern in Hg.
    destruct (startsWith value "glob:");
      [|destruct (hm value); cbn [negb] in H; cbv iota in H; [|discriminate H]].
    all: destruct (hasImportDefaultSpecifier specs); [discriminate H|].
    all: destruct (String.eqb _ ""); [discriminate H|].
    all: destruct (startsWith _ "/"); [discriminate H|].
    all: destruct (_ && _)%bool; [discriminate H|].
    all: rewrite Hg in H.
    all: destruct (V2.generateMembers _ _ _ _ _ _ _ _ _) as [members|] eqn:Hgm; [|discriminate H].
    all: destruct (V2_generateMembers_files _ _ _ _ _ _ _ _ _ _ Hgm) as [Hf Hrel].
    all: apply (sources_from_matches _ _ _ members _ Hf Hrel).
    all: destruct (check_members [] members); [discriminate H|].
    all: destruct specs as [|sp specs]; [injection H as <-; apply bare_sources|].
    all: destruct (V2.replace_specifiers _ _ _) as [e|sts'] eqn:Er; [discriminate H|].
    all: injection H as <-; exact (V2_replace_sources _ _ _ _ Er).
Qed.

Lemma imports_only_matches_witness :
  (glob_const found_ab set_dot_star_txt (stripped_pattern "./*.txt") (path_dirname importer)
   = (found_ab, set_dot_star_txt) /\
   V1.ImportDeclaration identifierfy_model [] hasMagic_model (glob_const found_ab set_dot_star_txt)
     [ImportNamespaceSpecifier "ns"] "./*.txt" importer = Replaced (namespace_stmts "ns" members_ab) /\
   Forall (fun s => forall src, stmt_source s = Some src ->
                      exists f, In f found_ab /\ src = rp [] (path_dirname importer) f)
          (namespace_stmts "ns" members_ab)) /\
  (glob_const2 found_ab set_dot_star_txt (stripped_pattern "./*.txt") (path_dirname importer)
   = (found_ab, set_dot_star_txt, mm_defaults) /\
   V2.ImportDeclaration identifierfy_model [] hasMagic_model (glob_const2 found_ab set_dot_star_txt)
     cext_txt cpp_dot [] (Some "./*.txt") importer
   = Replaced [SImportBare "./a.txt"; SImportBare "./b.txt"] /\
   Forall (fun s => forall src, stmt_source s = Some src ->
                      exists f, In f found_ab /\ src = rp [] (path_dirname importer) f)
          [SImportBare "./a.txt"; SImportBare "./b.txt"]).
Proof.
  assert (H1 : V1.ImportDeclaration identifierfy_model [] hasMagic_model
                 (glob_const found_ab set_dot_star_txt) [ImportNamespaceSpecifier "ns"] "./*.txt"
                 importer = Replaced (namespace_stmts "ns" members_ab)) by (vm_compute; reflexivity).
  assert (H2 : V2.ImportDeclaration identifierfy_model [] hasMagic_model
                 (glob_const2 found_ab set_dot_star_txt) cext_txt cpp_dot [] (Some "./*.txt") importer
               = Replaced [SImportBare "./a.txt"; SImportBare "./b.txt"]) by (vm_compute; reflexivity).
  split.
  - split; [reflexivity|]. split; [exact H1|].
    exact (proj1 imports_only_matches identifierfy_model [] hasMagic_model
             (glob_const found_ab set_dot_star_txt) _ "./*.txt" importer found_ab set_dot_star_txt
             _ eq_refl H1).
  - split; [reflexivity|]. split; [exact H2|].
    exact (proj2 imports_only_matches identifierfy_model [] hasMagic_model
             (glob_const2 found_ab set_dot_star_txt) cext_txt cpp_dot [] "./*.txt" importer found_ab
             set_dot_star_txt mm_defaults _ eq_refl H2).
Defined.
